(** * Blog renderer ([js/blog-renderer.js]): frontmatter parsing, metadata
    merge, list sorting, post loading and code highlighting.

    Strings are sequences of UTF-16 code units, objects are finite maps from
    property names to values, regular expressions are run by a backtracking
    matcher with JavaScript's priorities (greedy and lazy quantifiers,
    leftmost alternative first), and the asynchronous functions are programs
    of a small monad that records their external effects. *)

From Stdlib Require Import ZArith NArith List String Ascii Lia.
From stdpp Require Import base option list sorting gmap.

Open Scope N_scope.
Open Scope list_scope.

(** ** Strings *)

(** A JavaScript string: its UTF-16 code units. *)
Abbreviation jsstr := (list N).

(** The code units of an ASCII literal of the source. *)
Definition lit (s : string) : jsstr :=
  map N_of_ascii (list_ascii_of_string s).

(** [\s] of a regular expression and the characters [trim] removes:
    WhiteSpace and LineTerminator of ECMAScript. *)
Definition is_space (c : N) : bool :=
  (c =? 9) || (c =? 10) || (c =? 11) || (c =? 12) || (c =? 13) || (c =? 32)
  || (c =? 160) || (c =? 5760) || ((8192 <=? c) && (c <=? 8202))
  || (c =? 8232) || (c =? 8233) || (c =? 8239) || (c =? 8287)
  || (c =? 12288) || (c =? 65279).

(** [[\s\S]]: any code unit. *)
Definition any_char (c : N) : bool := is_space c || negb (is_space c).

(** The class of the double quote and the single quote (code units 34
    and 39). *)
Definition is_quote (c : N) : bool := (c =? 34) || (c =? 39).

Definition LF : N := 10.
Definition DASH : N := 45.
Definition COLON : N := 58.
Definition COMMA : N := 44.
Definition LBRACKET : N := 91.
Definition RBRACKET : N := 93.

(** [s.indexOf(c)] for a one-character search string: the first index, or -1. *)
Fixpoint indexOf (c : N) (s : jsstr) : Z :=
  match s with
  | [] => (-1)%Z
  | x :: s' =>
      if x =? c then 0%Z
      else match indexOf c s' with
           | Zneg _ => (-1)%Z
           | i => (i + 1)%Z
           end
  end.

(** An index argument clamped to [0, length]. *)
Definition clamp (len : nat) (i : Z) : nat :=
  Nat.min (Z.to_nat i) len.

(** [s.substring(a, b)]: both ends clamped, swapped when out of order. *)
Definition substring (s : jsstr) (a b : Z) : jsstr :=
  let a' := clamp (length s) a in
  let b' := clamp (length s) b in
  let from := Nat.min a' b' in
  let to := Nat.max a' b' in
  take (to - from) (drop from s).

(** [s.substring(a)]: to the end of the string. *)
Definition substring_from (s : jsstr) (a : Z) : jsstr :=
  drop (clamp (length s) a) s.

(** [s.slice(a, b)]: a negative index counts from the end. *)
Definition slice_index (len : nat) (i : Z) : nat :=
  if (i <? 0)%Z then Z.to_nat (Z.max (Z.of_nat len + i) 0)
  else Nat.min (Z.to_nat i) len.

Definition slice (s : jsstr) (a b : Z) : jsstr :=
  let from := slice_index (length s) a in
  let to := slice_index (length s) b in
  take (to - from) (drop from s).

Fixpoint trimStart (s : jsstr) : jsstr :=
  match s with
  | c :: s' => if is_space c then trimStart s' else s
  | [] => []
  end.

Definition trimEnd (s : jsstr) : jsstr := rev (trimStart (rev s)).

(** [s.trim()]. *)
Definition trim (s : jsstr) : jsstr := trimEnd (trimStart s).

(** [s.startsWith(c)] and [s.endsWith(c)] for a one-character argument. *)
Definition startsWith (c : N) (s : jsstr) : bool :=
  match s with
  | x :: _ => x =? c
  | [] => false
  end.

Definition endsWith (c : N) (s : jsstr) : bool := startsWith c (rev s).

(** [s.split(c)] for a one-character separator: never an empty array. *)
Fixpoint split (c : N) (s : jsstr) : list jsstr :=
  match s with
  | [] => [[]]
  | x :: s' =>
      if x =? c then [] :: split c s'
      else match split c s' with
           | l :: ls => (x :: l) :: ls
           | [] => [[x]]
           end
  end.

(** [a.join(sep)]. *)
Fixpoint join (sep : jsstr) (a : list jsstr) : jsstr :=
  match a with
  | [] => []
  | [l] => l
  | l :: ls => l ++ sep ++ join sep ls
  end.

(** ** Regular expressions *)

(** The constructs the source's patterns use. A quantifier stands over a
    character class only, as in [\s*], [[\s\S]*?] and [[\s\S]*]. *)
Inductive regex : Type :=
| Bol                                   (* ^ (no m flag: start of input) *)
| Eol                                   (* $ (no m flag: end of input) *)
| Chr (p : N -> bool)                   (* one character of a class *)
| Star (greedy : bool) (p : N -> bool)  (* p* and p*? *)
| Cat (r1 r2 : regex)
| Alt (r1 r2 : regex)
| Group (n : nat) (r : regex).          (* the n-th capturing group *)

Declare Scope regex_scope.
Delimit Scope regex_scope with re.
Bind Scope regex_scope with regex.
Infix "⋅" := Cat (at level 40, left associativity) : regex_scope.

(** A literal character and a literal string. *)
Definition chr (c : N) : regex := Chr (N.eqb c).

Fixpoint str (l : jsstr) : regex :=
  match l with
  | [] => Star false (fun _ => false)
  | [c] => chr c
  | c :: l' => Cat (chr c) (str l')
  end.

(** [p*] followed by [k]: the longest run first, then shorter ones. *)
Fixpoint star_greedy {R : Type} (p : N -> bool) (k : jsstr -> option R)
    (s : jsstr) : option R :=
  match s with
  | c :: s' =>
      if p c then
        match star_greedy p k s' with
        | Some r => Some r
        | None => k s
        end
      else k s
  | [] => k s
  end.

(** [p*?] followed by [k]: the shortest run first, then longer ones. *)
Fixpoint star_lazy {R : Type} (p : N -> bool) (k : jsstr -> option R)
    (s : jsstr) : option R :=
  match k s with
  | Some r => Some r
  | None =>
      match s with
      | c :: s' => if p c then star_lazy p k s' else None
      | [] => None
      end
  end.

(** The backtracking matcher: [rmatch input r k caps s] matches [r] at the
    suffix [s] of [input] and hands the captures and the rest to the
    continuation [k]; a failure of [k] makes the matcher try its next
    alternative, in the order of ECMAScript. *)
Fixpoint rmatch {R : Type} (input : jsstr) (r : regex)
    (k : gmap nat jsstr -> jsstr -> option R)
    (caps : gmap nat jsstr) (s : jsstr) : option R :=
  match r with
  | Bol => if (length s =? length input)%nat then k caps s else None
  | Eol => match s with [] => k caps s | _ :: _ => None end
  | Chr p =>
      match s with
      | c :: s' => if p c then k caps s' else None
      | [] => None
      end
  | Star true p => star_greedy p (k caps) s
  | Star false p => star_lazy p (k caps) s
  | Cat r1 r2 => rmatch input r1 (fun caps' s' => rmatch input r2 k caps' s') caps s
  | Alt r1 r2 =>
      match rmatch input r1 k caps s with
      | Some x => Some x
      | None => rmatch input r2 k caps s
      end
  | Group n r1 =>
      rmatch input r1
        (fun caps' s' => k (<[n := take (length s - length s') s]> caps') s')
        caps s
  end.

(** The result of a match: where it starts, what is left after it, and
    the captures. *)
Record match_result : Type := MatchResult {
  m_index : nat;
  m_rest : jsstr;
  m_groups : gmap nat jsstr
}.

(** [RegExpBuiltinExec] without the sticky flag: the first start index, from
    [i] on, at which the pattern matches. *)
Fixpoint exec_from (input : jsstr) (r : regex) (i : nat) (s : jsstr)
    : option match_result :=
  match rmatch input r (fun caps s' => Some (MatchResult i s' caps)) ∅ s with
  | Some m => Some m
  | None =>
      match s with
      | _ :: s' => exec_from input r (S i) s'
      | [] => None
      end
  end.

(** [input.match(r)] for a pattern without the g flag. *)
Definition regex_match (r : regex) (input : jsstr) : option match_result :=
  exec_from input r 0 input.

(** [input.replace(r, '')] for a pattern with the g flag, from the suffix
    [s] of [input] on: [skip] counts the characters of [s] that belong to the
    match before it. After an empty match the next character is kept and
    the search goes on behind it. *)
Fixpoint replace_loop (input : jsstr) (r : regex) (skip : nat) (s : jsstr)
    : jsstr :=
  match skip with
  | S n =>
      match s with
      | _ :: s' => replace_loop input r n s'
      | [] => []
      end
  | O =>
      match s with
      | [] => []
      | c :: s' =>
          match rmatch input r (fun _ s_end => Some (length s - length s_end)%nat) ∅ s with
          | Some (S n) => replace_loop input r n s'
          | Some O | None => c :: replace_loop input r O s'
          end
      end
  end.

Definition replace_all_empty (r : regex) (input : jsstr) : jsstr :=
  replace_loop input r 0 input.

(** ** The frontmatter parser *)

(** The pattern of line 129, piece by piece: [^], [---], [\s*], [\n], group 1
    around the lazy [[\s\S]*?], [\n], [---], [\s*], [\n], group 2 around the
    greedy [[\s\S]*], and [$]. *)
Definition frontmatterRegex : regex :=
  (Bol ⋅ str (lit "---") ⋅ Star true is_space ⋅ chr LF
   ⋅ Group 1 (Star false any_char)
   ⋅ chr LF ⋅ str (lit "---") ⋅ Star true is_space ⋅ chr LF
   ⋅ Group 2 (Star true any_char) ⋅ Eol)%re.

(** The pattern of the quote removal: [^] and a quote, or a quote and [$],
    with the g flag. *)
Definition quoteRegex : regex :=
  Alt (Bol ⋅ Chr is_quote) (Chr is_quote ⋅ Eol).

(** [v.replace(quoteRegex, '')] (lines 148 and 152). *)
Definition strip_quotes (v : jsstr) : jsstr :=
  replace_all_empty quoteRegex v.

(** A frontmatter value: a string, or an array of strings. *)
Inductive value : Type :=
| VStr (s : jsstr)
| VArr (a : list jsstr).

#[global] Instance value_eq_dec : EqDecision value.
Proof. solve_decision. Defined.

(** The value a line binds its key to (lines 145 to 153). *)
Definition parse_value (text : jsstr) : value :=
  let v := strip_quotes (trim text) in
  if startsWith LBRACKET v && endsWith RBRACKET v then
    VArr (map (fun e => strip_quotes (trim e)) (split COMMA (slice v 1 (-1))))
  else VStr v.

(** ** Objects *)

(** The object the parser builds from the literal [{}]: its own properties,
    and the array its prototype was replaced with, if any. An assignment to
    the key [__proto__] goes to the accessor of [Object.prototype]: it
    creates no own property, replaces the prototype when the value is an
    object (here: an array), and does nothing when it is a string. *)
Record object : Type := Obj {
  own : gmap jsstr value;
  proto : option (list jsstr)
}.

Definition empty_object : object := Obj ∅ None.

Definition PROTO : jsstr := lit "__proto__".

(** [o[k] = v] *)
Definition obj_set (o : object) (k : jsstr) (v : value) : object :=
  if decide (k = PROTO) then
    match v with
    | VArr a => Obj (own o) (Some a)
    | VStr _ => o
    end
  else Obj (<[k := v]> (own o)) (proto o).

(** What [o[k]] evaluates to for an own property and for [__proto__] once
    the prototype is an array; other properties inherited from a prototype
    are not looked up ([None]). *)
Definition obj_get (o : object) (k : jsstr) : option value :=
  match own o !! k with
  | Some v => Some v
  | None => if decide (k = PROTO) then VArr <$> proto o else None
  end.

(** The callback of [forEach] (lines 141 to 157). *)
Definition parse_line (fm : object) (line : jsstr) : object :=
  let colonIndex := indexOf COLON line in
  if (0 <? colonIndex)%Z then
    let key := trim (substring line 0 colonIndex) in
    let value := parse_value (substring_from line (colonIndex + 1)) in
    obj_set fm key value
  else fm.

Record parsed : Type := Parsed {
  frontmatter : object;
  content : jsstr
}.

(** [parseFrontmatter(markdown)] (lines 128 to 160). Both groups take part
    in every match of the pattern, so [match[1]] and [match[2]] are strings. *)
Definition parseFrontmatter (markdown : jsstr) : parsed :=
  match regex_match frontmatterRegex markdown with
  | None => Parsed empty_object markdown
  | Some m =>
      let frontmatterText := default [] (m_groups m !! 1%nat) in
      let content := default [] (m_groups m !! 2%nat) in
      Parsed (foldl parse_line empty_object (split LF frontmatterText)) content
  end.

(** ** The metadata merge *)

(** [CopyDataProperties]: every own property of [source] is written to
    [target]. *)
Definition copyDataProperties (target source : gmap jsstr value)
    : gmap jsstr value :=
  map_fold (fun k v acc => <[k := v]> acc) target source.

(** [{ ...postMeta, ...frontmatter }] (line 102): a fresh object that
    receives the own properties of the base, then those of the overlay. *)
Definition merge (base overlay : gmap jsstr value) : gmap jsstr value :=
  copyDataProperties (copyDataProperties ∅ base) overlay.

(** The same on an object store, where an object literal allocates: the
    store after the merge and the location of the new object. Spreading a
    reference that holds no object copies nothing, as for [undefined]. *)
Definition spread_merge (σ : gmap nat (gmap jsstr value)) (base overlay : nat)
    : gmap nat (gmap jsstr value) * nat :=
  let l := fresh (dom σ) in
  (<[l := merge (default ∅ (σ !! base)) (default ∅ (σ !! overlay))]> σ, l).

(** ** The page and its effects *)

(** What a [throw] carries. *)
Inductive exn : Type :=
| TypeError
| FetchError                 (* fetch rejects: no response *)
| SyntaxError                (* response.json() rejects *)
| Error (message : jsstr)    (* new Error(message) *)
| LibraryError (code : N).   (* thrown inside marked or hljs *)

(** A response of [fetch]: [None] in a body field when reading it rejects.
    The catalog is a JSON array of objects whose fields are strings or
    arrays of strings (section 3 of the specification). *)
Record response : Type := Response {
  ok : bool;
  body_json : option (list (gmap jsstr value));
  body_text : option jsstr
}.

(** The card of a post: the values its template interpolates, in the
    order of lines 30 to 40. *)
Record card : Type := Card {
  card_title : jsstr;
  card_date : jsstr;
  card_read_time : jsstr;
  card_description : jsstr;
  card_tags : list jsstr;
  card_slug : jsstr
}.

(** The markup assigned to [innerHTML], by its template. *)
Inductive html : Type :=
| HNoPosts                               (* line 14 *)
| HCards (cards : list card)             (* lines 26 to 47 *)
| HListFailed                            (* line 63 *)
| HErrorContainer (message : jsstr)      (* lines 267 to 272 *)
| HTags (tags : list jsstr)              (* line 224 *)
| HMarkdown (markdown : jsstr) (blocks : list jsstr).  (* marked.parse *)

Inductive event : Type :=
| EFetch (url : jsstr)
| EConsoleError (label : jsstr) (e : exn)
| EShowError (message : jsstr)
| EInnerHTML (id : jsstr) (h : html)
| ETextContent (id : jsstr) (v : option value)
| ESetAttribute (id name : jsstr) (v : option value)
| ECanonicalLink (href : jsstr)
| ECanonicalNotice (href : jsstr)
| EMarkedSetOptions
| EHighlight (code lang : jsstr)
| EHighlightAuto (code : jsstr)
| EHighlightElements
| ESetTimeout (ms : N).

(** What the code reads from outside: the query string, the network, the
    elements of the page by id, the engine's date functions, and the two
    libraries. *)
Record world : Type := World {
  query_slug : option jsstr;
  network : jsstr -> option response;
  elements : gset jsstr;
  Date_parse : jsstr -> option Z;
  toLocaleDateString : option Z -> jsstr;
  hljs_getLanguage : jsstr -> bool;
  hljs_highlight : jsstr -> jsstr -> jsstr + exn;
  hljs_highlightAuto : jsstr -> jsstr + exn;
  marked_blocks : jsstr -> list (jsstr * option jsstr)
}.

Inductive outcome (A : Type) : Type :=
| Return (a : A)
| Throw (e : exn).
Arguments Return {A} a.
Arguments Throw {A} e.

(** A computation in a world: the events it performs, in order, and how it
    ends. *)
Definition M (A : Type) : Type := world -> list event * outcome A.

#[global] Instance M_ret : MRet M := fun A a _ => ([], Return a).

#[global] Instance M_bind : MBind M := fun A B f m w =>
  match m w with
  | (t1, Return a) => let '(t2, o) := f a w in (t1 ++ t2, o)
  | (t1, Throw e) => (t1, Throw e)
  end.

Definition ask : M world := fun w => ([], Return w).
Definition emit (e : event) : M unit := fun _ => ([e], Return tt).
Definition throw {A : Type} (e : exn) : M A := fun _ => ([], Throw e).

(** [try { body } catch (error) { handler }] *)
Definition try_catch {A : Type} (body : M A) (handler : exn -> M A) : M A :=
  fun w =>
    match body w with
    | (t1, Return a) => (t1, Return a)
    | (t1, Throw e) => let '(t2, o) := handler e w in (t1 ++ t2, o)
    end.

Fixpoint mapM {A B : Type} (f : A -> M B) (l : list A) : M (list B) :=
  match l with
  | [] => mret []
  | x :: l' => y ← f x; ys ← mapM f l'; mret (y :: ys)
  end.

(** The events and the outcome of a run. *)
Definition trace {A : Type} (m : M A) (w : world) : list event := (m w).1.
Definition result {A : Type} (m : M A) (w : world) : outcome A := (m w).2.

(** [await fetch(url)] *)
Definition fetch (url : jsstr) : M response :=
  emit (EFetch url);;
  w ← ask;
  match network w url with
  | Some r => mret r
  | None => throw FetchError
  end.

(** [await response.json()] and [await response.text()] *)
Definition json (r : response) : M (list (gmap jsstr value)) :=
  match body_json r with
  | Some posts => mret posts
  | None => throw SyntaxError
  end.

Definition text (r : response) : M jsstr :=
  match body_text r with
  | Some s => mret s
  | None => throw FetchError
  end.

(** [document.getElementById(id).innerHTML = h] and the like: a
    [TypeError] when the page has no such element. *)
Definition on_element (id : jsstr) (e : event) : M unit :=
  w ← ask;
  if decide (id ∈ elements w) then emit e else throw TypeError.

Definition set_innerHTML (id : jsstr) (h : html) : M unit :=
  on_element id (EInnerHTML id h).

Definition set_textContent (id : jsstr) (v : option value) : M unit :=
  on_element id (ETextContent id v).

(** [`${v}`]: the string of a property that may be missing. *)
Definition to_string (v : option value) : jsstr :=
  match v with
  | None => lit "undefined"
  | Some (VStr s) => s
  | Some (VArr a) => join (lit ",") a
  end.

(** The time value of [new Date(v)], [None] for an invalid date. *)
Definition date_value (w : world) (v : option value) : option Z :=
  match v with
  | None => None
  | Some (VStr s) => Date_parse w s
  | Some (VArr a) => Date_parse w (join (lit ",") a)
  end.

(** [formatDate(dateString)] (lines 279 to 282). *)
Definition formatDate (w : world) (v : option value) : jsstr :=
  toLocaleDateString w (date_value w v).

(** [showError(message)] (lines 264 to 274). *)
Definition showError (message : jsstr) : M unit :=
  emit (EShowError message);;
  w ← ask;
  if decide (lit "post-content" ∈ elements w) then
    emit (EInnerHTML (lit "post-content") (HErrorContainer message))
  else if decide (lit "blog-list" ∈ elements w) then
    emit (EInnerHTML (lit "blog-list") (HErrorContainer message))
  else mret tt.

Definition catalog_url : jsstr := lit "blogs/blog-posts.json".

(** [`blogs/posts/${slug}.md`] *)
Definition document_url (slug : jsstr) : jsstr :=
  lit "blogs/posts/" ++ slug ++ lit ".md".

Definition not_found : jsstr := lit "Blog post not found".
Definition load_failed : jsstr :=
  lit "Failed to load blog post. Please try again later.".

(** ** The list renderer *)

(** The comparator of line 19, [new Date(b.date) - new Date(a.date)]. Time
    values are integers, so the sign of the difference of two valid dates
    is the sign of the exact difference; with an invalid date the
    difference is NaN, which [sort] reads as +0. *)
Definition compare_posts (w : world) (a b : gmap jsstr value) : Z :=
  match date_value w (b !! lit "date"), date_value w (a !! lit "date") with
  | Some tb, Some ta => (tb - ta)%Z
  | _, _ => 0%Z
  end.

(** [Array.prototype.sort]: the sort is stable, and [a] stays before a
    later [b] unless the comparator is positive. The algorithm is the
    engine's; for a comparator that orders by a key, ECMAScript fixes the
    result, the one stable arrangement by that key ([Array_sort_unique]). *)
Fixpoint sort_insert {A : Type} (cmp : A -> A -> Z) (x : A) (l : list A)
    : list A :=
  match l with
  | [] => [x]
  | y :: l' => if (0 <? cmp x y)%Z then y :: sort_insert cmp x l' else x :: l
  end.

Definition Array_sort {A : Type} (cmp : A -> A -> Z) (l : list A) : list A :=
  foldr (sort_insert cmp) [] l.

(** The callback of [posts.map] (lines 22 to 47): [post.tags.map] throws
    unless [tags] is an array. *)
Definition render_card (post : gmap jsstr value) : M card :=
  w ← ask;
  let formattedDate := formatDate w (post !! lit "date") in
  match post !! lit "tags" with
  | Some (VArr tags) =>
      mret (Card (to_string (post !! lit "title")) formattedDate
                 (to_string (post !! lit "readTime"))
                 (to_string (post !! lit "description"))
                 tags
                 (to_string (post !! lit "slug")))
  | _ => throw TypeError
  end.

(** [loadBlogList()] (lines 6 to 65). *)
Definition loadBlogList : M unit :=
  try_catch
    (response ← fetch catalog_url;
     posts ← json response;
     match posts with
     | [] => set_innerHTML (lit "blog-list") HNoPosts
     | _ :: _ =>
         w ← ask;
         let sorted := Array_sort (compare_posts w) posts in
         blogCards ← mapM render_card sorted;
         set_innerHTML (lit "blog-list") (HCards blogCards);;
         emit (ESetTimeout 100)
     end)
    (fun error =>
       emit (EConsoleError (lit "Error loading blog posts:") error);;
       set_innerHTML (lit "blog-list") HListFailed).

(** ** The content renderer *)

(** The [highlight] option given to marked (lines 235 to 244). A missing
    hint is [None]; the empty string is falsy as well. [specific] is the
    value returned inside [try], [None] when control falls through to line
    243. *)
Definition highlight (code : jsstr) (lang : option jsstr) : M jsstr :=
  w ← ask;
  specific ←
    match lang with
    | Some l =>
        if negb (bool_decide (l = [])) && hljs_getLanguage w l then
          try_catch
            (emit (EHighlight code l);;
             match hljs_highlight w code l with
             | inl v => mret (Some v)
             | inr err => throw err
             end)
            (fun err => emit (EConsoleError (lit "Highlight error:") err);; mret None)
        else mret None
    | None => mret None
    end;
  match specific with
  | Some v => mret v
  | None =>
      emit (EHighlightAuto code);;
      match hljs_highlightAuto w code with
      | inl v => mret v
      | inr err => throw err
      end
  end.

(** [renderMarkdownContent(markdown)] (lines 232 to 259): marked calls the
    highlighter on every fenced code block it finds. *)
Definition renderMarkdownContent (markdown : jsstr) : M unit :=
  emit EMarkedSetOptions;;
  w ← ask;
  blocks ← mapM (fun b => highlight b.1 b.2) (marked_blocks w markdown);
  set_innerHTML (lit "post-content") (HMarkdown markdown blocks);;
  emit EHighlightElements.

(** ** The post renderer *)

(** [updatePageMetadata(meta)] (lines 165 to 168). *)
Definition updatePageMetadata (meta : gmap jsstr value) : M unit :=
  set_textContent (lit "page-title")
    (Some (VStr (to_string (meta !! lit "title") ++ lit " - Aftab Muddassir")));;
  on_element (lit "meta-description")
    (ESetAttribute (lit "meta-description") (lit "content") (meta !! lit "description")).

(** [addCanonicalTag(canonicalUrl)] (lines 173 to 185): the canonical link
    of the page is replaced. *)
Definition addCanonicalTag (canonicalUrl : jsstr) : M unit :=
  emit (ECanonicalLink canonicalUrl).

(** [showCanonicalNotice(canonicalUrl)] (lines 190 to 199). *)
Definition showCanonicalNotice (canonicalUrl : jsstr) : M unit :=
  w ← ask;
  if decide (lit "canonical-notice" ∈ elements w) then
    if decide (lit "canonical-link" ∈ elements w) then
      emit (ECanonicalNotice canonicalUrl)
    else mret tt
  else mret tt.

(** [renderPostHeader(meta)] (lines 216 to 227). *)
Definition renderPostHeader (meta : gmap jsstr value) : M unit :=
  w ← ask;
  set_textContent (lit "post-title") (meta !! lit "title");;
  set_textContent (lit "post-date") (Some (VStr (formatDate w (meta !! lit "date"))));;
  set_textContent (lit "post-read-time") (meta !! lit "readTime");;
  match meta !! lit "tags" with
  | Some (VArr (tag :: tags)) => set_innerHTML (lit "post-tags") (HTags (tag :: tags))
  | Some (VStr (_ :: _)) => throw TypeError
  | _ => mret tt
  end.

(** Lines 91 to 117 of [loadBlogPost]: the document of the slug is fetched,
    parsed, merged with the entry of the catalog, and rendered. *)
Definition load_document (slug : jsstr) (postMeta : gmap jsstr value) : M unit :=
  markdownResponse ← fetch (document_url slug);
  (if ok markdownResponse then mret tt
   else throw (Error (lit "Markdown file not found")));;
  markdownContent ← text markdownResponse;
  let p := parseFrontmatter markdownContent in
  let finalMeta := merge postMeta (own (frontmatter p)) in
  updatePageMetadata finalMeta;;
  match finalMeta !! lit "canonical" with
  | Some (VStr canonical) =>
      if negb (bool_decide (canonical = []))
         && negb (bool_decide (trim canonical = [])) then
        addCanonicalTag canonical;;
        showCanonicalNotice canonical
      else mret tt
  | Some (VArr _) => throw TypeError
  | None => mret tt
  end;;
  renderPostHeader finalMeta;;
  renderMarkdownContent (content p).

(** Lines 72 to 89 of [loadBlogPost], then [load_document]: the slug of the
    query string, missing ([null]) or empty, is falsy. *)
Definition load_post : M unit :=
  w ← ask;
  match query_slug w with
  | None | Some [] => showError not_found
  | Some slug =>
      metadataResponse ← fetch catalog_url;
      posts ← json metadataResponse;
      match find (fun p => bool_decide (p !! lit "slug" = Some (VStr slug))) posts with
      | None => showError not_found
      | Some postMeta => load_document slug postMeta
      end
  end.

(** The handler of lines 119 to 122. *)
Definition post_failed (error : exn) : M unit :=
  emit (EConsoleError (lit "Error loading blog post:") error);;
  showError load_failed.

(** [loadBlogPost()] (lines 70 to 123). *)
Definition loadBlogPost : M unit := try_catch load_post post_failed.

(** ** Notions the properties are stated with *)

(** [expect c k]: the next character is [c], then [k]; what the matcher does
    on a literal character. *)
Definition expect {R : Type} (c : N) (k : jsstr -> option R) (s : jsstr)
    : option R :=
  match s with
  | x :: s' => if c =? x then k s' else None
  | [] => None
  end.

(** The text starts with a line of whitespace only that a newline ends. *)
Fixpoint blank_to_eol (s : jsstr) : bool :=
  match s with
  | c :: s' =>
      if c =? LF then true
      else if is_space c then blank_to_eol s' else false
  | [] => false
  end.

(** The text begins with a delimiter line: three dashes, whitespace up to
    the end of the line, and the newline. *)
Definition begins_with_delimiter_line (s : jsstr) : bool :=
  match s with
  | c1 :: c2 :: c3 :: s' =>
      (c1 =? DASH) && (c2 =? DASH) && (c3 =? DASH) && blank_to_eol s'
  | _ => false
  end.

(** A [key: value] line: one line, with a colon behind its first character. *)
Definition kv_line (l : jsstr) : Prop :=
  (0 < indexOf COLON l)%Z ∧ LF ∉ l.

(** The key and the text of the value of a [key: value] line. *)
Definition line_key (l : jsstr) : jsstr :=
  trim (substring l 0 (indexOf COLON l)).

Definition line_value_text (l : jsstr) : jsstr :=
  trim (substring_from l (indexOf COLON l + 1)).

(** Lines as text: every line with the newline that ends it. *)
Definition unlines (lines : list jsstr) : jsstr :=
  concat (map (fun l => l ++ [LF]) lines).

(** A document whose frontmatter block holds the given lines: the opening
    delimiter line with trailing whitespace [ws0], the lines, the closing
    delimiter line with trailing whitespace [ws1], and the remaining text. *)
Definition document (ws0 : jsstr) (lines : list jsstr) (ws1 rest : jsstr)
    : jsstr :=
  lit "---" ++ ws0 ++ [LF] ++ unlines lines
  ++ lit "---" ++ ws1 ++ [LF] ++ rest.

(** Distinct keys, as in a mapping of YAML. *)
Definition distinct_keys (lines : list jsstr) : Prop :=
  NoDup (map line_key lines).

(** The value the lines bind a key to: that of the last line with the key. *)
Fixpoint binding (lines : list jsstr) (k : jsstr) : option value :=
  match lines with
  | [] => None
  | l :: ls =>
      match binding ls k with
      | Some v => Some v
      | None =>
          if bool_decide ((0 < indexOf COLON l)%Z ∧ line_key l = k)
          then Some (parse_value (substring_from l (indexOf COLON l + 1)))
          else None
      end
  end.

(** A string without the quote it starts with and the quote it ends
    with, if any. *)
Definition drop_leading_quote (s : jsstr) : jsstr :=
  match s with
  | c :: s' => if is_quote c then s' else s
  | [] => []
  end.

Definition drop_trailing_quote (s : jsstr) : jsstr :=
  rev (drop_leading_quote (rev s)).

Definition unquote (s : jsstr) : jsstr :=
  drop_trailing_quote (drop_leading_quote s).

(** What the pattern of the frontmatter captures, written with the two
    quantifier loops: the pair of group 1 and group 2. *)
Definition frontmatter_split (md : jsstr) : option (jsstr * jsstr) :=
  expect DASH (expect DASH (expect DASH
    (star_greedy is_space
       (expect LF (fun s2 =>
          star_lazy any_char
            (fun u =>
               expect LF (expect DASH (expect DASH (expect DASH
                 (star_greedy is_space
                    (expect LF (fun s5 =>
                       Some (take (length s2 - length u) s2, s5))))))) u)
            s2))))) md.

(** The text without the whitespace-only lines it starts with: what is
    left behind the last newline of its leading run of whitespace. *)
Definition skip_blank_lines (s : jsstr) : jsstr :=
  default s (star_greedy is_space (expect LF Some) s).

(** The object has no own property [__proto__]: true of every object the
    parser builds. *)
Definition proto_free (o : object) : Prop := own o !! PROTO = None.

(** The time value of the date of a post. *)
Definition post_time (w : world) (post : gmap jsstr value) : option Z :=
  date_value w (post !! lit "date").

(** The card of a post whose [tags] is an array. *)
Definition post_tags (post : gmap jsstr value) : list jsstr :=
  match post !! lit "tags" with
  | Some (VArr tags) => tags
  | _ => []
  end.

Definition card_of (w : world) (post : gmap jsstr value) : card :=
  Card (to_string (post !! lit "title")) (formatDate w (post !! lit "date"))
       (to_string (post !! lit "readTime"))
       (to_string (post !! lit "description"))
       (post_tags post)
       (to_string (post !! lit "slug")).

(** Posts in the order of their dates, the newest first. *)
Definition newest_first (w : world) (posts : list (gmap jsstr value)) : Prop :=
  StronglySorted
    (fun a b => ∃ ta tb, post_time w a = Some ta ∧ post_time w b = Some tb
                         ∧ (tb <= ta)%Z)
    posts.

(** The date-only form [YYYY-MM-DD] of the date time string format of
    ECMAScript: the time value of midnight UTC of a day of the calendar. *)
Definition digit (c : N) : option Z :=
  if (48 <=? c) && (c <=? 57) then Some (Z.of_N c - 48)%Z else None.

Definition days_in_month (y m : Z) : Z :=
  if (m =? 2)%Z then
    if ((y mod 4 =? 0) && negb (y mod 100 =? 0) || (y mod 400 =? 0))%Z
    then 29%Z else 28%Z
  else if ((m =? 4) || (m =? 6) || (m =? 9) || (m =? 11))%Z then 30%Z
  else 31%Z.

Definition days_from_civil (y m d : Z) : Z :=
  let y' := (if (m <=? 2)%Z then y - 1 else y)%Z in
  let era := (y' / 400)%Z in
  let yoe := (y' - era * 400)%Z in
  let mp := (if (2 <? m)%Z then m - 3 else m + 9)%Z in
  let doy := ((153 * mp + 2) / 5 + d - 1)%Z in
  let doe := (yoe * 365 + yoe / 4 - yoe / 100 + doy)%Z in
  (era * 146097 + doe - 719468)%Z.

Definition iso_date (s : jsstr) : option Z :=
  match s with
  | [y1; y2; y3; y4; 45; m1; m2; 45; d1; d2] =>
      a ← digit y1; b ← digit y2; c ← digit y3; d ← digit y4;
      e ← digit m1; f ← digit m2; g ← digit d1; h ← digit d2;
      let y := (1000 * a + 100 * b + 10 * c + d)%Z in
      let m := (10 * e + f)%Z in
      let day := (10 * g + h)%Z in
      if ((1 <=? m) && (m <=? 12) && (1 <=? day) && (day <=? days_in_month y m))%Z
      then Some (days_from_civil y m day * 86400000)%Z
      else None
  | _ => None
  end.

(** The engine reads the date-only form as ECMAScript prescribes. *)
Definition parses_iso_dates (w : world) : Prop :=
  ∀ s t, iso_date s = Some t -> Date_parse w s = Some t.

(** A page whose network is down, opened for the post [hello]. *)
Definition offline_world : world :=
  World (Some (lit "hello")) (fun _ => None) {[ lit "post-content" ]}
        (fun _ => None) (fun _ => []) (fun _ => false)
        (fun _ _ => inr (LibraryError 0)) (fun code => inl code) (fun _ => []).

(** A catalog of two posts, the older one first, and a page that lists it
    on an engine that reads dates of the date-only form. *)
Definition post_2025 : gmap jsstr value :=
  {[ lit "slug" := VStr (lit "older"); lit "date" := VStr (lit "2025-05-05");
     lit "tags" := VArr [lit "java"] ]}.

Definition post_2026 : gmap jsstr value :=
  {[ lit "slug" := VStr (lit "newer"); lit "date" := VStr (lit "2026-01-01");
     lit "tags" := VArr [] ]}.

Definition listing_world : world :=
  World None
        (fun _ => Some (Response true (Some [post_2025; post_2026]) None))
        {[ lit "blog-list" ]}
        iso_date (fun _ => []) (fun _ => false)
        (fun _ _ => inr (LibraryError 0)) (fun code => inl code) (fun _ => []).

(** How a call into hljs ends. *)
Definition library_outcome (r : jsstr + exn) : outcome jsstr :=
  match r with
  | inl v => Return v
  | inr e => Throw e
  end.

(** A page whose hljs knows the language [js] and fails on it. *)
Definition failing_highlighter_world : world :=
  World None (fun _ => None) ∅ (fun _ => None) (fun _ => [])
        (fun l => bool_decide (l = lit "js"))
        (fun _ _ => inr (LibraryError 7))
        (fun code => inl (lit "<auto>" ++ code)) (fun _ => []).

(** The head of the post of the repository (blogs/posts), with its
    frontmatter block, and a page that reads it. *)
Definition quoted (s : string) : jsstr := [34] ++ lit s ++ [34].

Definition sample_post : jsstr :=
  unlines
    [ lit "---";
      lit "title: Understanding Thread Safety: A Real-World Example from Hifdh Quest";
      lit "date: 2026-01-17";
      lit "canonical:";
      lit "tags: [" ++ quoted "Java" ++ lit ", " ++ quoted "Thread Safety" ++ lit ", "
        ++ quoted "Concurrency" ++ lit ", " ++ quoted "Backend" ++ lit "]";
      lit "readTime: 7 min read";
      lit "---";
      [];
      lit "# Understanding Thread Safety" ].

Definition reading_world : world :=
  World (Some (lit "thread-safety"))
        (fun url =>
           if decide (url = catalog_url) then
             Some (Response true
                     (Some [ {[ lit "slug" := VStr (lit "thread-safety");
                                lit "title" := VStr (lit "Thread Safety");
                                lit "description" := VStr (lit "About threads") ]} ])
                     None)
           else if decide (url = document_url (lit "thread-safety")) then
             Some (Response true None (Some sample_post))
           else None)
        {[ lit "page-title"; lit "meta-description"; lit "post-title";
           lit "post-date"; lit "post-read-time"; lit "post-tags";
           lit "post-content" ]}
        iso_date
        (fun t => match t with
                  | Some _ => lit "January 17, 2026"
                  | None => lit "Invalid Date"
                  end)
        (fun _ => false)
        (fun _ _ => inr (LibraryError 0)) (fun code => inl code) (fun _ => []).

(** ** More notions *)

(** [post.tags] is an array, so that [post.tags.map] is a function. *)
Definition has_tags_array (post : gmap jsstr value) : bool :=
  match post !! lit "tags" with
  | Some (VArr _) => true
  | _ => false
  end.

(** What the list renderer does after an exception [e]: the log entry and
    the failure message in the list region. *)
Definition list_failed (e : exn) : list event :=
  [EFetch catalog_url;
   EConsoleError (lit "Error loading blog posts:") e;
   EInnerHTML (lit "blog-list") HListFailed].

(** An assignment to [innerHTML]. *)
Definition is_innerHTML (e : event) : bool :=
  match e with
  | EInnerHTML _ _ => true
  | _ => false
  end.

(** The events of the metadata and header of a post (lines 104 to 114):
    texts, the description, the canonical link and its notice, the tags. *)
Definition header_event (e : event) : bool :=
  match e with
  | ETextContent _ _ | ESetAttribute _ _ _ | ECanonicalLink _
  | ECanonicalNotice _ | EInnerHTML _ (HTags _) => true
  | _ => false
  end.

(** The events of the content renderer (lines 232 to 259). *)
Definition content_event (e : event) : bool :=
  match e with
  | EMarkedSetOptions | EHighlight _ _ | EHighlightAuto _ | EHighlightElements
  | EConsoleError _ _ | EInnerHTML _ (HMarkdown _ _) => true
  | _ => false
  end.

(** The merged metadata of a post: the entry of the catalog under the
    frontmatter of the document. *)
Definition final_meta (postMeta : gmap jsstr value) (md : jsstr)
    : gmap jsstr value :=
  merge postMeta (own (frontmatter (parseFrontmatter md))).

(** Lines 104 to 117 of [loadBlogPost], on the merged metadata and the
    body of the document. *)
Definition render_post (finalMeta : gmap jsstr value) (body : jsstr) : M unit :=
  updatePageMetadata finalMeta;;
  match finalMeta !! lit "canonical" with
  | Some (VStr canonical) =>
      if negb (bool_decide (canonical = []))
         && negb (bool_decide (trim canonical = [])) then
        addCanonicalTag canonical;;
        showCanonicalNotice canonical
      else mret tt
  | Some (VArr _) => throw TypeError
  | None => mret tt
  end;;
  renderPostHeader finalMeta;;
  renderMarkdownContent body.

(** A run of the body of [loadBlogPost] as the handler of line 119 ends
    it: an exception is logged and the error state "load failed" entered. *)
Definition post_caught (w : world) (run : list event * outcome unit)
    : list event * outcome unit :=
  match run with
  | (t, Return _) => (t, Return tt)
  | (t, Throw e) =>
      (t ++ EConsoleError (lit "Error loading blog post:") e
         :: (showError load_failed w).1, Return tt)
  end.

(** The events of an error report: the log entry, the error state, and the
    message written to the page. *)
Definition error_event (e : event) : bool :=
  match e with
  | EConsoleError _ _ | EShowError _ | EInnerHTML _ (HErrorContainer _) => true
  | _ => false
  end.

(** The fetches of a page load of a post: none, the catalog, or the catalog
    and then the document of the slug, which is the slug of the query string
    and of an entry of the catalog. *)
Definition post_fetches (w : world) (fetches : list event) : Prop :=
  fetches = []
  ∨ fetches = [EFetch catalog_url]
  ∨ ∃ slug r posts postMeta,
      fetches = [EFetch catalog_url; EFetch (document_url slug)]
      ∧ query_slug w = Some slug
      ∧ network w catalog_url = Some r
      ∧ body_json r = Some posts
      ∧ postMeta ∈ posts
      ∧ postMeta !! lit "slug" = Some (VStr slug).

(** A request of the network. *)
Definition is_fetch (e : event) : bool :=
  match e with
  | EFetch _ => true
  | _ => false
  end.

(** The canonical link and its notice. *)
Definition is_canonical (e : event) : bool :=
  match e with
  | ECanonicalLink _ | ECanonicalNotice _ => true
  | _ => false
  end.

(** Everything [loadBlogPost] needs has arrived: the page was opened for
    [slug], [postMeta] is the entry of the catalog that [find] returns for
    it, and the document of the slug was served with the text [md]. *)
Definition post_loaded (w : world) (slug : jsstr)
    (postMeta : gmap jsstr value) (md : jsstr) : Prop :=
  query_slug w = Some slug ∧ slug ≠ []
  ∧ ∃ r posts d,
      network w catalog_url = Some r
      ∧ body_json r = Some posts
      ∧ find (fun p => bool_decide (p !! lit "slug" = Some (VStr slug))) posts
        = Some postMeta
      ∧ network w (document_url slug) = Some d
      ∧ ok d = true
      ∧ body_text d = Some md.

(** A page with every element of the template of a post, opened for the
    slug [post]; the catalog has the one entry [postMeta], and the document
    of the slug is [md]. *)
Definition post_page (postMeta : gmap jsstr value) (md : jsstr) : world :=
  World (Some (lit "post"))
        (fun url =>
           if decide (url = catalog_url) then
             Some (Response true (Some [postMeta]) None)
           else if decide (url = document_url (lit "post")) then
             Some (Response true None (Some md))
           else None)
        {[ lit "page-title"; lit "meta-description"; lit "post-title";
           lit "post-date"; lit "post-read-time"; lit "post-tags";
           lit "post-content"; lit "canonical-notice"; lit "canonical-link" ]}
        iso_date (fun _ => lit "a date") (fun _ => false)
        (fun _ _ => inr (LibraryError 0)) (fun code => inl code) (fun _ => []).

Definition post_entry : gmap jsstr value :=
  {[ lit "slug" := VStr (lit "post"); lit "title" := VStr (lit "A post") ]}.

(** A post that names its original, and one whose tags are not a list. *)
Definition syndicated_post : jsstr :=
  unlines [ lit "---"; lit "canonical: https://www.example.com/a"; lit "---";
            lit "Text." ].

Definition scalar_tags_post : jsstr :=
  unlines [ lit "---"; lit "tags: java"; lit "---"; lit "Text." ].

(** The events of the canonical step (lines 107 to 110) on the metadata
    [meta]: none; or, for a canonical reference that is a string and not
    blank, the link, and then the notice on a page that has its elements. *)
Definition canonical_step (w : world) (meta : gmap jsstr value)
    (t : list event) : Prop :=
  t = []
  ∨ ∃ c, meta !! lit "canonical" = Some (VStr c) ∧ trim c ≠ []
         ∧ (t = [ECanonicalLink c]
            ∨ (t = [ECanonicalLink c; ECanonicalNotice c]
               ∧ lit "canonical-notice" ∈ elements w
               ∧ lit "canonical-link" ∈ elements w)).

(** There is no post to show: the query string has no slug, or the catalog
    has arrived and none of its entries has the slug. *)
Definition post_absent (w : world) : Prop :=
  query_slug w = None ∨ query_slug w = Some []
  ∨ ∃ slug r posts,
      query_slug w = Some slug
      ∧ network w catalog_url = Some r
      ∧ body_json r = Some posts
      ∧ ∀ p, p ∈ posts -> p !! lit "slug" ≠ Some (VStr slug).

(** The error reports of [loadBlogPost]: none, the error state "not found"
    when there is no post to show, or the log entry of an exception and the
    error state "load failed". *)
Definition post_report (w : world) (report : list event) : Prop :=
  report = []
  ∨ (report = (showError not_found w).1 ∧ post_absent w)
  ∨ ∃ e, report = EConsoleError (lit "Error loading blog post:") e
                    :: (showError load_failed w).1.

(** A line of whitespace only, and a line that reads as a delimiter: three
    dashes and then whitespace only. *)
Definition blank_line (l : jsstr) : bool := forallb is_space l.

Definition delimiter_line (l : jsstr) : bool :=
  match l with
  | c1 :: c2 :: c3 :: ws =>
      (c1 =? DASH) && (c2 =? DASH) && (c3 =? DASH) && forallb is_space ws
  | _ => false
  end.

(** The lines of a block, of any content: the first one is not blank, and
    none of the others reads as a delimiter. *)
Definition block_lines (lines : list jsstr) : Prop :=
  match lines with
  | [] => False
  | l :: ls =>
      blank_line l = false
      ∧ Forall (fun l => LF ∉ l) (l :: ls)
      ∧ Forall (fun l => delimiter_line l = false) ls
  end.

(** The lines of a text with Windows line endings: each one ends with a
    carriage return. *)
Definition CR : N := 13.

Definition crlf (lines : list jsstr) : list jsstr :=
  map (fun l => l ++ [CR]) lines.

(** Some line of the text behind its first one starts with three dashes. *)
Fixpoint later_dash_line (s : jsstr) : bool :=
  match s with
  | [] => false
  | c :: s' =>
      (c =? LF)
      && match s' with
         | c1 :: c2 :: c3 :: _ => (c1 =? DASH) && (c2 =? DASH) && (c3 =? DASH)
         | _ => false
         end
      || later_dash_line s'
  end.

(** The lists of an object are not empty: those of its own properties, and
    the array that replaced its prototype, if any. *)
Definition lists_not_empty (o : object) : Prop :=
  (∀ k a, own o !! k = Some (VArr a) -> a ≠ [])
  ∧ (∀ a, proto o = Some a -> a ≠ []).

(** ** The name of a domain *)

(** [s.replace(pattern, '')] for a pattern that is a string: the first
    occurrence of the pattern is removed. *)
Fixpoint is_prefix (p s : jsstr) : bool :=
  match p, s with
  | [], _ => true
  | c :: p', x :: s' => (c =? x) && is_prefix p' s'
  | _ :: _, [] => false
  end.

Fixpoint remove_first (pattern s : jsstr) : jsstr :=
  if is_prefix pattern s then drop (length pattern) s
  else match s with
       | [] => []
       | c :: s' => c :: remove_first pattern s'
       end.

(** [getDomainName(url)] (lines 204 to 211). [URL_hostname] is the parser
    of the platform: the hostname of [new URL(url)], or [None] when the
    constructor throws. *)
Definition getDomainName (URL_hostname : jsstr -> option jsstr) (url : jsstr)
    : jsstr :=
  match URL_hostname url with
  | Some hostname => remove_first (lit "www.") hostname
  | None => url
  end.

Definition DOT : N := 46.

(** The page has the elements of the template of a post that the renderer
    writes to. *)
Definition post_template (w : world) : Prop :=
  Forall (fun id => id ∈ elements w)
    [lit "page-title"; lit "meta-description"; lit "post-title";
     lit "post-date"; lit "post-read-time"; lit "post-tags";
     lit "post-content"].

(** The title of the page for the metadata (line 166). *)
Definition page_title (meta : gmap jsstr value) : event :=
  ETextContent (lit "page-title")
    (Some (VStr (to_string (meta !! lit "title") ++ lit " - Aftab Muddassir"))).

(** The metadata can be shown: the canonical reference is not a list, and
    the tags are not a string with characters. *)
Definition presentable (meta : gmap jsstr value) : Prop :=
  (∀ a, meta !! lit "canonical" ≠ Some (VArr a))
  ∧ (∀ c s, meta !! lit "tags" ≠ Some (VStr (c :: s))).

(** * Properties *)

(** ** Characters and strings *)

Lemma is_space_LF : is_space LF = true.
Proof. reflexivity. Qed.

Lemma any_char_true (c : N) : any_char c = true.
Proof. unfold any_char. destruct (is_space c); reflexivity. Qed.

Lemma lit_dashes : lit "---" = [DASH; DASH; DASH].
Proof. reflexivity. Qed.

(** ** The matcher *)

Section matcher.
Context {R : Type}.
Implicit Types (k : jsstr -> option R) (s t w : jsstr) (p : N -> bool).

Lemma expect_cons c k s : expect c k (c :: s) = k s.
Proof. unfold expect. rewrite N.eqb_refl. reflexivity. Qed.

Lemma expect_Some c k s x :
  expect c k s = Some x -> ∃ s', s = c :: s' ∧ k s' = Some x.
Proof.
  destruct s as [|a s']; simpl; [discriminate|].
  destruct (N.eqb_spec c a) as [->|]; [|discriminate].
  intros Hk. exists s'. split; [reflexivity|exact Hk].
Qed.

Lemma expect_ne c k a s : c ≠ a -> expect c k (a :: s) = None.
Proof.
  intros Hne. simpl. destruct (N.eqb_spec c a); [contradiction|reflexivity].
Qed.

(** A successful [p*], greedy or lazy, has consumed a run of [p]. *)
Lemma star_greedy_Some p k s x :
  star_greedy p k s = Some x ->
  ∃ w t, s = w ++ t ∧ Forall (fun c => p c = true) w ∧ k t = Some x.
Proof.
  induction s as [|c s IH]; simpl.
  - intros Hk. exists [], []. auto.
  - destruct (p c) eqn:Hp.
    + destruct (star_greedy p k s) as [r|] eqn:Hs.
      * intros [= <-]. destruct (IH eq_refl) as (w & t & -> & Hw & Hk).
        exists (c :: w), t. auto.
      * intros Hk. exists [], (c :: s). auto.
    + intros Hk. exists [], (c :: s). auto.
Qed.

Lemma star_lazy_Some p k s x :
  star_lazy p k s = Some x ->
  ∃ w t, s = w ++ t ∧ Forall (fun c => p c = true) w ∧ k t = Some x.
Proof.
  induction s as [|c s IH]; simpl.
  - destruct (k []) eqn:Hk; [|discriminate].
    intros [= <-]. exists [], []. auto.
  - destruct (k (c :: s)) eqn:Hk.
    + intros [= <-]. exists [], (c :: s). auto.
    + destruct (p c) eqn:Hp; [|discriminate].
      intros Hs. destruct (IH Hs) as (w & t & -> & Hw & Hk').
      exists (c :: w), t. auto.
Qed.

(** The greedy loop prefers the longer run: a success behind a run of [p]
    wins over anything inside the run. *)
Lemma star_greedy_app_Some p k w s x :
  Forall (fun c => p c = true) w ->
  star_greedy p k s = Some x ->
  star_greedy p k (w ++ s) = Some x.
Proof.
  induction 1 as [|c w Hc _ IH]; intros Hs; simpl; [exact Hs|].
  rewrite Hc, (IH Hs). reflexivity.
Qed.

Lemma star_greedy_fmap {B : Type} (f : R -> B) p k s :
  star_greedy p (fun t => f <$> k t) s = f <$> star_greedy p k s.
Proof.
  induction s as [|c s IH]; simpl; [reflexivity|].
  destruct (p c); [|reflexivity].
  rewrite IH. destruct (star_greedy p k s); reflexivity.
Qed.

(** [[\s\S]*] before [$] takes the whole rest. *)
Lemma star_greedy_to_end (g : jsstr -> option R) s :
  star_greedy any_char
    (fun t => match t with [] => g t | _ :: _ => None end) s = g [].
Proof.
  induction s as [|c s IH]; simpl; [reflexivity|].
  rewrite any_char_true, IH. destruct (g []); reflexivity.
Qed.

(** [\s*\n]: no match when the text does not start with a blank line. *)
Lemma blank_run_None k s :
  blank_to_eol s = false -> star_greedy is_space (expect LF k) s = None.
Proof.
  induction s as [|c s IH]; cbn [star_greedy blank_to_eol]; [reflexivity|].
  destruct (N.eqb_spec c LF) as [->|Hne]; [discriminate|].
  assert (expect LF k (c :: s) = None) as Hk by (apply expect_ne; congruence).
  destruct (is_space c) eqn:Hc; [|intros _; exact Hk].
  intros Hb. rewrite (IH Hb). exact Hk.
Qed.

(** The lazy loop passes over a character at which [k] fails. *)
Lemma star_lazy_skip k c s :
  k (c :: s) = None -> star_lazy any_char k (c :: s) = star_lazy any_char k s.
Proof. intros Hk. simpl. rewrite Hk, any_char_true. reflexivity. Qed.

Lemma expect_ext c k k' s :
  (∀ t, k t = k' t) -> expect c k s = expect c k' s.
Proof.
  intros Hk. destruct s as [|a s]; simpl; [reflexivity|].
  rewrite Hk. reflexivity.
Qed.

Lemma star_greedy_ext p k k' s :
  (∀ t, k t = k' t) -> star_greedy p k s = star_greedy p k' s.
Proof.
  intros Hk. induction s as [|c s IH]; simpl; rewrite ?IH, Hk; reflexivity.
Qed.

Lemma star_lazy_ext p k k' s :
  (∀ t, k t = k' t) -> star_lazy p k s = star_lazy p k' s.
Proof.
  intros Hk. induction s as [|c s IH]; simpl; rewrite ?IH, Hk; reflexivity.
Qed.

Lemma expect_fmap {B : Type} (f : R -> B) c k s :
  expect c (fun t => f <$> k t) s = f <$> expect c k s.
Proof.
  destruct s as [|a s]; simpl; [reflexivity|].
  destruct (c =? a); reflexivity.
Qed.

Lemma star_lazy_fmap {B : Type} (f : R -> B) p k s :
  star_lazy p (fun t => f <$> k t) s = f <$> star_lazy p k s.
Proof.
  induction s as [|c s IH]; simpl.
  - destruct (k []); reflexivity.
  - destruct (k (c :: s)); [reflexivity|]. simpl.
    destruct (p c); [exact IH|reflexivity].
Qed.

End matcher.

(** ** The pattern of the frontmatter *)

(** The matcher on the pattern of line 129, unfolded. *)
Lemma rmatch_frontmatter {R : Type} (input : jsstr)
    (k : gmap nat jsstr -> jsstr -> option R) (s : jsstr) :
  rmatch input frontmatterRegex k ∅ s =
  if (length s =? length input)%nat then
    expect DASH (expect DASH (expect DASH
      (star_greedy is_space
         (expect LF (fun s2 =>
            star_lazy any_char
              (fun u =>
                 expect LF (expect DASH (expect DASH (expect DASH
                   (star_greedy is_space
                      (expect LF (fun s5 =>
                         star_greedy any_char
                           (fun s6 =>
                              match s6 with
                              | [] =>
                                  k (<[2%nat := take (length s5 - length s6) s5]>
                                       (<[1%nat := take (length s2 - length u) s2]> ∅))
                                    s6
                              | _ :: _ => None
                              end)
                           s5)))))) u)
              s2))))) s
  else None.
Proof. reflexivity. Qed.

(** The pattern is anchored: it matches at the start of the input only. *)
Lemma exec_from_frontmatter_later (input s : jsstr) (i : nat) :
  (length s < length input)%nat ->
  exec_from input frontmatterRegex i s = None.
Proof.
  revert i. induction s as [|c s IH]; intros i Hlen; cbn [exec_from];
    rewrite rmatch_frontmatter.
  - destruct (Nat.eqb_spec (length (@nil N)) (length input)) as [E|_];
      [simpl in *; lia|reflexivity].
  - destruct (Nat.eqb_spec (length (c :: s)) (length input)) as [E|_]; [lia|].
    apply IH. simpl in Hlen. lia.
Qed.


(** The first match of the pattern in [md], by the two loops. *)
Lemma regex_match_frontmatter (md : jsstr) :
  regex_match frontmatterRegex md =
  (fun g => MatchResult 0 [] (<[2%nat := g.2]> (<[1%nat := g.1]> ∅)))
    <$> frontmatter_split md.
Proof.
  unfold regex_match.
  assert (exec_from md frontmatterRegex 0 md =
          rmatch md frontmatterRegex (fun caps s' => Some (MatchResult 0 s' caps)) ∅ md)
    as ->.
  { destruct md as [|c md]; cbn [exec_from].
    - destruct (rmatch _ _ _ _ _); reflexivity.
    - rewrite exec_from_frontmatter_later by (simpl; lia).
      destruct (rmatch _ _ _ _ _); reflexivity. }
  rewrite rmatch_frontmatter, Nat.eqb_refl. unfold frontmatter_split.
  do 3 (rewrite <- expect_fmap; apply expect_ext; intros ?).
  rewrite <- star_greedy_fmap; apply star_greedy_ext; intros ?.
  rewrite <- expect_fmap; apply expect_ext; intros s2.
  rewrite <- star_lazy_fmap; apply star_lazy_ext; intros u.
  do 4 (rewrite <- expect_fmap; apply expect_ext; intros ?).
  rewrite <- star_greedy_fmap; apply star_greedy_ext; intros ?.
  rewrite <- expect_fmap; apply expect_ext; intros s5.
  rewrite star_greedy_to_end. cbn [length fmap option_fmap option_map fst snd].
  rewrite Nat.sub_0_r, firstn_all. reflexivity.
Qed.

(** The parser, by what the pattern captures. *)
Lemma parseFrontmatter_split (md : jsstr) :
  parseFrontmatter md =
  match frontmatter_split md with
  | Some (g1, g2) => Parsed (foldl parse_line empty_object (split LF g1)) g2
  | None => Parsed empty_object md
  end.
Proof.
  unfold parseFrontmatter. rewrite regex_match_frontmatter.
  destruct (frontmatter_split md) as [[g1 g2]|]; [|reflexivity].
  cbn [fmap option_fmap option_map m_groups fst snd].
  rewrite lookup_insert_ne, !lookup_insert_eq by done. reflexivity.
Qed.

(** ** Lines and blank lines *)

Lemma indexOf_range (c : N) (s : jsstr) :
  (-1 <= indexOf c s < Z.of_nat (length s))%Z.
Proof.
  induction s as [|x s IH]; cbn [indexOf length]; [lia|].
  destruct (x =? c); [lia|].
  destruct (indexOf c s); lia.
Qed.

(** [indexOf] finds the first occurrence: the text splits there. *)
Lemma indexOf_split (c : N) (s : jsstr) :
  (0 <= indexOf c s)%Z ->
  ∃ a b, s = a ++ c :: b ∧ (c ∉ a) ∧ indexOf c s = Z.of_nat (length a).
Proof.
  induction s as [|x s IH]; cbn [indexOf]; [lia|].
  destruct (N.eqb_spec x c) as [->|Hne].
  - intros _. exists [], s. split; [reflexivity|]. split; [apply not_elem_of_nil|reflexivity].
  - pose proof (indexOf_range c s) as Hr.
    destruct (indexOf c s) as [|i|i] eqn:Hi; try lia; intros _.
    + destruct IH as (a & b & -> & Ha & Hl); [lia|].
      exists (x :: a), b. split; [reflexivity|]. split.
      * rewrite not_elem_of_cons. auto.
      * cbn [length]. lia.
    + destruct IH as (a & b & -> & Ha & Hl); [lia|].
      exists (x :: a), b. split; [reflexivity|]. split.
      * rewrite not_elem_of_cons. auto.
      * cbn [length]. lia.
Qed.

(** A line that holds a character other than whitespace is not blank. *)
Lemma blank_to_eol_line (l t : jsstr) (c : N) :
  LF ∉ l -> c ∈ l -> is_space c = false -> blank_to_eol (l ++ t) = false.
Proof.
  induction l as [|x l IH]; intros Hlf Hc Hsp.
  - apply elem_of_nil in Hc. contradiction.
  - apply not_elem_of_cons in Hlf as [Hx Hl].
    cbn [app blank_to_eol].
    destruct (N.eqb_spec x LF); [congruence|].
    destruct (is_space x) eqn:Hxs; [|reflexivity].
    apply elem_of_cons in Hc as [->|Hc]; [congruence|].
    apply IH; assumption.
Qed.

Lemma kv_line_colon (l : jsstr) : kv_line l -> COLON ∈ l.
Proof.
  intros [Hpos _]. destruct (indexOf_split COLON l) as (a & b & -> & _); [lia|].
  set_solver.
Qed.

(** The text behind a blank line is found by the loop [\s*\n]. *)
Lemma blank_run_is_Some (s : jsstr) :
  blank_to_eol s = true -> is_Some (star_greedy is_space (expect LF Some) s).
Proof.
  induction s as [|c s IH]; cbn [star_greedy blank_to_eol]; [discriminate|].
  destruct (N.eqb_spec c LF) as [->|Hne].
  - intros _. rewrite is_space_LF, expect_cons.
    destruct (star_greedy _ _ s); eauto.
  - destruct (is_space c); [|discriminate].
    intros Hb. destruct (IH Hb) as [t ->]. eauto.
Qed.

Lemma blank_run_Some (s t : jsstr) :
  star_greedy is_space (expect LF Some) s = Some t ->
  ∃ w, s = w ++ LF :: t ∧ Forall (fun c => is_space c = true) w
       ∧ blank_to_eol t = false.
Proof.
  revert t. induction s as [|c s IH]; intros t; cbn [star_greedy].
  - discriminate.
  - destruct (is_space c) eqn:Hc.
    + destruct (star_greedy is_space (expect LF Some) s) as [r|] eqn:Hs.
      * intros [= <-]. destruct (IH r eq_refl) as (w & -> & Hw & Hb).
        exists (c :: w). auto.
      * intros Hk. apply expect_Some in Hk as (s' & [= -> <-] & [= <-]).
        exists []. split; [reflexivity|]. split; [constructor|].
        destruct (blank_to_eol s) eqn:Hb; [|reflexivity].
        apply blank_run_is_Some in Hb as [? Hb]. congruence.
    + intros Hk. apply expect_Some in Hk as (s' & [= -> <-] & _).
      discriminate.
Qed.

Lemma blank_run_app (w t : jsstr) :
  Forall (fun c => is_space c = true) w ->
  star_greedy is_space (expect LF Some) (w ++ LF :: t) = Some (skip_blank_lines t).
Proof.
  unfold skip_blank_lines.
  induction 1 as [|c w Hc _ IH]; cbn [app star_greedy].
  - rewrite is_space_LF, expect_cons.
    destruct (star_greedy _ _ t); reflexivity.
  - rewrite Hc, IH. reflexivity.
Qed.

(** [skip_blank_lines] removes whitespace that ends in a newline, and
    leaves a text that starts with no blank line. *)
Lemma skip_blank_lines_spec (s : jsstr) :
  ∃ blank, s = blank ++ skip_blank_lines s
    ∧ Forall (fun c => is_space c = true) blank
    ∧ (blank = [] ∨ last blank = Some LF)
    ∧ blank_to_eol (skip_blank_lines s) = false.
Proof.
  unfold skip_blank_lines.
  destruct (star_greedy is_space (expect LF Some) s) as [t|] eqn:Hs; cbn [default].
  - apply blank_run_Some in Hs as (w & -> & Hw & Hb).
    exists (w ++ [LF]). rewrite <- app_assoc. split; [reflexivity|].
    split; [apply Forall_app; split; [exact Hw|repeat constructor]|].
    split; [right; apply last_snoc|exact Hb].
  - exists []. split; [reflexivity|]. split; [constructor|]. split; [auto|].
    destruct (blank_to_eol s) eqn:Hb; [|reflexivity].
    apply blank_run_is_Some in Hb as [? Hb]. congruence.
Qed.

Lemma blank_run_fmap {B : Type} (f : jsstr -> B) (s : jsstr) :
  star_greedy is_space (expect LF (fun t => Some (f t))) s =
  f <$> star_greedy is_space (expect LF Some) s.
Proof.
  rewrite <- star_greedy_fmap. apply star_greedy_ext. intros t.
  rewrite <- expect_fmap. reflexivity.
Qed.

(** ** Splitting and joining lines *)

Lemma split_no_sep (c : N) (l : jsstr) : c ∉ l -> split c l = [l].
Proof.
  induction l as [|x l IH]; cbn [split]; [reflexivity|].
  rewrite not_elem_of_cons. intros [Hne Hl].
  destruct (N.eqb_spec x c); [congruence|]. rewrite (IH Hl). reflexivity.
Qed.

Lemma split_app_sep (c : N) (l s : jsstr) :
  c ∉ l -> split c (l ++ c :: s) = l :: split c s.
Proof.
  induction l as [|x l IH]; cbn [split app].
  - intros _. rewrite N.eqb_refl. reflexivity.
  - rewrite not_elem_of_cons. intros [Hne Hl].
    destruct (N.eqb_spec x c); [congruence|]. rewrite (IH Hl). reflexivity.
Qed.

Lemma join_cons_cons (sep l l' : jsstr) (ls : list jsstr) :
  join sep (l :: l' :: ls) = l ++ sep ++ join sep (l' :: ls).
Proof. reflexivity. Qed.

(** [split] undoes [join] on lines. *)
Lemma split_join (c : N) (lines : list jsstr) :
  Forall (fun l => c ∉ l) lines -> lines ≠ [] ->
  split c (join [c] lines) = lines.
Proof.
  induction 1 as [|l ls Hl Hls IH]; intros Hne; [contradiction|].
  destruct ls as [|l' ls].
  - apply split_no_sep, Hl.
  - rewrite join_cons_cons. cbn [app]. rewrite split_app_sep by exact Hl.
    rewrite IH by discriminate. reflexivity.
Qed.

(** Joined lines followed by a newline start with their first line and a
    newline. *)
Lemma join_lines_head (l : jsstr) (ls : list jsstr) (t : jsstr) :
  ∃ s, join [LF] (l :: ls) ++ LF :: t = l ++ LF :: s.
Proof.
  destruct ls as [|l' ls].
  - exists t. reflexivity.
  - exists (join [LF] (l' :: ls) ++ LF :: t).
    rewrite join_cons_cons, <- !app_assoc. reflexivity.
Qed.

Lemma unlines_join (lines : list jsstr) :
  lines ≠ [] -> unlines lines = join [LF] lines ++ [LF].
Proof.
  unfold unlines. induction lines as [|l ls IH]; intros Hne; [contradiction|].
  destruct ls as [|l' ls]; [cbn; rewrite app_nil_r; reflexivity|].
  rewrite join_cons_cons. cbn [map concat]. cbn [map concat] in IH.
  rewrite IH by discriminate. rewrite <- !app_assoc. reflexivity.
Qed.

(** ** Recognising the block *)

(** A [key: value] line is not read as the closing delimiter. *)
Lemma kv_line_not_closing {R : Type} (k : jsstr -> option R) (l t : jsstr) :
  kv_line l ->
  expect DASH (expect DASH (expect DASH (star_greedy is_space (expect LF k))))
    (l ++ LF :: t) = None.
Proof.
  intros Hkv. pose proof (kv_line_colon l Hkv) as Hcolon.
  destruct Hkv as [_ Hlf].
  assert (∀ (k' : jsstr -> option R) s, expect DASH k' (LF :: s) = None) as Hend
    by (intros; apply expect_ne; discriminate).
  destruct l as [|c1 l]; [apply Hend|]. cbn [app].
  destruct (N.eqb_spec DASH c1) as [<-|?]; [rewrite expect_cons|apply expect_ne; assumption].
  destruct l as [|c2 l]; [apply Hend|]. cbn [app].
  destruct (N.eqb_spec DASH c2) as [<-|?]; [rewrite expect_cons|apply expect_ne; assumption].
  destruct l as [|c3 l]; [apply Hend|]. cbn [app].
  destruct (N.eqb_spec DASH c3) as [<-|?]; [rewrite expect_cons|apply expect_ne; assumption].
  apply blank_run_None, (blank_to_eol_line l _ COLON); [| |reflexivity].
  - rewrite !not_elem_of_cons in Hlf. tauto.
  - rewrite !elem_of_cons in Hcolon. destruct Hcolon as [?|[?|[?|?]]]; [discriminate..|assumption].
Qed.

Section lazy_lines.
Context {R : Type} (k : jsstr -> option R).
Hypothesis k_newline : ∀ c s, c ≠ LF -> k (c :: s) = None.
Hypothesis k_kv_line : ∀ l s, kv_line l -> k (LF :: l ++ LF :: s) = None.

Lemma star_lazy_line (l t : jsstr) :
  LF ∉ l -> star_lazy any_char k (l ++ t) = star_lazy any_char k t.
Proof.
  induction l as [|c l IH]; [reflexivity|].
  rewrite not_elem_of_cons. intros [Hc Hl]. cbn [app].
  rewrite star_lazy_skip by (apply k_newline; congruence). apply IH, Hl.
Qed.

(** The lazy loop of group 1 runs over all the lines of the block. *)
Lemma star_lazy_lines (lines : list jsstr) (t : jsstr) :
  Forall kv_line lines -> lines ≠ [] ->
  star_lazy any_char k (join [LF] lines ++ LF :: t) =
  star_lazy any_char k (LF :: t).
Proof.
  induction 1 as [|l ls Hl Hls IH]; intros Hne; [contradiction|].
  destruct ls as [|l' ls].
  - apply star_lazy_line, Hl.
  - rewrite join_cons_cons, <- !app_assoc. cbn [app].
    rewrite star_lazy_line by apply Hl.
    destruct (join_lines_head l' ls t) as [s Hs].
    rewrite star_lazy_skip.
    + apply IH. discriminate.
    + rewrite Hs. apply k_kv_line. inversion Hls; assumption.
Qed.

End lazy_lines.

(** What the pattern captures in a document with a block of [key: value]
    lines: the lines, and the remaining text without its leading blank
    lines. *)
Lemma frontmatter_split_document (ws0 : jsstr) (lines : list jsstr)
    (ws1 rest : jsstr) :
  Forall (fun c => is_space c = true) ws0 ->
  Forall (fun c => is_space c = true) ws1 ->
  Forall kv_line lines -> lines ≠ [] ->
  frontmatter_split (document ws0 lines ws1 rest) =
  Some (join [LF] lines, skip_blank_lines rest).
Proof.
  intros Hws0 Hws1 Hlines Hne.
  unfold frontmatter_split, document.
  rewrite unlines_join, lit_dashes, <- !app_assoc by exact Hne. cbn [app].
  rewrite !expect_cons.
  set (body := join [LF] lines ++ LF :: DASH :: DASH :: DASH :: ws1 ++ LF :: rest).
  apply star_greedy_app_Some; [exact Hws0|].
  cbn [star_greedy]. rewrite is_space_LF, expect_cons.
  assert (blank_to_eol body = false) as Hbody.
  { destruct lines as [|l ls]; [contradiction|]. subst body.
    destruct (join_lines_head l ls (DASH :: DASH :: DASH :: ws1 ++ LF :: rest)) as [s ->].
    inversion Hlines as [|? ? Hl _]; subst.
    apply (blank_to_eol_line l _ COLON); [apply Hl|apply kv_line_colon, Hl|reflexivity]. }
  rewrite blank_run_None by exact Hbody.
  subst body. rewrite star_lazy_lines; [| | |exact Hlines|exact Hne].
  - cbn [star_lazy]. rewrite !expect_cons, blank_run_fmap, blank_run_app by exact Hws1.
    cbn [fmap option_fmap option_map].
    rewrite length_app, Nat.add_sub, take_app_length. reflexivity.
  - intros c s Hc. apply expect_ne. congruence.
  - intros l s Hl. rewrite expect_cons. apply kv_line_not_closing, Hl.
Qed.

(** ** Removing quotes *)

Lemma drop_trailing_quote_cons (c : N) (s : jsstr) :
  drop_trailing_quote (c :: s) =
  match s with
  | [] => if is_quote c then [] else [c]
  | _ :: _ => c :: drop_trailing_quote s
  end.
Proof.
  unfold drop_trailing_quote. destruct s as [|x s].
  - cbn. destruct (is_quote c); reflexivity.
  - cbn [rev]. destruct (rev s ++ [x]) as [|y r] eqn:Hr.
    + destruct (rev s); discriminate.
    + cbn [app drop_leading_quote]. destruct (is_quote y).
      * apply (rev_app_distr r [c]).
      * apply (rev_app_distr (y :: r) [c]).
Qed.

(** Behind the start of the input the pattern removes a final quote only. *)
Lemma replace_loop_later (input s : jsstr) :
  (length s < length input)%nat ->
  replace_loop input quoteRegex 0 s = drop_trailing_quote s.
Proof.
  induction s as [|c s IH]; intros Hlen; [reflexivity|].
  rewrite drop_trailing_quote_cons.
  cbn [replace_loop quoteRegex rmatch].
  destruct (Nat.eqb_spec (length (c :: s)) (length input)) as [E|_]; [lia|].
  destruct (is_quote c) eqn:Hq.
  - destruct s as [|x s]; [reflexivity|].
    rewrite IH by (cbn [length] in *; lia). reflexivity.
  - rewrite IH by (cbn [length] in *; lia).
    destruct s; reflexivity.
Qed.

(** The quote removal of lines 148 and 152 drops a leading quote and a
    trailing quote. *)
Lemma strip_quotes_unquote (s : jsstr) : strip_quotes s = unquote s.
Proof.
  unfold strip_quotes, replace_all_empty, unquote.
  destruct s as [|c s]; [reflexivity|].
  cbn [replace_loop quoteRegex rmatch drop_leading_quote].
  rewrite Nat.eqb_refl.
  destruct (is_quote c) eqn:Hq.
  - replace (length (c :: s) - length s)%nat with 1%nat by (cbn [length]; lia).
    apply replace_loop_later. cbn [length]. lia.
  - rewrite replace_loop_later by (cbn [length]; lia).
    rewrite drop_trailing_quote_cons, Hq. destruct s; reflexivity.
Qed.

(** ** Values *)

Lemma split_not_nil (c : N) (s : jsstr) : split c s ≠ [].
Proof.
  induction s as [|x s IH]; cbn [split]; [discriminate|].
  destruct (x =? c); [discriminate|].
  destruct (split c s); [contradiction|discriminate].
Qed.

Lemma drop_trailing_quote_snoc (s : jsstr) (c : N) :
  is_quote c = false -> drop_trailing_quote (s ++ [c]) = s ++ [c].
Proof.
  intros Hc. unfold drop_trailing_quote.
  rewrite rev_app_distr. cbn [rev app drop_leading_quote].
  rewrite Hc. cbn [rev]. rewrite rev_involutive. reflexivity.
Qed.

Lemma unquote_brackets (inner : jsstr) :
  unquote (LBRACKET :: inner ++ [RBRACKET]) = LBRACKET :: inner ++ [RBRACKET].
Proof.
  unfold unquote. cbn [drop_leading_quote].
  change (is_quote LBRACKET) with false. cbn iota.
  apply (drop_trailing_quote_snoc (LBRACKET :: inner) RBRACKET). reflexivity.
Qed.

Lemma slice_brackets (inner : jsstr) :
  slice (LBRACKET :: inner ++ [RBRACKET]) 1 (-1) = inner.
Proof.
  unfold slice, slice_index. cbn [length Z.ltb Z.compare].
  rewrite length_app. cbn [length].
  replace (Z.to_nat (Z.max (Z.of_nat (S (length inner + 1)) + -1) 0))
    with (S (length inner)) by lia.
  replace (Nat.min (Z.to_nat 1) (S (length inner + 1))) with 1%nat by lia.
  cbn [drop]. replace (S (length inner) - 1)%nat with (length inner) by lia.
  apply take_app_length.
Qed.

(** A value in brackets is read as the list of its elements, each trimmed
    and without its quotes. *)
Lemma parse_value_brackets (text inner : jsstr) :
  trim text = LBRACKET :: inner ++ [RBRACKET] ->
  parse_value text = VArr (map (fun e => unquote (trim e)) (split COMMA inner)).
Proof.
  intros Htext. unfold parse_value.
  rewrite Htext, strip_quotes_unquote, unquote_brackets, slice_brackets.
  assert (endsWith RBRACKET (LBRACKET :: inner ++ [RBRACKET]) = true) as ->.
  { unfold endsWith.
    change (LBRACKET :: inner ++ [RBRACKET]) with ((LBRACKET :: inner) ++ [RBRACKET]).
    rewrite rev_app_distr. reflexivity. }
  cbn [startsWith]. rewrite N.eqb_refl. cbn [andb].
  f_equal. apply map_ext. intros e. apply strip_quotes_unquote.
Qed.

(** The array of a value is never empty. *)
Lemma parse_value_array_not_nil (text : jsstr) (a : list jsstr) :
  parse_value text = VArr a -> a ≠ [].
Proof.
  unfold parse_value.
  destruct (startsWith LBRACKET _ && endsWith RBRACKET _); [|discriminate].
  intros [= <-] Hnil. apply map_eq_nil in Hnil.
  exact (split_not_nil _ _ Hnil).
Qed.

(** ** Objects *)

Lemma proto_free_empty : proto_free empty_object.
Proof. reflexivity. Qed.

Lemma proto_free_set (o : object) (k : jsstr) (v : value) :
  proto_free o -> proto_free (obj_set o k v).
Proof.
  unfold proto_free, obj_set. intros Ho.
  destruct (decide (k = PROTO)) as [->|Hk].
  - destruct v; exact Ho.
  - cbn [own]. rewrite lookup_insert_ne by exact Hk. exact Ho.
Qed.

Lemma proto_free_line (o : object) (l : jsstr) :
  proto_free o -> proto_free (parse_line o l).
Proof.
  intros Ho. unfold parse_line.
  destruct (0 <? indexOf COLON l)%Z; [apply proto_free_set|]; exact Ho.
Qed.

(** An array assigned to a key is what the key reads as. *)
Lemma obj_get_set_array (o : object) (k : jsstr) (a : list jsstr) :
  proto_free o -> obj_get (obj_set o k (VArr a)) k = Some (VArr a).
Proof.
  unfold proto_free, obj_get, obj_set. intros Ho.
  destruct (decide (k = PROTO)) as [->|Hk]; cbn [own proto].
  - rewrite Ho. destruct (decide (PROTO = PROTO)); [reflexivity|contradiction].
  - rewrite lookup_insert_eq. reflexivity.
Qed.

Lemma obj_get_set_ne (o : object) (k k' : jsstr) (v : value) :
  k ≠ k' -> obj_get (obj_set o k' v) k = obj_get o k.
Proof.
  unfold obj_get, obj_set. intros Hne.
  destruct (decide (k' = PROTO)) as [->|Hk'].
  - destruct v; [reflexivity|]. cbn [own proto].
    destruct (own o !! k); [reflexivity|].
    destruct (decide (k = PROTO)); [contradiction|reflexivity].
  - cbn [own proto]. rewrite lookup_insert_ne by congruence. reflexivity.
Qed.

Lemma parse_line_kv (o : object) (l : jsstr) :
  (0 < indexOf COLON l)%Z ->
  parse_line o l =
  obj_set o (line_key l) (parse_value (substring_from l (indexOf COLON l + 1))).
Proof.
  intros Hpos. unfold parse_line.
  destruct (Z.ltb_spec 0 (indexOf COLON l)); [reflexivity|lia].
Qed.

(** Lines with other keys leave a key as it reads. *)
Lemma obj_get_lines_other (lines : list jsstr) (o : object) (k : jsstr) :
  k ∉ map line_key lines ->
  obj_get (foldl parse_line o lines) k = obj_get o k.
Proof.
  revert o. induction lines as [|l ls IH]; intros o Hk; [reflexivity|].
  cbn [map] in Hk. apply not_elem_of_cons in Hk as [Hl Hls].
  cbn [foldl]. rewrite IH by exact Hls.
  unfold parse_line. destruct (0 <? indexOf COLON l)%Z; [|reflexivity].
  apply obj_get_set_ne, Hl.
Qed.

(** In a block with distinct keys, the key of a line with a value in
    brackets reads as the list of the elements. *)
Lemma obj_get_lines_array (lines : list jsstr) (o : object) (l inner : jsstr) :
  proto_free o -> distinct_keys lines -> l ∈ lines -> kv_line l ->
  line_value_text l = LBRACKET :: inner ++ [RBRACKET] ->
  obj_get (foldl parse_line o lines) (line_key l) =
  Some (VArr (map (fun e => unquote (trim e)) (split COMMA inner))).
Proof.
  unfold distinct_keys. intros Ho Hnd Hin [Hpos _] Hval. revert o Ho.
  induction lines as [|l0 ls IH]; intros o Ho.
  - apply elem_of_nil in Hin. contradiction.
  - cbn [map] in Hnd. apply NoDup_cons in Hnd as [Hl0 Hnd]. cbn [foldl].
    apply elem_of_cons in Hin as [->|Hin].
    + rewrite obj_get_lines_other by exact Hl0.
      rewrite parse_line_kv by exact Hpos.
      rewrite (parse_value_brackets _ inner) by exact Hval.
      apply obj_get_set_array, Ho.
    + apply IH; [exact Hnd|exact Hin|apply proto_free_line, Ho].
Qed.

(** The own properties after the lines: every key other than [__proto__]
    has the value of the last line that names it. *)
Lemma own_lines_binding (lines : list jsstr) (o : object) (k : jsstr) :
  k ≠ PROTO ->
  own (foldl parse_line o lines) !! k =
  match binding lines k with
  | Some v => Some v
  | None => own o !! k
  end.
Proof.
  intros Hk. revert o. induction lines as [|l ls IH]; intros o; [reflexivity|].
  cbn [foldl binding]. rewrite IH.
  destruct (binding ls k); [reflexivity|].
  destruct (Z.ltb_spec 0 (indexOf COLON l)) as [Hpos|Hpos].
  - rewrite parse_line_kv by exact Hpos. unfold obj_set.
    destruct (decide (line_key l = k)) as [Heq|Hne].
    + rewrite bool_decide_eq_true_2 by auto.
      destruct (decide (line_key l = PROTO)); [congruence|].
      cbn [own]. rewrite Heq. apply lookup_insert_eq.
    + rewrite bool_decide_eq_false_2 by tauto.
      destruct (decide (line_key l = PROTO)).
      * destruct (parse_value _); reflexivity.
      * cbn [own]. apply lookup_insert_ne. exact Hne.
  - rewrite bool_decide_eq_false_2 by lia. unfold parse_line.
    destruct (Z.ltb_spec 0 (indexOf COLON l)); [lia|reflexivity].
Qed.

(** ** The parser on documents *)

(** A match of the pattern splits the document at the two delimiters. *)
Lemma frontmatter_split_Some (md g1 g2 : jsstr) :
  frontmatter_split md = Some (g1, g2) ->
  ∃ ws0 ws1,
    md = lit "---" ++ ws0 ++ [LF] ++ g1 ++ [LF] ++ lit "---" ++ ws1 ++ [LF] ++ g2
    ∧ Forall (fun c => is_space c = true) ws0
    ∧ Forall (fun c => is_space c = true) ws1
    ∧ blank_to_eol g2 = false.
Proof.
  unfold frontmatter_split. intros H.
  apply expect_Some in H as (r1 & -> & H).
  apply expect_Some in H as (r2 & -> & H).
  apply expect_Some in H as (r3 & -> & H).
  apply star_greedy_Some in H as (ws0 & t & -> & Hws0 & H).
  apply expect_Some in H as (s2 & -> & H).
  apply star_lazy_Some in H as (w & u & -> & _ & H).
  apply expect_Some in H as (u1 & -> & H).
  apply expect_Some in H as (u2 & -> & H).
  apply expect_Some in H as (u3 & -> & H).
  apply expect_Some in H as (s4 & -> & H).
  rewrite blank_run_fmap in H.
  destruct (star_greedy is_space (expect LF Some) s4) as [s5|] eqn:Hs5;
    [|discriminate].
  cbn [fmap option_fmap option_map] in H.
  rewrite length_app, Nat.add_sub, take_app_length in H.
  injection H as <- <-.
  apply blank_run_Some in Hs5 as (ws1 & -> & Hws1 & Hb).
  exists ws0, ws1. rewrite lit_dashes. cbn [app].
  rewrite <- ?app_assoc. cbn [app]. auto.
Qed.

Lemma frontmatter_split_None (md : jsstr) :
  begins_with_delimiter_line md = false -> frontmatter_split md = None.
Proof.
  unfold frontmatter_split, begins_with_delimiter_line.
  destruct md as [|c1 [|c2 [|c3 s]]]; intros Hb.
  - reflexivity.
  - cbn [expect]. destruct (DASH =? c1); reflexivity.
  - cbn [expect]. destruct (DASH =? c1); [destruct (DASH =? c2)|]; reflexivity.
  - destruct (N.eqb_spec c1 DASH) as [->|?]; [|apply expect_ne; congruence].
    rewrite expect_cons.
    destruct (N.eqb_spec c2 DASH) as [->|?]; [|apply expect_ne; congruence].
    rewrite expect_cons.
    destruct (N.eqb_spec c3 DASH) as [->|?]; [|apply expect_ne; congruence].
    rewrite expect_cons. apply blank_run_None. exact Hb.
Qed.

(** What [begins_with_delimiter_line] decides. *)
Lemma begins_with_delimiter_line_spec (md : jsstr) :
  begins_with_delimiter_line md = true <->
  ∃ ws rest, md = lit "---" ++ ws ++ [LF] ++ rest
             ∧ Forall (fun c => is_space c = true ∧ c ≠ LF) ws.
Proof.
  assert (∀ s, blank_to_eol s = true <->
               ∃ ws rest, s = ws ++ [LF] ++ rest
                          ∧ Forall (fun c => is_space c = true ∧ c ≠ LF) ws) as Hblank.
  { induction s as [|c s IH]; cbn [blank_to_eol].
    - split; [discriminate|]. intros (ws & rest & H & _).
      destruct ws; discriminate.
    - destruct (N.eqb_spec c LF) as [->|Hne].
      + split; [|reflexivity]. intros _. exists [], s. split; [reflexivity|constructor].
      + destruct (is_space c) eqn:Hc.
        * rewrite IH. split.
          -- intros (ws & rest & -> & Hws). exists (c :: ws), rest.
             split; [reflexivity|]. constructor; auto.
          -- intros (ws & rest & H & Hws). destruct ws as [|x ws].
             ++ injection H as -> _. contradiction.
             ++ injection H as -> ->. exists ws, rest.
                split; [reflexivity|]. inversion Hws; assumption.
        * split; [discriminate|]. intros (ws & rest & H & Hws).
          destruct ws as [|x ws].
          -- injection H as -> _. contradiction.
          -- injection H as -> _. inversion Hws as [|? ? [Hx _] _]. congruence. }
  unfold begins_with_delimiter_line. rewrite lit_dashes. split.
  - destruct md as [|c1 [|c2 [|c3 s]]]; try discriminate.
    rewrite !andb_true_iff, !N.eqb_eq. intros [[[-> ->] ->] Hb].
    apply Hblank in Hb as (ws & rest & -> & Hws). exists ws, rest. auto.
  - intros (ws & rest & -> & Hws). cbn [app]. rewrite !N.eqb_refl. cbn [andb].
    apply Hblank. exists ws, rest. auto.
Qed.

(** The parser on a document with a block of [key: value] lines. *)
Lemma parseFrontmatter_document (ws0 : jsstr) (lines : list jsstr)
    (ws1 rest : jsstr) :
  Forall (fun c => is_space c = true) ws0 ->
  Forall (fun c => is_space c = true) ws1 ->
  Forall kv_line lines -> lines ≠ [] ->
  parseFrontmatter (document ws0 lines ws1 rest) =
  Parsed (foldl parse_line empty_object lines) (skip_blank_lines rest).
Proof.
  intros Hws0 Hws1 Hlines Hne.
  rewrite parseFrontmatter_split, frontmatter_split_document by assumption.
  rewrite split_join; [reflexivity| |exact Hne].
  eapply Forall_impl; [exact Hlines|]. intros l [_ Hl]. exact Hl.
Qed.

(** ** The frontmatter parser: the claims *)

(** C1 (amended). For every document text that begins with a delimiter
    line, followed by one or more [key: value] lines, followed by a closing
    delimiter line, [parseFrontmatter] returns the mapping parsed from those
    lines (every key other than [__proto__] bound to the value of the last
    line that names it) and, as body, the remaining text without the
    whitespace-only lines it starts with. *)
Theorem parseFrontmatter_block (ws0 : jsstr) (lines : list jsstr)
    (ws1 rest : jsstr) :
  Forall (fun c => is_space c = true) ws0 ->
  Forall (fun c => is_space c = true) ws1 ->
  Forall kv_line lines -> lines ≠ [] ->
  let p := parseFrontmatter (document ws0 lines ws1 rest) in
  frontmatter p = foldl parse_line empty_object lines
  ∧ (∀ k, k ≠ PROTO -> own (frontmatter p) !! k = binding lines k)
  ∧ content p = skip_blank_lines rest
  ∧ ∃ blank, rest = blank ++ content p
      ∧ Forall (fun c => is_space c = true) blank
      ∧ (blank = [] ∨ last blank = Some LF)
      ∧ blank_to_eol (content p) = false.
Proof.
  intros Hws0 Hws1 Hlines Hne p. subst p.
  rewrite parseFrontmatter_document by assumption. cbn [frontmatter content].
  split; [reflexivity|]. split; [|split; [reflexivity|apply skip_blank_lines_spec]].
  intros k Hk. rewrite own_lines_binding by exact Hk.
  destruct (binding lines k); reflexivity.
Qed.

(** On a block of two lines, with a space behind the closing dashes and a
    blank line in front of the body. *)
Lemma parseFrontmatter_block_witness :
  let p := parseFrontmatter
             (document [] [lit "title: X"; lit "tags: [a, b]"] [32] (LF :: lit "body")) in
  frontmatter p = foldl parse_line empty_object [lit "title: X"; lit "tags: [a, b]"]
  ∧ (∀ k, k ≠ PROTO ->
       own (frontmatter p) !! k = binding [lit "title: X"; lit "tags: [a, b]"] k)
  ∧ content p = skip_blank_lines (LF :: lit "body")
  ∧ ∃ blank, LF :: lit "body" = blank ++ content p
      ∧ Forall (fun c => is_space c = true) blank
      ∧ (blank = [] ∨ last blank = Some LF)
      ∧ blank_to_eol (content p) = false.
Proof.
  apply (parseFrontmatter_block [] [lit "title: X"; lit "tags: [a, b]"] [32]
           (LF :: lit "body")).
  - constructor.
  - repeat constructor.
  - repeat constructor; vm_compute; intros H;
      repeat (apply elem_of_cons in H as [H|H]; [discriminate|]);
      apply elem_of_nil in H; exact H.
  - discriminate.
Defined.

(** The claim as stated fails on two inputs: with no line between the two
    delimiter lines the parser returns the whole document as body, and a
    blank line behind the closing delimiter line is not part of the body. *)
Lemma parseFrontmatter_block_counterexample :
  content (parseFrontmatter (document [] [] [] (lit "body"))) ≠ lit "body"
  ∧ content (parseFrontmatter (document [] [lit "title: X"] [] (LF :: lit "body")))
    ≠ LF :: lit "body".
Proof. split; vm_compute; discriminate. Qed.

(** With no line between the delimiter lines the pattern does not match:
    the document comes back whole, with an empty mapping. *)
Lemma parseFrontmatter_empty_block :
  parseFrontmatter (document [] [] [] (lit "body")) =
  Parsed empty_object (lit "---" ++ [LF] ++ lit "---" ++ [LF] ++ lit "body").
Proof. vm_compute. reflexivity. Qed.

(** C2. For every document text that does not begin with a delimiter line,
    [parseFrontmatter] returns an empty mapping and the whole input,
    unchanged, as body. *)
Theorem parseFrontmatter_without_delimiter (md : jsstr) :
  begins_with_delimiter_line md = false ->
  parseFrontmatter md = Parsed empty_object md.
Proof.
  intros Hb. rewrite parseFrontmatter_split, frontmatter_split_None by exact Hb.
  reflexivity.
Qed.

(** On a document whose dashes are not on its first line. *)
Lemma parseFrontmatter_without_delimiter_witness :
  parseFrontmatter (lit "# Title" ++ [LF] ++ lit "--- text") =
  Parsed empty_object (lit "# Title" ++ [LF] ++ lit "--- text").
Proof. apply parseFrontmatter_without_delimiter. reflexivity. Defined.

(** C4. For every well-formed frontmatter block (delimiter lines around
    [key: value] lines with distinct keys) that contains a line whose value
    is enclosed in brackets, [parseFrontmatter] returns the key of the line
    bound to the sequence of the comma-separated pieces of the bracket
    contents, each trimmed and without its surrounding quotes; for
    [tags: [a, b, c]] this is the sequence of a, b and c. *)
Theorem parseFrontmatter_bracket_list (ws0 : jsstr) (lines : list jsstr)
    (ws1 rest l inner : jsstr) :
  Forall (fun c => is_space c = true) ws0 ->
  Forall (fun c => is_space c = true) ws1 ->
  Forall kv_line lines -> distinct_keys lines ->
  l ∈ lines ->
  line_value_text l = LBRACKET :: inner ++ [RBRACKET] ->
  let fm := frontmatter (parseFrontmatter (document ws0 lines ws1 rest)) in
  obj_get fm (line_key l) =
    Some (VArr (map (fun e => unquote (trim e)) (split COMMA inner)))
  ∧ (l = lit "tags: [a, b, c]" ->
     obj_get fm (lit "tags") = Some (VArr [lit "a"; lit "b"; lit "c"])).
Proof.
  intros Hws0 Hws1 Hlines Hkeys Hin Hval fm. subst fm.
  assert (lines ≠ []) as Hne by (intros ->; apply elem_of_nil in Hin; exact Hin).
  rewrite parseFrontmatter_document by assumption. cbn [frontmatter].
  assert (kv_line l) as Hl by (rewrite Forall_forall in Hlines; auto).
  split.
  - apply obj_get_lines_array; auto using proto_free_empty.
  - intros ->.
    apply (obj_get_lines_array lines empty_object (lit "tags: [a, b, c]") (lit "a, b, c"));
      auto using proto_free_empty.
Qed.

(** On a block with a title and the tags a, b and c. *)
Lemma parseFrontmatter_bracket_list_witness :
  let fm := frontmatter (parseFrontmatter
              (document [] [lit "title: X"; lit "tags: [a, b, c]"] [] (lit "body"))) in
  obj_get fm (line_key (lit "tags: [a, b, c]")) =
    Some (VArr (map (fun e => unquote (trim e)) (split COMMA (lit "a, b, c"))))
  ∧ (lit "tags: [a, b, c]" = lit "tags: [a, b, c]" ->
     obj_get fm (lit "tags") = Some (VArr [lit "a"; lit "b"; lit "c"])).
Proof.
  apply (parseFrontmatter_bracket_list [] [lit "title: X"; lit "tags: [a, b, c]"] []
           (lit "body") (lit "tags: [a, b, c]") (lit "a, b, c")).
  - constructor.
  - constructor.
  - repeat constructor; vm_compute; intros H;
      repeat (apply elem_of_cons in H as [H|H]; [discriminate|]);
      apply elem_of_nil in H; exact H.
  - unfold distinct_keys. vm_compute. repeat constructor; intros H;
      repeat (apply elem_of_cons in H as [H|H]; [discriminate|]);
      apply elem_of_nil in H; exact H.
  - apply list_elem_of_further, list_elem_of_here.
  - reflexivity.
Defined.

(** C9 (amended). For every input document, the body returned by
    [parseFrontmatter] is an unmodified contiguous suffix of the input
    text: the whole input when no frontmatter block is recognized, and
    otherwise the text behind the closing delimiter line and behind the
    whitespace-only lines that directly follow it. *)
Theorem parseFrontmatter_body_suffix (md : jsstr) :
  let p := parseFrontmatter md in
  (∃ prefix, md = prefix ++ content p)
  ∧ ((frontmatter p = empty_object ∧ content p = md)
     ∨ (∃ head ws1,
          md = head ++ [LF] ++ lit "---" ++ ws1 ++ [LF] ++ content p
          ∧ Forall (fun c => is_space c = true) ws1
          ∧ blank_to_eol (content p) = false)).
Proof.
  cbv zeta. rewrite parseFrontmatter_split.
  destruct (frontmatter_split md) as [[g1 g2]|] eqn:Hsplit; cbn [frontmatter content].
  - apply frontmatter_split_Some in Hsplit as (ws0 & ws1 & -> & _ & Hws1 & Hb).
    split.
    + exists (lit "---" ++ ws0 ++ [LF] ++ g1 ++ [LF] ++ lit "---" ++ ws1 ++ [LF]).
      rewrite <- !app_assoc. reflexivity.
    + right. exists (lit "---" ++ ws0 ++ [LF] ++ g1), ws1.
      rewrite <- !app_assoc. auto.
  - split; [exists []; reflexivity|left; auto].
Qed.

(** The claim as stated fails where a blank line follows the closing
    delimiter line: the text behind that line starts with a newline, the
    body returned does not. *)
Lemma parseFrontmatter_body_suffix_counterexample :
  let rest := LF :: lit "body" in
  let md := lit "---" ++ [LF] ++ lit "title: X" ++ [LF] ++ lit "---" ++ [LF] ++ rest in
  content (parseFrontmatter md) = lit "body" ∧ content (parseFrontmatter md) ≠ rest.
Proof. split; vm_compute; [reflexivity|discriminate]. Qed.

(** C10. For every frontmatter line whose value is exactly the empty
    brackets, [parseFrontmatter] binds the key to the one-element sequence
    of the empty string; bracket-list parsing never produces an empty
    sequence. *)
Theorem parseFrontmatter_empty_brackets (ws0 : jsstr) (lines : list jsstr)
    (ws1 rest l : jsstr) :
  Forall (fun c => is_space c = true) ws0 ->
  Forall (fun c => is_space c = true) ws1 ->
  Forall kv_line lines -> distinct_keys lines ->
  l ∈ lines ->
  line_value_text l = lit "[]" ->
  obj_get (frontmatter (parseFrontmatter (document ws0 lines ws1 rest))) (line_key l)
    = Some (VArr [[]])
  ∧ (∀ text a, parse_value text = VArr a -> a ≠ []).
Proof.
  intros Hws0 Hws1 Hlines Hkeys Hin Hval.
  split; [|apply parse_value_array_not_nil].
  assert (lines ≠ []) as Hne by (intros ->; apply elem_of_nil in Hin; exact Hin).
  rewrite parseFrontmatter_document by assumption. cbn [frontmatter].
  assert (kv_line l) as Hl by (rewrite Forall_forall in Hlines; auto).
  apply (obj_get_lines_array lines empty_object l []); auto using proto_free_empty.
Qed.

(** On a block whose first line has the empty brackets. *)
Lemma parseFrontmatter_empty_brackets_witness :
  obj_get (frontmatter (parseFrontmatter
             (document [] [lit "tags: []"; lit "title: X"] [] (lit "body"))))
    (line_key (lit "tags: []"))
    = Some (VArr [[]])
  ∧ (∀ text a, parse_value text = VArr a -> a ≠ []).
Proof.
  apply (parseFrontmatter_empty_brackets [] [lit "tags: []"; lit "title: X"] []
           (lit "body") (lit "tags: []")).
  - constructor.
  - constructor.
  - repeat constructor; vm_compute; intros H;
      repeat (apply elem_of_cons in H as [H|H]; [discriminate|]);
      apply elem_of_nil in H; exact H.
  - unfold distinct_keys. vm_compute. repeat constructor; intros H;
      repeat (apply elem_of_cons in H as [H|H]; [discriminate|]);
      apply elem_of_nil in H; exact H.
  - apply list_elem_of_here.
  - reflexivity.
Defined.

(** ** The metadata merge *)

(** Copying the properties one by one gives the union in which the source
    wins. *)
Lemma copyDataProperties_union (target source : gmap jsstr value) :
  copyDataProperties target source = source ∪ target.
Proof.
  unfold copyDataProperties.
  apply (map_fold_weak_ind (fun r m => r = m ∪ target)).
  - rewrite (left_id_L ∅ (∪)). reflexivity.
  - intros k v m r _ ->. apply insert_union_l.
Qed.

Lemma merge_union (base overlay : gmap jsstr value) :
  merge base overlay = overlay ∪ base.
Proof.
  unfold merge. rewrite !copyDataProperties_union, (right_id_L ∅ (∪)).
  reflexivity.
Qed.

Lemma merge_lookup (base overlay : gmap jsstr value) (k : jsstr) :
  merge base overlay !! k =
  match overlay !! k with
  | Some v => Some v
  | None => base !! k
  end.
Proof.
  rewrite merge_union, lookup_union.
  destruct (overlay !! k), (base !! k); reflexivity.
Qed.

(** C3. For every pair of mappings (base, overlay), the merge produces a
    new mapping that contains all base keys, gives every key of the overlay
    the overlay's value, and keeps the base's value for the base keys the
    overlay does not have; no other object changes, and every pair of
    objects has a merge. Merging the base with title X and date 2020-01-01
    with the overlay with title Y yields title Y and date 2020-01-01. *)
Theorem merge_overlays_base (σ : gmap nat (gmap jsstr value)) (b o : nat)
    (base overlay : gmap jsstr value) :
  σ !! b = Some base -> σ !! o = Some overlay ->
  let σ' := (spread_merge σ b o).1 in
  let l := (spread_merge σ b o).2 in
  σ !! l = None
  ∧ (∀ l', l' ≠ l -> σ' !! l' = σ !! l')
  ∧ σ' !! l = Some (merge base overlay)
  ∧ (∀ k v, overlay !! k = Some v -> merge base overlay !! k = Some v)
  ∧ (∀ k, overlay !! k = None -> merge base overlay !! k = base !! k)
  ∧ (∀ k, is_Some (base !! k) -> is_Some (merge base overlay !! k))
  ∧ merge {[ lit "title" := VStr (lit "X"); lit "date" := VStr (lit "2020-01-01") ]}
          {[ lit "title" := VStr (lit "Y") ]}
    = {[ lit "title" := VStr (lit "Y"); lit "date" := VStr (lit "2020-01-01") ]}.
Proof.
  intros Hb Ho. unfold spread_merge. cbn [fst snd]. rewrite Hb, Ho. cbn [default].
  split; [apply not_elem_of_dom, is_fresh|].
  split; [intros l' Hl'; apply lookup_insert_ne; congruence|].
  split; [apply lookup_insert_eq|].
  split; [intros k v Hk; rewrite merge_lookup, Hk; reflexivity|].
  split; [intros k Hk; rewrite merge_lookup, Hk; reflexivity|].
  split.
  - intros k [v Hk]. rewrite merge_lookup, Hk. destruct (overlay !! k); eauto.
  - vm_compute. reflexivity.
Qed.

(** On a store that holds the base and the overlay of the example. *)
Lemma merge_overlays_base_witness :
  let base : gmap jsstr value :=
    {[ lit "title" := VStr (lit "X"); lit "date" := VStr (lit "2020-01-01") ]} in
  let overlay : gmap jsstr value := {[ lit "title" := VStr (lit "Y") ]} in
  let σ : gmap nat (gmap jsstr value) := {[ 0%nat := base; 1%nat := overlay ]} in
  let σ' := (spread_merge σ 0 1).1 in
  let l := (spread_merge σ 0 1).2 in
  σ !! l = None
  ∧ (∀ l', l' ≠ l -> σ' !! l' = σ !! l')
  ∧ σ' !! l = Some (merge base overlay)
  ∧ (∀ k v, overlay !! k = Some v -> merge base overlay !! k = Some v)
  ∧ (∀ k, overlay !! k = None -> merge base overlay !! k = base !! k)
  ∧ (∀ k, is_Some (base !! k) -> is_Some (merge base overlay !! k))
  ∧ merge {[ lit "title" := VStr (lit "X"); lit "date" := VStr (lit "2020-01-01") ]}
          {[ lit "title" := VStr (lit "Y") ]}
    = {[ lit "title" := VStr (lit "Y"); lit "date" := VStr (lit "2020-01-01") ]}.
Proof.
  intros base overlay σ.
  apply (merge_overlays_base σ 0 1 base overlay); reflexivity.
Defined.

(** ** Running the page *)

Lemma bind_run {A B : Type} (m : M A) (f : A -> M B) (w : world) :
  (m ≫= f) w =
  match m w with
  | (t1, Return a) => ((t1 ++ (f a w).1), (f a w).2)
  | (t1, Throw e) => (t1, Throw e)
  end.
Proof.
  unfold mbind, M_bind. destruct (m w) as [t1 [a|e]]; [|reflexivity].
  destruct (f a w); reflexivity.
Qed.

Lemma try_catch_run {A : Type} (body : M A) (handler : exn -> M A) (w : world) :
  try_catch body handler w =
  match body w with
  | (t1, Return a) => (t1, Return a)
  | (t1, Throw e) => (t1 ++ (handler e w).1, (handler e w).2)
  end.
Proof.
  unfold try_catch. destruct (body w) as [t1 [a|e]]; [reflexivity|].
  destruct (handler e w); reflexivity.
Qed.

Lemma ask_bind {B : Type} (f : world -> M B) (w : world) :
  (ask ≫= f) w = f w w.
Proof. unfold mbind, M_bind, ask. destruct (f w w); reflexivity. Qed.

Lemma emit_bind {B : Type} (e : event) (f : unit -> M B) (w : world) :
  (emit e ≫= f) w = (e :: (f tt w).1, (f tt w).2).
Proof. unfold mbind, M_bind, emit. destruct (f tt w); reflexivity. Qed.

Lemma fetch_run (url : jsstr) (w : world) :
  fetch url w =
  match network w url with
  | Some r => ([EFetch url], Return r)
  | None => ([EFetch url], Throw FetchError)
  end.
Proof.
  unfold fetch. rewrite emit_bind, ask_bind.
  destruct (network w url); reflexivity.
Qed.

(** [showError] enters the error state with its message, writes the message
    to at most one region of the page, and returns. *)
Lemma showError_run (message : jsstr) (w : world) :
  ∃ writes,
    showError message w = (EShowError message :: writes, Return tt)
    ∧ ∀ e, e ∈ writes -> ∃ id, e = EInnerHTML id (HErrorContainer message).
Proof.
  unfold showError. rewrite emit_bind, ask_bind.
  destruct (decide (lit "post-content" ∈ elements w)) as [?|?]; cbn [fst snd emit].
  - eexists. split; [reflexivity|]. intros ev Hev.
    apply list_elem_of_singleton in Hev as ->. eauto.
  - destruct (decide (lit "blog-list" ∈ elements w)) as [?|?]; cbn [fst snd emit].
    + eexists. split; [reflexivity|]. intros ev Hev.
      apply list_elem_of_singleton in Hev as ->. eauto.
    + exists []. split; [reflexivity|]. intros ev Hev.
      apply elem_of_nil in Hev. contradiction.
Qed.

(** ** The post renderer *)

Lemma bind_Return {A B : Type} (m : M A) (f : A -> M B) (w : world)
    (t : list event) (a : A) :
  m w = (t, Return a) -> (m ≫= f) w = (t ++ (f a w).1, (f a w).2).
Proof. intros Hm. rewrite bind_run, Hm. reflexivity. Qed.

Lemma bind_Throw {A B : Type} (m : M A) (f : A -> M B) (w : world)
    (t : list event) (e : exn) :
  m w = (t, Throw e) -> (m ≫= f) w = (t, Throw e).
Proof. intros Hm. rewrite bind_run, Hm. reflexivity. Qed.

Lemma find_absent {A : Type} (f : A -> bool) (l : list A) :
  (∀ x, x ∈ l -> f x = false) -> find f l = None.
Proof.
  induction l as [|x l IH]; intros Hf; [reflexivity|]. cbn [find].
  rewrite (Hf x) by apply list_elem_of_here.
  apply IH. intros y Hy. apply Hf, list_elem_of_further, Hy.
Qed.

(** After an exception the handler logs it and enters the error state
    "load failed". *)
Lemma loadBlogPost_caught (w : world) (t : list event) (e : exn) :
  load_post w = (t, Throw e) ->
  loadBlogPost w =
  (t ++ EConsoleError (lit "Error loading blog post:") e
     :: (showError load_failed w).1, Return tt).
Proof.
  intros Hbody. unfold loadBlogPost, post_failed.
  rewrite try_catch_run, Hbody, emit_bind.
  destruct (showError_run load_failed w) as (writes & -> & _). reflexivity.
Qed.

Lemma load_post_with_slug (w : world) (c : N) (slug : jsstr) :
  query_slug w = Some (c :: slug) ->
  load_post w =
  (fetch catalog_url ≫= fun metadataResponse =>
   json metadataResponse ≫= fun posts =>
   match find (fun p => bool_decide (p !! lit "slug" = Some (VStr (c :: slug)))) posts with
   | None => showError not_found
   | Some postMeta => load_document (c :: slug) postMeta
   end) w.
Proof. intros Hslug. unfold load_post. rewrite ask_bind, Hslug. reflexivity. Qed.

Lemma loadBlogPost_catalog_rejected (w : world) (slug : jsstr) :
  query_slug w = Some slug -> slug ≠ [] ->
  network w catalog_url = None ->
  loadBlogPost w =
  ([EFetch catalog_url; EConsoleError (lit "Error loading blog post:") FetchError]
     ++ (showError load_failed w).1, Return tt).
Proof.
  intros Hslug Hne Hnet. destruct slug as [|c slug]; [contradiction|].
  rewrite (loadBlogPost_caught w [EFetch catalog_url] FetchError); [reflexivity|].
  rewrite (load_post_with_slug w c slug Hslug).
  apply bind_Throw. rewrite fetch_run, Hnet. reflexivity.
Qed.

Lemma loadBlogPost_catalog_not_json (w : world) (slug : jsstr) (r : response) :
  query_slug w = Some slug -> slug ≠ [] ->
  network w catalog_url = Some r -> body_json r = None ->
  loadBlogPost w =
  ([EFetch catalog_url; EConsoleError (lit "Error loading blog post:") SyntaxError]
     ++ (showError load_failed w).1, Return tt).
Proof.
  intros Hslug Hne Hnet Hjson. destruct slug as [|c slug]; [contradiction|].
  rewrite (loadBlogPost_caught w [EFetch catalog_url] SyntaxError); [reflexivity|].
  rewrite (load_post_with_slug w c slug Hslug).
  rewrite (bind_Return _ _ w [EFetch catalog_url] r)
    by (rewrite fetch_run, Hnet; reflexivity).
  cbn beta. rewrite (bind_Throw _ _ w [] SyntaxError)
    by (unfold json; rewrite Hjson; reflexivity).
  reflexivity.
Qed.

(** A slug that is missing, empty or in no entry of the catalog: the error
    state "not found", and no fetch but that of the catalog. *)
Lemma loadBlogPost_not_found (w : world) (r : response)
    (posts : list (gmap jsstr value)) :
  network w catalog_url = Some r -> body_json r = Some posts ->
  (∀ slug p, query_slug w = Some slug -> p ∈ posts ->
             p !! lit "slug" ≠ Some (VStr slug)) ->
  loadBlogPost w =
  (match query_slug w with
   | None | Some [] => []
   | Some (_ :: _) => [EFetch catalog_url]
   end ++ (showError not_found w).1, Return tt).
Proof.
  intros Hnet Hjson Habsent.
  destruct (showError_run not_found w) as (writes & Hshow & _).
  unfold loadBlogPost. rewrite try_catch_run.
  destruct (query_slug w) as [[|c slug]|] eqn:Hslug.
  - unfold load_post. rewrite ask_bind, Hslug, Hshow. reflexivity.
  - rewrite (load_post_with_slug w c slug Hslug).
    rewrite (bind_Return _ _ w [EFetch catalog_url] r)
      by (rewrite fetch_run, Hnet; reflexivity).
    cbn beta. rewrite (bind_Return _ _ w [] posts)
      by (unfold json; rewrite Hjson; reflexivity).
    cbn beta. rewrite find_absent.
    + rewrite Hshow. reflexivity.
    + intros p Hp. apply bool_decide_eq_false_2, (Habsent _ p eq_refl Hp).
  - unfold load_post. rewrite ask_bind, Hslug, Hshow. reflexivity.
Qed.

Lemma EFetch_inj (a b : jsstr) : EFetch a = EFetch b -> a = b.
Proof. intros H. injection H as H. exact H. Qed.

Lemma document_url_not_catalog (slug : jsstr) : document_url slug ≠ catalog_url.
Proof. unfold document_url, catalog_url. cbv. discriminate. Qed.

(** C5. For every catalog and every slug that is the slug of no catalog
    entry, post rendering reaches the error state with the "not found"
    message, with no other message, and never performs the document
    fetch: the catalog is the only resource it fetches. *)
Theorem absent_slug_not_found (w : world) (r : response)
    (posts : list (gmap jsstr value)) :
  network w catalog_url = Some r -> body_json r = Some posts ->
  (∀ slug p, query_slug w = Some slug -> p ∈ posts ->
             p !! lit "slug" ≠ Some (VStr slug)) ->
  result loadBlogPost w = Return tt
  ∧ EShowError not_found ∈ trace loadBlogPost w
  ∧ (∀ message, EShowError message ∈ trace loadBlogPost w -> message = not_found)
  ∧ (∀ url, EFetch url ∈ trace loadBlogPost w -> url = catalog_url)
  ∧ (∀ slug, EFetch (document_url slug) ∉ trace loadBlogPost w).
Proof.
  intros Hnet Hjson Habsent. unfold result, trace.
  rewrite (loadBlogPost_not_found w r posts Hnet Hjson Habsent). cbn [fst snd].
  destruct (showError_run not_found w) as (writes & -> & Hwrites). cbn [fst].
  set (pre := match query_slug w with
              | Some (_ :: _) => [EFetch catalog_url]
              | _ => []
              end).
  assert (∀ e, e ∈ pre -> e = EFetch catalog_url) as Hpre.
  { intros e. subst pre. destruct (query_slug w) as [[|? ?]|];
      rewrite ?list_elem_of_singleton; [|auto|]; intros He;
      apply elem_of_nil in He; contradiction. }
  assert (∀ e, e ∈ pre ++ EShowError not_found :: writes ->
               e = EFetch catalog_url ∨ e = EShowError not_found
               ∨ ∃ id, e = EInnerHTML id (HErrorContainer not_found)) as Hall.
  { intros e. rewrite elem_of_app, elem_of_cons. intros [He|[He|He]]; auto. }
  split; [reflexivity|].
  split; [rewrite elem_of_app, elem_of_cons; auto|].
  split; [|split].
  - intros message Hm. apply Hall in Hm as [Hm|[Hm|[id Hm]]]; congruence.
  - intros url Hu. apply Hall in Hu as [Hu|[Hu|[id Hu]]]; congruence.
  - intros slug Hs. apply Hall in Hs as [Hs|[Hs|[id Hs]]]; [|discriminate..].
    apply (document_url_not_catalog slug), EFetch_inj, Hs.
Qed.

(** On a catalog with the post [hello], opened for the post [missing]. *)
Lemma absent_slug_not_found_witness :
  let w := World (Some (lit "missing"))
             (fun _ => Some (Response true
                (Some [ {[ lit "slug" := VStr (lit "hello") ]} ]) None))
             {[ lit "post-content" ]}
             (fun _ => None) (fun _ => []) (fun _ => false)
             (fun _ _ => inr (LibraryError 0)) (fun code => inl code) (fun _ => []) in
  result loadBlogPost w = Return tt
  ∧ EShowError not_found ∈ trace loadBlogPost w
  ∧ (∀ message, EShowError message ∈ trace loadBlogPost w -> message = not_found)
  ∧ (∀ url, EFetch url ∈ trace loadBlogPost w -> url = catalog_url)
  ∧ (∀ slug, EFetch (document_url slug) ∉ trace loadBlogPost w).
Proof.
  intros w.
  apply (absent_slug_not_found w
           (Response true (Some [ {[ lit "slug" := VStr (lit "hello") ]} ]) None)
           [ {[ lit "slug" := VStr (lit "hello") ]} ]).
  - reflexivity.
  - reflexivity.
  - intros slug p [= <-] Hp. apply list_elem_of_singleton in Hp as ->.
    vm_compute. discriminate.
Defined.


(** A failed document fetch (the request is rejected, or the response is
    not a success) is an exception of [load_document]. *)
Lemma load_document_failed (w : world) (slug : jsstr)
    (postMeta : gmap jsstr value) :
  (network w (document_url slug) = None
   ∨ (∃ d, (network w (document_url slug) = Some d) ∧ (ok d = false))) ->
  ∃ e, load_document slug postMeta w = ([EFetch (document_url slug)], Throw e).
Proof.
  unfold load_document. intros [Hnet|(d & Hnet & Hok)].
  - exists FetchError. apply bind_Throw. rewrite fetch_run, Hnet. reflexivity.
  - exists (Error (lit "Markdown file not found")).
    rewrite (bind_Return _ _ w [EFetch (document_url slug)] d)
      by (rewrite fetch_run, Hnet; reflexivity).
    cbn beta. rewrite Hok.
    rewrite (bind_Throw _ _ w [] (Error (lit "Markdown file not found")))
      by reflexivity.
    reflexivity.
Qed.

Lemma loadBlogPost_document_failed (w : world) (slug : jsstr) (r : response)
    (posts : list (gmap jsstr value)) (postMeta : gmap jsstr value) :
  query_slug w = Some slug -> slug ≠ [] ->
  network w catalog_url = Some r -> body_json r = Some posts ->
  find (fun p => bool_decide (p !! lit "slug" = Some (VStr slug))) posts
    = Some postMeta ->
  (network w (document_url slug) = None
   ∨ (∃ d, (network w (document_url slug) = Some d) ∧ (ok d = false))) ->
  ∃ e, loadBlogPost w =
    ([EFetch catalog_url; EFetch (document_url slug);
      EConsoleError (lit "Error loading blog post:") e]
       ++ (showError load_failed w).1, Return tt).
Proof.
  intros Hslug Hne Hnet Hjson Hfind Hfail.
  destruct slug as [|c slug]; [contradiction|].
  destruct (load_document_failed w (c :: slug) postMeta Hfail) as [e He].
  exists e.
  rewrite (loadBlogPost_caught w [EFetch catalog_url; EFetch (document_url (c :: slug))] e);
    [reflexivity|].
  rewrite (load_post_with_slug w c slug Hslug).
  rewrite (bind_Return _ _ w [EFetch catalog_url] r)
    by (rewrite fetch_run, Hnet; reflexivity).
  cbn beta. rewrite (bind_Return _ _ w [] posts)
    by (unfold json; rewrite Hjson; reflexivity).
  cbn beta. rewrite Hfind, He. reflexivity.
Qed.

(** C6 (amended). Whenever the catalog fetch fails during post rendering
    (the request is rejected, or the body is not JSON), the post renderer
    enters the error state with the "load failed" message and fetches no
    document; it does not show "not found". This is the message of a failed
    document fetch as well (the request is rejected, or the response is not
    a success). *)
Theorem catalog_failure_load_failed (w : world) (slug : jsstr) :
  query_slug w = Some slug -> slug ≠ [] ->
  (network w catalog_url = None
   ∨ (∃ r, (network w catalog_url = Some r) ∧ (body_json r = None))) ->
  (result loadBlogPost w = Return tt
   ∧ EShowError load_failed ∈ trace loadBlogPost w
   ∧ (EShowError not_found ∉ trace loadBlogPost w)
   ∧ (∀ url, EFetch url ∈ trace loadBlogPost w -> url = catalog_url))
  ∧ (∀ w' r posts postMeta,
       query_slug w' = Some slug ->
       network w' catalog_url = Some r -> body_json r = Some posts ->
       find (fun p => bool_decide (p !! lit "slug" = Some (VStr slug))) posts
         = Some postMeta ->
       (network w' (document_url slug) = None
        ∨ (∃ d, (network w' (document_url slug) = Some d) ∧ (ok d = false))) ->
       result loadBlogPost w' = Return tt
       ∧ EShowError load_failed ∈ trace loadBlogPost w'
       ∧ (EShowError not_found ∉ trace loadBlogPost w')).
Proof.
  intros Hslug Hne Hfail. unfold result, trace. split.
  - assert (∃ e, loadBlogPost w =
      ([EFetch catalog_url; EConsoleError (lit "Error loading blog post:") e]
         ++ (showError load_failed w).1, Return tt)) as [e ->].
    { destruct Hfail as [Hnet|(r & Hnet & Hjson)].
      - exists FetchError. apply (loadBlogPost_catalog_rejected w slug); assumption.
      - exists SyntaxError. apply (loadBlogPost_catalog_not_json w slug r); assumption. }
    destruct (showError_run load_failed w) as (writes & -> & Hwrites).
    cbn [fst snd app].
    split; [reflexivity|].
    split; [rewrite !elem_of_cons; auto|].
    split.
    + rewrite !elem_of_cons. intros [H|[H|[H|H]]]; try discriminate.
      apply Hwrites in H as [id H]. discriminate.
    + intros url. rewrite !elem_of_cons. intros [H|[H|[H|H]]]; try discriminate.
      * apply EFetch_inj, H.
      * apply Hwrites in H as [id H]. discriminate.
  - intros w' r posts postMeta Hslug' Hnet Hjson Hfind Hdoc.
    destruct (loadBlogPost_document_failed w' slug r posts postMeta
                Hslug' Hne Hnet Hjson Hfind Hdoc) as [e ->].
    destruct (showError_run load_failed w') as (writes & -> & Hwrites).
    cbn [fst snd app].
    split; [reflexivity|].
    split; [rewrite !elem_of_cons; auto|].
    rewrite !elem_of_cons. intros [H|[H|[H|[H|H]]]]; try discriminate.
    apply Hwrites in H as [id H]. discriminate.
Qed.

(** On the page whose network is down. *)
Lemma catalog_failure_load_failed_witness :
  result loadBlogPost offline_world = Return tt
  ∧ EShowError load_failed ∈ trace loadBlogPost offline_world
  ∧ (EShowError not_found ∉ trace loadBlogPost offline_world)
  ∧ (∀ url, EFetch url ∈ trace loadBlogPost offline_world -> url = catalog_url).
Proof.
  apply (catalog_failure_load_failed offline_world (lit "hello")).
  - reflexivity.
  - discriminate.
  - left. reflexivity.
Defined.

(** The claim as stated fails when the network is down: the catalog fetch
    is rejected, and the message shown is "load failed", not "not found". *)
Lemma catalog_failure_counterexample :
  network offline_world catalog_url = None
  ∧ trace loadBlogPost offline_world =
    [EFetch catalog_url;
     EConsoleError (lit "Error loading blog post:") FetchError;
     EShowError load_failed;
     EInnerHTML (lit "post-content") (HErrorContainer load_failed)]
  ∧ (EShowError not_found ∉ trace loadBlogPost offline_world).
Proof.
  split; [reflexivity|].
  assert (trace loadBlogPost offline_world =
    [EFetch catalog_url;
     EConsoleError (lit "Error loading blog post:") FetchError;
     EShowError load_failed;
     EInnerHTML (lit "post-content") (HErrorContainer load_failed)]) as Htrace
    by (vm_compute; reflexivity).
  split; [exact Htrace|]. rewrite Htrace, !elem_of_cons.
  intros [H|[H|[H|[H|H]]]]; try discriminate.
  apply elem_of_nil in H. exact H.
Qed.

(** ** Sorting *)

Section sort.
Context {A : Type} (cmp : A -> A -> Z) (key : A -> option Z).
Hypothesis cmp_key :
  ∀ a b ta tb, key a = Some ta -> key b = Some tb -> cmp a b = (tb - ta)%Z.

Let desc (a b : A) : Prop :=
  ∃ ta tb, key a = Some ta ∧ key b = Some tb ∧ (tb <= ta)%Z.

Lemma sort_insert_perm (x : A) (l : list A) : sort_insert cmp x l ≡ₚ x :: l.
Proof.
  induction l as [|y l IH]; cbn [sort_insert]; [reflexivity|].
  destruct (0 <? cmp x y)%Z; [|reflexivity].
  rewrite IH. apply Permutation_swap.
Qed.

Lemma Array_sort_perm (l : list A) : Array_sort cmp l ≡ₚ l.
Proof.
  unfold Array_sort. induction l as [|x l IH]; cbn [foldr]; [reflexivity|].
  rewrite sort_insert_perm, IH. reflexivity.
Qed.

Lemma sort_insert_sorted (x : A) (l : list A) :
  is_Some (key x) -> Forall (fun y => is_Some (key y)) l ->
  StronglySorted desc l -> StronglySorted desc (sort_insert cmp x l).
Proof.
  intros [tx Hx] Hl Hs. induction Hs as [|y l Hs IH Hy]; cbn [sort_insert].
  - repeat constructor.
  - apply Forall_cons in Hl as [[ty Hty] Hl].
    rewrite (cmp_key x y tx ty Hx Hty).
    destruct (Z.ltb_spec 0 (ty - tx)) as [Hlt|Hle].
    + apply StronglySorted_cons. split; [|apply IH, Hl].
      rewrite sort_insert_perm. constructor; [|exact Hy].
      exists ty, tx. repeat split; [assumption..|lia].
    + apply StronglySorted_cons. split; [|constructor; assumption].
      constructor; [exists tx, ty; repeat split; [assumption..|lia]|].
      eapply Forall_impl; [exact Hy|].
      intros z (ty' & tz & Hty' & Hz & Hle'). exists tx, tz.
      repeat split; [assumption..|]. rewrite Hty in Hty'. injection Hty' as <-. lia.
Qed.

(** The sorted array is in descending order of the keys. *)
Lemma Array_sort_sorted (l : list A) :
  Forall (fun y => is_Some (key y)) l -> StronglySorted desc (Array_sort cmp l).
Proof.
  unfold Array_sort. induction 1 as [|x l Hx Hl IH]; cbn [foldr]; [constructor|].
  apply sort_insert_sorted; [exact Hx| |exact IH].
  fold (Array_sort cmp l). rewrite Array_sort_perm. exact Hl.
Qed.

Lemma sort_insert_stable (t : Z) (x : A) (l : list A) :
  is_Some (key x) -> Forall (fun y => is_Some (key y)) l ->
  filter (fun y => key y = Some t) (sort_insert cmp x l) =
  filter (fun y => key y = Some t) (x :: l).
Proof.
  intros [tx Hx]. induction 1 as [|y l [ty Hy] Hl IH]; cbn [sort_insert];
    [reflexivity|].
  rewrite (cmp_key x y tx ty Hx Hy).
  destruct (Z.ltb_spec 0 (ty - tx)) as [Hlt|Hle]; [|reflexivity].
  rewrite filter_cons, IH, !filter_cons.
  destruct (decide (key y = Some t)) as [Hyt|Hyt],
           (decide (key x = Some t)) as [Hxt|Hxt]; try reflexivity.
  rewrite Hx in Hxt. rewrite Hy in Hyt. injection Hxt as ->. injection Hyt as ->. lia.
Qed.

(** The sort is stable: posts of one key keep their order. *)
Lemma Array_sort_stable (t : Z) (l : list A) :
  Forall (fun y => is_Some (key y)) l ->
  filter (fun y => key y = Some t) (Array_sort cmp l) =
  filter (fun y => key y = Some t) l.
Proof.
  unfold Array_sort. induction 1 as [|x l Hx Hl IH]; cbn [foldr]; [reflexivity|].
  rewrite sort_insert_stable; [|exact Hx|].
  - rewrite !filter_cons, IH. reflexivity.
  - fold (Array_sort cmp l). rewrite Array_sort_perm. exact Hl.
Qed.

End sort.

Section sort_unique.
Context {A : Type} (key : A -> option Z).

Let desc (a b : A) : Prop :=
  ∃ ta tb, key a = Some ta ∧ key b = Some tb ∧ (tb <= ta)%Z.

(** The head of a descending list has the greatest key of the list. *)
Lemma sorted_head_greatest (x z : A) (l : list A) (tx tz : Z) :
  StronglySorted desc (x :: l) -> key x = Some tx -> key z = Some tz ->
  z ∈ x :: l -> (tz <= tx)%Z.
Proof.
  intros Hs Hx Hz Hin. apply StronglySorted_cons in Hs as [Hhead _].
  apply elem_of_cons in Hin as [->|Hin]; [rewrite Hx in Hz; injection Hz as ->; lia|].
  rewrite Forall_forall in Hhead.
  destruct (Hhead z Hin) as (tx' & tz' & Hx' & Hz' & Hle).
  rewrite Hx in Hx'. rewrite Hz in Hz'. injection Hx' as <-. injection Hz' as <-.
  exact Hle.
Qed.

(** A descending order that keeps the elements of every key in a given
    order is unique. *)
Lemma sorted_stable_unique (l1 l2 : list A) :
  Forall (fun y => is_Some (key y)) l1 -> Forall (fun y => is_Some (key y)) l2 ->
  StronglySorted desc l1 -> StronglySorted desc l2 ->
  (∀ t, filter (fun y => key y = Some t) l1 = filter (fun y => key y = Some t) l2) ->
  l1 = l2.
Proof.
  intros Hv1. revert l2.
  induction Hv1 as [|x l1 [tx Hx] Hv1 IH]; intros l2 Hv2 Hs1 Hs2 Hfilter.
  - destruct Hv2 as [|y l2 [ty Hy] _]; [reflexivity|].
    specialize (Hfilter ty). rewrite filter_cons_True in Hfilter by exact Hy.
    discriminate.
  - destruct Hv2 as [|y l2 [ty Hy] Hv2].
    { specialize (Hfilter tx). rewrite filter_cons_True in Hfilter by exact Hx.
      discriminate. }
    assert (x ∈ y :: l2) as Hx2.
    { eapply (proj1 (list_elem_of_filter (fun z => key z = Some tx) _ x)).
      rewrite <- Hfilter, filter_cons_True by exact Hx. apply list_elem_of_here. }
    assert (y ∈ x :: l1) as Hy1.
    { eapply (proj1 (list_elem_of_filter (fun z => key z = Some ty) _ y)).
      rewrite Hfilter, filter_cons_True by exact Hy. apply list_elem_of_here. }
    pose proof (sorted_head_greatest y x l2 ty tx Hs2 Hy Hx Hx2) as Hle1.
    pose proof (sorted_head_greatest x y l1 tx ty Hs1 Hx Hy Hy1) as Hle2.
    assert (ty = tx) as -> by lia.
    pose proof (Hfilter tx) as Hhead.
    rewrite !filter_cons_True in Hhead by assumption.
    injection Hhead as <- Htail. f_equal.
    apply StronglySorted_cons in Hs1 as [_ Hs1].
    apply StronglySorted_cons in Hs2 as [_ Hs2].
    apply IH; [exact Hv2|exact Hs1|exact Hs2|].
    intros t. destruct (decide (t = tx)) as [->|Hne]; [exact Htail|].
    specialize (Hfilter t).
    rewrite !filter_cons_False in Hfilter by (rewrite Hx; congruence).
    exact Hfilter.
Qed.

End sort_unique.

(** Every stable sort gives the order of [Array_sort]: an arrangement that
    is descending and keeps the elements of every key in their order in
    [l] is the result of [Array_sort]. *)
Lemma Array_sort_unique {A : Type} (cmp : A -> A -> Z) (key : A -> option Z)
    (l l' : list A) :
  (∀ a b ta tb, key a = Some ta -> key b = Some tb -> cmp a b = (tb - ta)%Z) ->
  Forall (fun y => is_Some (key y)) l -> Forall (fun y => is_Some (key y)) l' ->
  StronglySorted
    (fun a b => ∃ ta tb, key a = Some ta ∧ key b = Some tb ∧ (tb <= ta)%Z) l' ->
  (∀ t, filter (fun y => key y = Some t) l' = filter (fun y => key y = Some t) l) ->
  l' = Array_sort cmp l.
Proof.
  intros Hcmp Hl Hl' Hs Hstable.
  apply (sorted_stable_unique key); [exact Hl'| |exact Hs| |].
  - rewrite Array_sort_perm. exact Hl.
  - apply Array_sort_sorted; assumption.
  - intros t. rewrite Hstable. symmetry. apply Array_sort_stable; assumption.
Qed.

(** ** The list renderer *)

Lemma compare_posts_times (w : world) (a b : gmap jsstr value) (ta tb : Z) :
  post_time w a = Some ta -> post_time w b = Some tb ->
  compare_posts w a b = (tb - ta)%Z.
Proof.
  unfold post_time, compare_posts. intros -> ->. reflexivity.
Qed.

Lemma mapM_pure {A B : Type} (f : A -> M B) (g : A -> B) (l : list A) (w : world) :
  (∀ x, x ∈ l -> f x w = ([], Return (g x))) ->
  mapM f l w = ([], Return (map g l)).
Proof.
  induction l as [|x l IH]; intros Hf; [reflexivity|]. cbn [mapM map].
  rewrite (bind_Return _ _ w [] (g x)) by apply Hf, list_elem_of_here.
  cbn beta. rewrite (bind_Return _ _ w [] (map g l)).
  - reflexivity.
  - apply IH. intros y Hy. apply Hf, list_elem_of_further, Hy.
Qed.

Lemma render_card_run (w : world) (post : gmap jsstr value) (tags : list jsstr) :
  post !! lit "tags" = Some (VArr tags) ->
  render_card post w = ([], Return (card_of w post)).
Proof.
  intros Htags. unfold render_card, card_of, post_tags.
  rewrite ask_bind, Htags. reflexivity.
Qed.

(** A catalog with entries, each with an array of tags, on a page with the
    list region: the cards of the sorted posts are rendered, in order. *)
Lemma loadBlogList_cards (w : world) (r : response)
    (posts : list (gmap jsstr value)) :
  network w catalog_url = Some r -> body_json r = Some posts -> posts ≠ [] ->
  (∀ p, p ∈ posts -> ∃ tags, p !! lit "tags" = Some (VArr tags)) ->
  lit "blog-list" ∈ elements w ->
  loadBlogList w =
  ([EFetch catalog_url;
    EInnerHTML (lit "blog-list")
      (HCards (map (card_of w) (Array_sort (compare_posts w) posts)));
    ESetTimeout 100], Return tt).
Proof.
  intros Hnet Hjson Hne Htags Hel. unfold loadBlogList.
  rewrite try_catch_run.
  rewrite (bind_Return _ _ w [EFetch catalog_url] r)
    by (rewrite fetch_run, Hnet; reflexivity).
  cbn beta. rewrite (bind_Return _ _ w [] posts)
    by (unfold json; rewrite Hjson; reflexivity).
  cbn beta. destruct posts as [|p posts]; [contradiction|].
  rewrite ask_bind.
  rewrite (bind_Return _ _ w []
             (map (card_of w) (Array_sort (compare_posts w) (p :: posts)))).
  - cbn beta. unfold set_innerHTML, on_element.
    rewrite (bind_Return _ _ w
               [EInnerHTML (lit "blog-list")
                  (HCards (map (card_of w) (Array_sort (compare_posts w) (p :: posts))))]
               tt).
    + reflexivity.
    + rewrite ask_bind. destruct (decide (lit "blog-list" ∈ elements w));
        [reflexivity|contradiction].
  - apply mapM_pure. intros x Hx.
    rewrite Array_sort_perm in Hx.
    destruct (Htags x Hx) as [tags Hx']. exact (render_card_run w x tags Hx').
Qed.

(** C7. For every non-empty collection of catalog entries (each with a
    date the engine can read and an array of tags), list rendering sorts
    the entries by date descending, entries of one date in their original
    order, and renders one card per entry in that order; for a catalog
    with entries dated 2026-01-01 and 2025-05-05, the entry of 2026 is
    rendered first. *)
Theorem list_sorted_newest_first (w : world) (r : response)
    (posts : list (gmap jsstr value)) :
  network w catalog_url = Some r -> body_json r = Some posts -> posts ≠ [] ->
  (∀ p, p ∈ posts ->
        is_Some (post_time w p) ∧ ∃ tags, p !! lit "tags" = Some (VArr tags)) ->
  lit "blog-list" ∈ elements w ->
  let sorted := Array_sort (compare_posts w) posts in
  loadBlogList w =
    ([EFetch catalog_url;
      EInnerHTML (lit "blog-list") (HCards (map (card_of w) sorted));
      ESetTimeout 100], Return tt)
  ∧ sorted ≡ₚ posts
  ∧ newest_first w sorted
  ∧ (∀ t, filter (fun p => post_time w p = Some t) sorted =
          filter (fun p => post_time w p = Some t) posts)
  ∧ (parses_iso_dates w ->
     ∀ a b, a !! lit "date" = Some (VStr (lit "2026-01-01")) ->
            b !! lit "date" = Some (VStr (lit "2025-05-05")) ->
            posts = [a; b] ∨ posts = [b; a] ->
            sorted = [a; b]).
Proof.
  intros Hnet Hjson Hne Hposts Hel sorted. subst sorted.
  assert (Forall (fun p => is_Some (post_time w p)) posts) as Htimes
    by (apply Forall_forall; intros p Hp; apply Hposts, Hp).
  split; [|split; [|split; [|split]]].
  - apply (loadBlogList_cards w r posts); try assumption.
    intros p Hp. apply Hposts, Hp.
  - apply Array_sort_perm.
  - apply (Array_sort_sorted _ (post_time w)); [apply compare_posts_times|exact Htimes].
  - intros t.
    apply (Array_sort_stable _ (post_time w)); [apply compare_posts_times|exact Htimes].
  - intros Hiso a b Ha Hb Hab.
    assert (post_time w a = Some 1767225600000%Z) as Hta
      by (unfold post_time; rewrite Ha; apply Hiso; reflexivity).
    assert (post_time w b = Some 1746403200000%Z) as Htb
      by (unfold post_time; rewrite Hb; apply Hiso; reflexivity).
    destruct Hab as [-> | ->]; unfold Array_sort; cbn [foldr sort_insert].
    + rewrite (compare_posts_times w a b _ _ Hta Htb). reflexivity.
    + rewrite (compare_posts_times w b a _ _ Htb Hta). reflexivity.
Qed.

(** On the catalog that lists the post of 2025 before that of 2026. *)
Lemma list_sorted_newest_first_witness :
  let w := listing_world in
  let posts := [post_2025; post_2026] in
  let sorted := Array_sort (compare_posts w) posts in
  loadBlogList w =
    ([EFetch catalog_url;
      EInnerHTML (lit "blog-list") (HCards (map (card_of w) sorted));
      ESetTimeout 100], Return tt)
  ∧ sorted ≡ₚ posts
  ∧ newest_first w sorted
  ∧ (∀ t, filter (fun p => post_time w p = Some t) sorted =
          filter (fun p => post_time w p = Some t) posts)
  ∧ (parses_iso_dates w ->
     ∀ a b, a !! lit "date" = Some (VStr (lit "2026-01-01")) ->
            b !! lit "date" = Some (VStr (lit "2025-05-05")) ->
            posts = [a; b] ∨ posts = [b; a] ->
            sorted = [a; b]).
Proof.
  intros w posts.
  apply (list_sorted_newest_first w
           (Response true (Some [post_2025; post_2026]) None) posts).
  - reflexivity.
  - reflexivity.
  - discriminate.
  - intros p Hp. apply elem_of_cons in Hp as [->|Hp];
      [|apply list_elem_of_singleton in Hp as ->].
    + split; [exists 1746403200000%Z|exists [lit "java"]]; reflexivity.
    + split; [exists 1767225600000%Z|exists []]; reflexivity.
  - vm_compute. reflexivity.
Defined.

(** ** The content renderer *)

Lemma highlight_auto (w : world) (code : jsstr) :
  (emit (EHighlightAuto code);;
   match hljs_highlightAuto w code with
   | inl v => mret v
   | inr err => throw err
   end) w
  = ([EHighlightAuto code], library_outcome (hljs_highlightAuto w code)).
Proof.
  rewrite emit_bind. destruct (hljs_highlightAuto w code); reflexivity.
Qed.

(** Without a recognized hint the highlighter goes to automatic
    detection at once. *)
Lemma highlight_unrecognized (w : world) (code : jsstr) (lang : option jsstr) :
  (∀ l, lang = Some l -> l = [] ∨ hljs_getLanguage w l = false) ->
  highlight code lang w =
  ([EHighlightAuto code], library_outcome (hljs_highlightAuto w code)).
Proof.
  intros Hlang. unfold highlight. rewrite ask_bind.
  assert (match lang with
          | Some l =>
              if negb (bool_decide (l = [])) && hljs_getLanguage w l
              then try_catch
                     (emit (EHighlight code l);;
                      match hljs_highlight w code l with
                      | inl v => mret (Some v)
                      | inr err => throw err
                      end)
                     (fun err => emit (EConsoleError (lit "Highlight error:") err);;
                                 mret None)
              else mret None
          | None => mret None
          end w = ([], Return None)) as Hspecific.
  { destruct lang as [l|]; [|reflexivity].
    destruct (Hlang l eq_refl) as [-> | Hl]; [reflexivity|].
    rewrite Hl, andb_false_r. reflexivity. }
  rewrite (bind_Return _ _ w [] None) by exact Hspecific.
  cbn beta iota. rewrite highlight_auto. reflexivity.
Qed.

(** With a recognized hint the highlighter of the language runs; its
    exception is logged, and automatic detection follows. *)
Lemma highlight_recognized (w : world) (code l : jsstr) :
  l ≠ [] -> hljs_getLanguage w l = true ->
  highlight code (Some l) w =
  match hljs_highlight w code l with
  | inl v => ([EHighlight code l], Return v)
  | inr err =>
      ([EHighlight code l; EConsoleError (lit "Highlight error:") err;
        EHighlightAuto code],
       library_outcome (hljs_highlightAuto w code))
  end.
Proof.
  intros Hne Hl. unfold highlight. rewrite ask_bind, Hl.
  rewrite bool_decide_eq_false_2 by exact Hne. cbn [negb andb].
  destruct (hljs_highlight w code l) as [v|err].
  - rewrite (bind_Return _ _ w [EHighlight code l] (Some v)); [reflexivity|].
    rewrite try_catch_run, emit_bind. reflexivity.
  - rewrite (bind_Return _ _ w
               [EHighlight code l; EConsoleError (lit "Highlight error:") err] None).
    + cbn beta iota. rewrite highlight_auto. reflexivity.
    + rewrite try_catch_run, emit_bind. reflexivity.
Qed.

(** C8. For every fenced code block, the highlighter of a language is
    attempted only when a hint is declared and recognized; when the hint
    is absent, empty or unrecognized, or when that highlighter raises an
    error, automatic detection gives the result; the error of the
    highlighter of the language is logged and never reaches the caller. *)
Theorem highlight_falls_back (w : world) (code : jsstr) (lang : option jsstr) :
  (∀ l, EHighlight code l ∈ trace (highlight code lang) w ->
        lang = Some l ∧ l ≠ [] ∧ hljs_getLanguage w l = true)
  ∧ (∀ l v, lang = Some l -> l ≠ [] -> hljs_getLanguage w l = true ->
            hljs_highlight w code l = inl v ->
            highlight code lang w = ([EHighlight code l], Return v))
  ∧ ((∀ l, lang = Some l -> l = [] ∨ hljs_getLanguage w l = false) ->
     highlight code lang w =
     ([EHighlightAuto code], library_outcome (hljs_highlightAuto w code)))
  ∧ (∀ l err, lang = Some l -> l ≠ [] -> hljs_getLanguage w l = true ->
              hljs_highlight w code l = inr err ->
              highlight code lang w =
              ([EHighlight code l; EConsoleError (lit "Highlight error:") err;
                EHighlightAuto code],
               library_outcome (hljs_highlightAuto w code)))
  ∧ (∀ err, result (highlight code lang) w = Throw err ->
            hljs_highlightAuto w code = inr err).
Proof.
  assert ((∀ l, lang = Some l -> l = [] ∨ hljs_getLanguage w l = false)
          ∨ (∃ l, lang = Some l ∧ l ≠ [] ∧ hljs_getLanguage w l = true)) as Hcases.
  { destruct lang as [l|]; [|left; discriminate].
    destruct (decide (l = [])) as [->|Hne]; [left; intros ? [= <-]; auto|].
    destruct (hljs_getLanguage w l) eqn:Hl; [right; eauto|].
    left. intros ? [= <-]. auto. }
  split; [|split; [|split; [|split]]].
  - intros l. unfold trace. destruct Hcases as [Hun|(l' & -> & Hne & Hl)].
    + rewrite (highlight_unrecognized w code lang Hun). cbn [fst].
      rewrite list_elem_of_singleton. discriminate.
    + rewrite (highlight_recognized w code l' Hne Hl).
      assert (EHighlight code l = EHighlight code l' ->
              Some l' = Some l ∧ l ≠ [] ∧ hljs_getLanguage w l = true) as Hsame
        by (intros H; injection H as ->; auto).
      destruct (hljs_highlight w code l'); cbn [fst].
      * rewrite list_elem_of_singleton. exact Hsame.
      * rewrite !elem_of_cons. intros [H|[H|[H|H]]]; [auto|discriminate..|].
        apply elem_of_nil in H. contradiction.
  - intros l v -> Hne Hl Hh. rewrite (highlight_recognized w code l Hne Hl), Hh.
    reflexivity.
  - apply highlight_unrecognized.
  - intros l err -> Hne Hl Hh. rewrite (highlight_recognized w code l Hne Hl), Hh.
    reflexivity.
  - intros err. unfold result. destruct Hcases as [Hun|(l' & -> & Hne & Hl)].
    + rewrite (highlight_unrecognized w code lang Hun). cbn [snd].
      destruct (hljs_highlightAuto w code); cbn; congruence.
    + rewrite (highlight_recognized w code l' Hne Hl).
      destruct (hljs_highlight w code l'); cbn [snd]; [discriminate|].
      destruct (hljs_highlightAuto w code); cbn; congruence.
Qed.

(** On a block of the language [js], whose highlighter fails. *)
Lemma highlight_falls_back_witness :
  highlight (lit "x = 1") (Some (lit "js")) failing_highlighter_world =
  ([EHighlight (lit "x = 1") (lit "js");
    EConsoleError (lit "Highlight error:") (LibraryError 7);
    EHighlightAuto (lit "x = 1")],
   library_outcome (hljs_highlightAuto failing_highlighter_world (lit "x = 1"))).
Proof.
  apply (highlight_falls_back failing_highlighter_world (lit "x = 1")
           (Some (lit "js"))).
  - reflexivity.
  - discriminate.
  - reflexivity.
  - reflexivity.
Defined.

(** ** A post of the repository, end to end *)

(** The frontmatter of the sample post: the title up to the end of the
    line, the empty canonical reference, the four tags without their
    quotes, and the body without the blank line in front of it. *)
Example parseFrontmatter_sample_post :
  let p := parseFrontmatter sample_post in
  obj_get (frontmatter p) (lit "title") =
    Some (VStr (lit "Understanding Thread Safety: A Real-World Example from Hifdh Quest"))
  ∧ obj_get (frontmatter p) (lit "canonical") = Some (VStr [])
  ∧ obj_get (frontmatter p) (lit "tags") =
      Some (VArr [lit "Java"; lit "Thread Safety"; lit "Concurrency"; lit "Backend"])
  ∧ size (own (frontmatter p)) = 5%nat
  ∧ content p = lit "# Understanding Thread Safety" ++ [LF].
Proof. vm_compute. repeat split; reflexivity. Qed.

(** The page of the sample post: both fetches, the title of the
    frontmatter over that of the catalog, the description of the catalog,
    no canonical link, and the body handed to the content renderer. *)
Example loadBlogPost_sample_run :
  loadBlogPost reading_world =
  ([EFetch catalog_url;
    EFetch (document_url (lit "thread-safety"));
    ETextContent (lit "page-title")
      (Some (VStr (lit "Understanding Thread Safety: A Real-World Example from Hifdh Quest - Aftab Muddassir")));
    ESetAttribute (lit "meta-description") (lit "content")
      (Some (VStr (lit "About threads")));
    ETextContent (lit "post-title")
      (Some (VStr (lit "Understanding Thread Safety: A Real-World Example from Hifdh Quest")));
    ETextContent (lit "post-date") (Some (VStr (lit "January 17, 2026")));
    ETextContent (lit "post-read-time") (Some (VStr (lit "7 min read")));
    EInnerHTML (lit "post-tags")
      (HTags [lit "Java"; lit "Thread Safety"; lit "Concurrency"; lit "Backend"]);
    EMarkedSetOptions;
    EInnerHTML (lit "post-content")
      (HMarkdown (lit "# Understanding Thread Safety" ++ [LF]) []);
    EHighlightElements],
   Return tt).
Proof. vm_compute. reflexivity. Qed.

(** * Further properties *)

(** ** The list renderer, case by case *)

Lemma set_innerHTML_run (id : jsstr) (h : html) (w : world) :
  set_innerHTML id h w =
  if decide (id ∈ elements w) then ([EInnerHTML id h], Return tt)
  else ([], Throw TypeError).
Proof.
  unfold set_innerHTML, on_element. rewrite ask_bind.
  destruct (decide (id ∈ elements w)); reflexivity.
Qed.

Lemma render_card_no_tags (w : world) (post : gmap jsstr value) :
  has_tags_array post = false -> render_card post w = ([], Throw TypeError).
Proof.
  unfold has_tags_array, render_card. rewrite ask_bind.
  destruct (post !! lit "tags") as [[s|a]|]; try reflexivity. discriminate.
Qed.

Lemma render_card_tags (w : world) (post : gmap jsstr value) :
  has_tags_array post = true -> render_card post w = ([], Return (card_of w post)).
Proof.
  unfold has_tags_array. intros Htags.
  destruct (post !! lit "tags") as [[s|a]|] eqn:Hp; try discriminate.
  exact (render_card_run w post a Hp).
Qed.

(** [posts.map] of line 22 gives all the cards, or throws at the first post
    without an array of tags. *)
Lemma mapM_render_card (w : world) (posts : list (gmap jsstr value)) :
  mapM render_card posts w =
  ([], if forallb has_tags_array posts then Return (map (card_of w) posts)
       else Throw TypeError).
Proof.
  induction posts as [|p posts IH]; [reflexivity|]. cbn [mapM forallb map].
  destruct (has_tags_array p) eqn:Hp; cbn [andb].
  - rewrite (bind_Return _ _ w [] (card_of w p)) by exact (render_card_tags w p Hp).
    cbn beta. rewrite bind_run, IH.
    destruct (forallb has_tags_array posts); reflexivity.
  - apply bind_Throw, render_card_no_tags, Hp.
Qed.

Lemma forallb_Permutation {A : Type} (f : A -> bool) (l1 l2 : list A) :
  l1 ≡ₚ l2 -> forallb f l1 = forallb f l2.
Proof.
  induction 1 as [|x l1 l2 _ IH|x y l|l1 l2 l3 _ IH1 _ IH2]; cbn [forallb].
  - reflexivity.
  - rewrite IH. reflexivity.
  - destruct (f x), (f y); reflexivity.
  - congruence.
Qed.

(** Every run of the list renderer on a page with the list region, by the
    answer of the network. *)
Lemma loadBlogList_run (w : world) :
  lit "blog-list" ∈ elements w ->
  loadBlogList w =
  match network w catalog_url with
  | None => (list_failed FetchError, Return tt)
  | Some r =>
      match body_json r with
      | None => (list_failed SyntaxError, Return tt)
      | Some [] =>
          ([EFetch catalog_url; EInnerHTML (lit "blog-list") HNoPosts], Return tt)
      | Some posts =>
          if forallb has_tags_array posts then
            ([EFetch catalog_url;
              EInnerHTML (lit "blog-list")
                (HCards (map (card_of w) (Array_sort (compare_posts w) posts)));
              ESetTimeout 100], Return tt)
          else (list_failed TypeError, Return tt)
      end
  end.
Proof.
  intros Hel. unfold loadBlogList, list_failed.
  assert (∀ e, (emit (EConsoleError (lit "Error loading blog posts:") e);;
                set_innerHTML (lit "blog-list") HListFailed) w
               = ([EConsoleError (lit "Error loading blog posts:") e;
                   EInnerHTML (lit "blog-list") HListFailed], Return tt)) as Hhandler.
  { intros e. rewrite emit_bind, set_innerHTML_run.
    destruct (decide (lit "blog-list" ∈ elements w)); [reflexivity|contradiction]. }
  rewrite try_catch_run.
  destruct (network w catalog_url) as [r|] eqn:Hnet.
  - rewrite (bind_Return _ _ w [EFetch catalog_url] r)
      by (rewrite fetch_run, Hnet; reflexivity).
    cbn beta. destruct (body_json r) as [posts|] eqn:Hjson.
    + rewrite (bind_Return _ _ w [] posts)
        by (unfold json; rewrite Hjson; reflexivity).
      cbn beta. destruct posts as [|p posts].
      * rewrite set_innerHTML_run.
        destruct (decide (lit "blog-list" ∈ elements w)); [reflexivity|contradiction].
      * rewrite ask_bind, bind_run, mapM_render_card.
        rewrite (forallb_Permutation _ _ _ (Array_sort_perm (compare_posts w) (p :: posts))).
        destruct (forallb has_tags_array (p :: posts)).
        -- rewrite bind_run, set_innerHTML_run.
           destruct (decide (lit "blog-list" ∈ elements w)); [reflexivity|contradiction].
        -- cbn [fst snd app]. rewrite Hhandler. reflexivity.
    + rewrite (bind_Throw _ _ w [] SyntaxError)
        by (unfold json; rewrite Hjson; reflexivity).
      cbn [fst snd app]. rewrite Hhandler. reflexivity.
  - rewrite (bind_Throw _ _ w [EFetch catalog_url] FetchError)
      by (rewrite fetch_run, Hnet; reflexivity).
    rewrite Hhandler. reflexivity.
Qed.

(** X1. An empty catalog on a page with the list region: the placeholder
    for "no posts" is the only thing written; no card is rendered and no
    animation is scheduled. *)
Theorem loadBlogList_empty_catalog (w : world) (r : response) :
  network w catalog_url = Some r -> body_json r = Some [] ->
  lit "blog-list" ∈ elements w ->
  loadBlogList w =
  ([EFetch catalog_url; EInnerHTML (lit "blog-list") HNoPosts], Return tt).
Proof.
  intros Hnet Hjson Hel. rewrite (loadBlogList_run w Hel), Hnet, Hjson.
  reflexivity.
Qed.

(** On the page of the list, with a catalog that is the empty array. *)
Lemma loadBlogList_empty_catalog_witness :
  let w := World None (fun _ => Some (Response true (Some []) None))
             {[ lit "blog-list" ]} iso_date (fun _ => []) (fun _ => false)
             (fun _ _ => inr (LibraryError 0)) (fun code => inl code) (fun _ => []) in
  loadBlogList w =
  ([EFetch catalog_url; EInnerHTML (lit "blog-list") HNoPosts], Return tt).
Proof.
  intros w. apply (loadBlogList_empty_catalog w (Response true (Some []) None)).
  - reflexivity.
  - reflexivity.
  - vm_compute. reflexivity.
Defined.

(** X2. Whatever fails while the list is loaded (the request is rejected,
    the body is not JSON, or an entry has no array of tags), on a page with
    the list region the error is logged, the failure message replaces the
    list, no card is shown, and the function returns. *)
Theorem loadBlogList_failure_message (w : world) :
  lit "blog-list" ∈ elements w ->
  (network w catalog_url = None
   ∨ (∃ r, (network w catalog_url = Some r) ∧ (body_json r = None))
   ∨ (∃ r posts p, (network w catalog_url = Some r) ∧ (body_json r = Some posts)
                   ∧ p ∈ posts ∧ has_tags_array p = false)) ->
  ∃ e, loadBlogList w = (list_failed e, Return tt).
Proof.
  intros Hel Hfail. rewrite (loadBlogList_run w Hel).
  destruct Hfail as [Hnet|[(r & Hnet & Hjson)|(r & posts & p & Hnet & Hjson & Hp & Htags)]];
    rewrite Hnet; [eauto| |]; rewrite Hjson; [eauto|].
  assert (forallb has_tags_array posts = false) as Hall.
  { destruct (forallb has_tags_array posts) eqn:Hall; [|reflexivity].
    rewrite forallb_forall in Hall.
    rewrite (Hall p) in Htags by (apply list_elem_of_In, Hp). discriminate. }
  destruct posts as [|q posts]; [apply elem_of_nil in Hp; contradiction|].
  rewrite Hall. eauto.
Qed.

(** On the page of the list, with a catalog whose second entry has a
    string for its tags. *)
Lemma loadBlogList_failure_message_witness :
  let bad : gmap jsstr value :=
    {[ lit "slug" := VStr (lit "bad"); lit "tags" := VStr (lit "java") ]} in
  let w := World None (fun _ => Some (Response true (Some [post_2025; bad]) None))
             {[ lit "blog-list" ]} iso_date (fun _ => []) (fun _ => false)
             (fun _ _ => inr (LibraryError 0)) (fun code => inl code) (fun _ => []) in
  ∃ e, loadBlogList w = (list_failed e, Return tt).
Proof.
  intros bad w. apply (loadBlogList_failure_message w).
  - vm_compute. reflexivity.
  - right. right.
    exists (Response true (Some [post_2025; bad]) None), [post_2025; bad], bad.
    split; [reflexivity|]. split; [reflexivity|].
    split; [apply list_elem_of_further, list_elem_of_here|reflexivity].
Defined.

(** Without the list region every path ends in the [TypeError] of an
    assignment to [innerHTML] of [null], the last one inside the handler. *)
Lemma loadBlogList_without_region (w : world) :
  lit "blog-list" ∉ elements w ->
  result loadBlogList w = Throw TypeError
  ∧ List.filter is_innerHTML (trace loadBlogList w) = [].
Proof.
  intros Hel. unfold result, trace, loadBlogList.
  assert (∀ h, set_innerHTML (lit "blog-list") h w = ([], Throw TypeError)) as Hset.
  { intros h. rewrite set_innerHTML_run.
    destruct (decide (lit "blog-list" ∈ elements w)); [contradiction|reflexivity]. }
  assert (∀ e, (emit (EConsoleError (lit "Error loading blog posts:") e);;
                set_innerHTML (lit "blog-list") HListFailed) w
               = ([EConsoleError (lit "Error loading blog posts:") e], Throw TypeError))
    as Hhandler.
  { intros e. rewrite emit_bind, Hset. reflexivity. }
  rewrite try_catch_run.
  destruct (network w catalog_url) as [r|] eqn:Hnet.
  - rewrite (bind_Return _ _ w [EFetch catalog_url] r)
      by (rewrite fetch_run, Hnet; reflexivity).
    cbn beta. destruct (body_json r) as [posts|] eqn:Hjson.
    + rewrite (bind_Return _ _ w [] posts)
        by (unfold json; rewrite Hjson; reflexivity).
      cbn beta. destruct posts as [|p posts].
      * rewrite Hset. cbn [fst snd app]. rewrite Hhandler. split; reflexivity.
      * rewrite ask_bind, bind_run, mapM_render_card.
        destruct (forallb has_tags_array _).
        -- rewrite bind_run, Hset. cbn [fst snd app]. rewrite Hhandler.
           split; reflexivity.
        -- cbn [fst snd app]. rewrite Hhandler. split; reflexivity.
    + rewrite (bind_Throw _ _ w [] SyntaxError)
        by (unfold json; rewrite Hjson; reflexivity).
      cbn [fst snd app]. rewrite Hhandler. split; reflexivity.
  - rewrite (bind_Throw _ _ w [EFetch catalog_url] FetchError)
      by (rewrite fetch_run, Hnet; reflexivity).
    rewrite Hhandler. split; reflexivity.
Qed.

(** X3. The list renderer returns exactly when the page has the list
    region, and then it assigns the region once: the placeholder, the cards
    or the failure message. On a page without the region it writes nothing
    and ends in an uncaught [TypeError]. *)
Theorem loadBlogList_region (w : world) :
  (lit "blog-list" ∈ elements w ->
   result loadBlogList w = Return tt
   ∧ ∃ h, List.filter is_innerHTML (trace loadBlogList w)
            = [EInnerHTML (lit "blog-list") h]
          ∧ (h = HNoPosts ∨ h = HListFailed ∨ ∃ cards, h = HCards cards))
  ∧ (lit "blog-list" ∉ elements w ->
     result loadBlogList w = Throw TypeError
     ∧ List.filter is_innerHTML (trace loadBlogList w) = []).
Proof.
  split; [|apply loadBlogList_without_region].
  intros Hel. unfold result, trace. rewrite (loadBlogList_run w Hel).
  destruct (network w catalog_url) as [r|];
    [|split; [reflexivity|exists HListFailed; auto]].
  destruct (body_json r) as [[|p posts]|];
    [split; [reflexivity|exists HNoPosts; auto]
    | |split; [reflexivity|exists HListFailed; auto]].
  destruct (forallb has_tags_array (p :: posts));
    [|split; [reflexivity|exists HListFailed; auto]].
  split; [reflexivity|]. eexists. split; [reflexivity|]. eauto.
Qed.

(** On the page whose network is down, which has no list region. *)
Lemma loadBlogList_region_witness :
  result loadBlogList offline_world = Throw TypeError
  ∧ List.filter is_innerHTML (trace loadBlogList offline_world) = [].
Proof.
  apply (loadBlogList_region offline_world).
  vm_compute. discriminate.
Defined.

(** ** The events of a computation *)

Section events.
Context (P : event -> Prop) (w : world).

Lemma events_bind {A B : Type} (m : M A) (f : A -> M B) :
  Forall P (m w).1 -> (∀ a, Forall P (f a w).1) -> Forall P ((m ≫= f) w).1.
Proof.
  intros Hm Hf. rewrite bind_run. destruct (m w) as [t [a|e]]; cbn [fst] in *.
  - apply Forall_app. split; [exact Hm|apply Hf].
  - exact Hm.
Qed.

Lemma events_emit (e : event) : P e -> Forall P (emit e w).1.
Proof. intros He. repeat constructor. exact He. Qed.

Lemma events_on_element (id : jsstr) (e : event) :
  P e -> Forall P (on_element id e w).1.
Proof.
  intros He. unfold on_element. rewrite ask_bind.
  destruct (decide (id ∈ elements w)); [apply events_emit, He|constructor].
Qed.

Lemma events_mapM {A B : Type} (f : A -> M B) (l : list A) :
  (∀ x, Forall P (f x w).1) -> Forall P (mapM f l w).1.
Proof.
  intros Hf. induction l as [|x l IH]; [constructor|]. cbn [mapM].
  apply events_bind; [apply Hf|]. intros y.
  apply events_bind; [exact IH|]. intros ys. constructor.
Qed.

End events.

Lemma highlight_events (w : world) (code : jsstr) (lang : option jsstr) :
  Forall (fun e => content_event e = true) (highlight code lang w).1.
Proof.
  destruct lang as [l|].
  - destruct (decide (l = [])) as [->|Hne].
    { rewrite highlight_unrecognized by (intros ? [= <-]; auto). repeat constructor. }
    destruct (hljs_getLanguage w l) eqn:Hl.
    + rewrite (highlight_recognized w code l Hne Hl).
      destruct (hljs_highlight w code l); repeat constructor.
    + rewrite highlight_unrecognized by (intros ? [= <-]; auto). repeat constructor.
  - rewrite highlight_unrecognized by discriminate. repeat constructor.
Qed.

Lemma renderMarkdownContent_events (w : world) (markdown : jsstr) :
  Forall (fun e => content_event e = true) (renderMarkdownContent markdown w).1.
Proof.
  unfold renderMarkdownContent.
  apply events_bind; [apply events_emit; reflexivity|]. intros _.
  rewrite ask_bind.
  apply events_bind; [apply events_mapM; intros b; apply highlight_events|].
  intros blocks.
  apply events_bind; [apply events_on_element; reflexivity|]. intros _.
  apply events_emit. reflexivity.
Qed.

Lemma updatePageMetadata_events (w : world) (meta : gmap jsstr value) :
  Forall (fun e => header_event e = true ∧ ∀ href, e ≠ ECanonicalLink href)
    (updatePageMetadata meta w).1.
Proof.
  unfold updatePageMetadata, set_textContent.
  apply events_bind; [apply events_on_element; split; [reflexivity|discriminate]|].
  intros _. apply events_on_element. split; [reflexivity|discriminate].
Qed.

Lemma renderPostHeader_events (w : world) (meta : gmap jsstr value) :
  Forall (fun e => header_event e = true ∧ ∀ href, e ≠ ECanonicalLink href)
    (renderPostHeader meta w).1.
Proof.
  unfold renderPostHeader, set_textContent, set_innerHTML. rewrite ask_bind.
  do 3 (apply events_bind;
        [apply events_on_element; split; [reflexivity|discriminate]|]; intros _).
  destruct (meta !! lit "tags") as [[[|c s]|[|tag tags]]|];
    try constructor.
  apply events_on_element. split; [reflexivity|discriminate].
Qed.

(** The step of lines 108 to 111: a canonical link is added for a string
    that is not blank, and for nothing else. *)
Lemma canonical_events (w : world) (meta : gmap jsstr value) :
  Forall (fun e => header_event e = true
                   ∧ ∀ href, e = ECanonicalLink href ->
                             meta !! lit "canonical" = Some (VStr href)
                             ∧ trim href ≠ [])
    (match meta !! lit "canonical" with
     | Some (VStr canonical) =>
         if negb (bool_decide (canonical = []))
            && negb (bool_decide (trim canonical = [])) then
           addCanonicalTag canonical;;
           showCanonicalNotice canonical
         else mret tt
     | Some (VArr _) => throw TypeError
     | None => mret tt
     end w).1.
Proof.
  destruct (meta !! lit "canonical") as [[canonical|a]|]; try constructor.
  destruct (decide (canonical = [])) as [->|Hne]; [constructor|].
  rewrite (bool_decide_eq_false_2 _ Hne). cbn [negb andb].
  destruct (decide (trim canonical = [])) as [Ht|Ht].
  - rewrite (bool_decide_eq_true_2 _ Ht). constructor.
  - rewrite (bool_decide_eq_false_2 _ Ht). cbn [negb].
    unfold addCanonicalTag. rewrite emit_bind. cbn [fst].
    constructor.
    + split; [reflexivity|]. intros href [= <-]. auto.
    + unfold showCanonicalNotice. rewrite ask_bind.
      destruct (decide (lit "canonical-notice" ∈ elements w)); [|constructor].
      destruct (decide (lit "canonical-link" ∈ elements w)); constructor;
        [|constructor].
      split; [reflexivity|]. discriminate.
Qed.

(** ** The post renderer, case by case *)

Lemma load_document_run (w : world) (slug : jsstr) (postMeta : gmap jsstr value) :
  load_document slug postMeta w =
  match network w (document_url slug) with
  | None => ([EFetch (document_url slug)], Throw FetchError)
  | Some d =>
      if ok d then
        match body_text d with
        | None => ([EFetch (document_url slug)], Throw FetchError)
        | Some md =>
            (EFetch (document_url slug)
               :: (render_post (final_meta postMeta md)
                     (content (parseFrontmatter md)) w).1,
             (render_post (final_meta postMeta md)
                (content (parseFrontmatter md)) w).2)
        end
      else ([EFetch (document_url slug)],
            Throw (Error (lit "Markdown file not found")))
  end.
Proof.
  unfold load_document.
  destruct (network w (document_url slug)) as [d|] eqn:Hnet.
  - rewrite (bind_Return _ _ w [EFetch (document_url slug)] d)
      by (rewrite fetch_run, Hnet; reflexivity).
    cbn beta. destruct (ok d).
    + rewrite (bind_Return _ _ w [] tt) by reflexivity. cbn beta.
      destruct (body_text d) as [md|] eqn:Htext.
      * rewrite (bind_Return _ _ w [] md)
          by (unfold text; rewrite Htext; reflexivity).
        reflexivity.
      * rewrite (bind_Throw _ _ w [] FetchError)
          by (unfold text; rewrite Htext; reflexivity).
        reflexivity.
    + rewrite (bind_Throw _ _ w [] (Error (lit "Markdown file not found")))
        by reflexivity.
      reflexivity.
  - apply bind_Throw. rewrite fetch_run, Hnet. reflexivity.
Qed.

Lemma post_caught_spec (w : world) :
  loadBlogPost w = post_caught w (load_post w).
Proof.
  unfold loadBlogPost, post_failed, post_caught. rewrite try_catch_run.
  destruct (load_post w) as [t [[]|e]]; [reflexivity|].
  rewrite emit_bind. destruct (showError_run load_failed w) as (writes & -> & _).
  reflexivity.
Qed.

(** Every run of the body of [loadBlogPost], by the slug, the catalog and
    the document. *)
Lemma load_post_run (w : world) :
  load_post w =
  match query_slug w with
  | None | Some [] => showError not_found w
  | Some slug =>
      match network w catalog_url with
      | None => ([EFetch catalog_url], Throw FetchError)
      | Some r =>
          match body_json r with
          | None => ([EFetch catalog_url], Throw SyntaxError)
          | Some posts =>
              match find (fun p => bool_decide (p !! lit "slug" = Some (VStr slug)))
                      posts with
              | None => (EFetch catalog_url :: (showError not_found w).1, Return tt)
              | Some postMeta =>
                  (EFetch catalog_url :: (load_document slug postMeta w).1,
                   (load_document slug postMeta w).2)
              end
          end
      end
  end.
Proof.
  destruct (query_slug w) as [[|c slug]|] eqn:Hslug;
    try (unfold load_post; rewrite ask_bind, Hslug; reflexivity).
  rewrite (load_post_with_slug w c slug Hslug).
  destruct (network w catalog_url) as [r|] eqn:Hnet.
  - rewrite (bind_Return _ _ w [EFetch catalog_url] r)
      by (rewrite fetch_run, Hnet; reflexivity).
    cbn beta. destruct (body_json r) as [posts|] eqn:Hjson.
    + rewrite (bind_Return _ _ w [] posts)
        by (unfold json; rewrite Hjson; reflexivity).
      cbn beta. destruct (find _ posts); [reflexivity|].
      destruct (showError_run not_found w) as (writes & -> & _). reflexivity.
    + rewrite (bind_Throw _ _ w [] SyntaxError)
        by (unfold json; rewrite Hjson; reflexivity).
      reflexivity.
  - apply bind_Throw. rewrite fetch_run, Hnet. reflexivity.
Qed.

(** X4. The post renderer never throws: whatever the page, the network
    and the libraries do, an exception of its body is caught by the handler
    of line 119, and the handler cannot throw. *)
Theorem loadBlogPost_returns (w : world) : result loadBlogPost w = Return tt.
Proof.
  unfold result. rewrite post_caught_spec. unfold post_caught.
  destruct (load_post w) as [t [a|e]]; reflexivity.
Qed.

(** X5. Without a slug in the query string, or with an empty one, the post
    renderer enters the error state "not found" at once: it fetches
    nothing and logs nothing, whatever the network would answer. *)
Theorem loadBlogPost_without_slug (w : world) :
  query_slug w = None ∨ query_slug w = Some [] ->
  loadBlogPost w = showError not_found w
  ∧ (∃ writes, trace loadBlogPost w = EShowError not_found :: writes
               ∧ ∀ e, e ∈ writes -> ∃ id, e = EInnerHTML id (HErrorContainer not_found)).
Proof.
  intros Hslug.
  assert (loadBlogPost w = showError not_found w) as Hrun.
  { rewrite post_caught_spec, load_post_run.
    destruct (showError_run not_found w) as (writes & Hshow & _).
    destruct Hslug as [-> | ->]; rewrite Hshow; reflexivity. }
  split; [exact Hrun|]. unfold trace. rewrite Hrun.
  destruct (showError_run not_found w) as (writes & -> & Hwrites). eauto.
Qed.

(** On a page opened without a query string, with a catalog that would
    load. *)
Lemma loadBlogPost_without_slug_witness :
  loadBlogPost listing_world = showError not_found listing_world
  ∧ (∃ writes, trace loadBlogPost listing_world = EShowError not_found :: writes
               ∧ ∀ e, e ∈ writes -> ∃ id, e = EInnerHTML id (HErrorContainer not_found)).
Proof. apply (loadBlogPost_without_slug listing_world). left. reflexivity. Defined.

(** The events of the rendering of a post: those of the header, then those
    of the content; a canonical link only for the canonical reference of the
    metadata, which then is a string that is not blank. *)
Lemma render_post_events (w : world) (meta : gmap jsstr value) (body : jsstr) :
  Forall (fun e => (header_event e = true ∨ content_event e = true)
                   ∧ ∀ href, e = ECanonicalLink href ->
                             meta !! lit "canonical" = Some (VStr href)
                             ∧ trim href ≠ [])
    (render_post meta body w).1.
Proof.
  unfold render_post.
  apply events_bind.
  { eapply Forall_impl; [apply updatePageMetadata_events|].
    intros e [He Hlink]. split; [auto|]. intros href ->. destruct (Hlink href eq_refl). }
  intros _. apply events_bind.
  { eapply Forall_impl; [apply canonical_events|]. intros e [He Hc]. auto. }
  intros _. apply events_bind.
  { eapply Forall_impl; [apply renderPostHeader_events|].
    intros e [He Hlink]. split; [auto|]. intros href ->. destruct (Hlink href eq_refl). }
  intros _. eapply Forall_impl; [apply renderMarkdownContent_events|].
  intros e He. split; [auto|]. intros href ->. discriminate.
Qed.

Lemma showError_events (w : world) (message : jsstr) :
  Forall (fun e => error_event e = true) (showError message w).1.
Proof.
  destruct (showError_run message w) as (writes & -> & Hwrites). cbn [fst].
  constructor; [reflexivity|]. apply Forall_forall. intros e He.
  destruct (Hwrites e He) as [id ->]. reflexivity.
Qed.

Lemma post_caught_showError (w : world) (message : jsstr) :
  post_caught w (showError message w) = showError message w.
Proof.
  destruct (showError_run message w) as (writes & -> & _). reflexivity.
Qed.

(** ** The runs of the post renderer *)

Lemma on_element_run (id : jsstr) (e : event) (w : world) :
  on_element id e w =
  if decide (id ∈ elements w) then ([e], Return tt) else ([], Throw TypeError).
Proof.
  unfold on_element. rewrite ask_bind.
  destruct (decide (id ∈ elements w)); reflexivity.
Qed.

(** What [loadBlogPost] does once the catalog entry and the document have
    arrived: both fetches, then the rendering, as the handler ends it. *)
Lemma loadBlogPost_loaded (w : world) (slug : jsstr)
    (postMeta : gmap jsstr value) (md : jsstr) :
  post_loaded w slug postMeta md ->
  loadBlogPost w =
  post_caught w
    (EFetch catalog_url :: EFetch (document_url slug)
       :: (render_post (final_meta postMeta md) (content (parseFrontmatter md)) w).1,
     (render_post (final_meta postMeta md) (content (parseFrontmatter md)) w).2).
Proof.
  intros (Hslug & Hne & r & posts & d & Hnet & Hjson & Hfind & Hdoc & Hok & Htext).
  rewrite post_caught_spec, load_post_run, Hslug.
  destruct slug as [|c slug]; [congruence|].
  rewrite Hnet, Hjson, Hfind, load_document_run, Hdoc, Hok, Htext.
  reflexivity.
Qed.

(** Every run of the post renderer is made of its fetches, the events of
    the rendering, and an error report, in this order; there is a rendering
    only once the catalog entry and the document have arrived. *)
Lemma loadBlogPost_phases (w : world) :
  ∃ fetches rendering report,
    trace loadBlogPost w = fetches ++ rendering ++ report
    ∧ post_fetches w fetches
    ∧ (rendering = []
       ∨ ∃ slug postMeta md,
           post_loaded w slug postMeta md
           ∧ rendering = (render_post (final_meta postMeta md)
                            (content (parseFrontmatter md)) w).1)
    ∧ Forall (fun e => error_event e = true) report
    ∧ post_report w report.
Proof.
  unfold trace.
  assert (∀ e, Forall (fun e => error_event e = true)
                 (EConsoleError (lit "Error loading blog post:") e
                    :: (showError load_failed w).1)) as Hreport.
  { intros e. constructor; [reflexivity|apply showError_events]. }
  assert (∀ e, post_report w (EConsoleError (lit "Error loading blog post:") e
                                :: (showError load_failed w).1)) as Hthrown.
  { intros e. right. right. exists e. reflexivity. }
  destruct (query_slug w) as [slug|] eqn:Hslug.
  2:{ rewrite post_caught_spec, load_post_run, Hslug, post_caught_showError.
      exists [], [], (fst (showError not_found w)).
      split; [reflexivity|]. split; [left; reflexivity|].
      split; [left; reflexivity|]. split; [apply showError_events|].
      right. left. split; [reflexivity|]. left. exact Hslug. }
  destruct slug as [|c slug].
  { rewrite post_caught_spec, load_post_run, Hslug, post_caught_showError.
    exists [], [], (fst (showError not_found w)).
    split; [reflexivity|]. split; [left; reflexivity|].
    split; [left; reflexivity|]. split; [apply showError_events|].
    right. left. split; [reflexivity|]. right. left. exact Hslug. }
  destruct (network w catalog_url) as [r|] eqn:Hnet.
  2:{ rewrite post_caught_spec, load_post_run, Hslug, Hnet.
      exists [EFetch catalog_url], [],
        (EConsoleError (lit "Error loading blog post:") FetchError
           :: (showError load_failed w).1).
      split; [reflexivity|]. split; [right; left; reflexivity|].
      split; [left; reflexivity|]. split; [apply Hreport|apply Hthrown]. }
  destruct (body_json r) as [posts|] eqn:Hjson.
  2:{ rewrite post_caught_spec, load_post_run, Hslug, Hnet, Hjson.
      exists [EFetch catalog_url], [],
        (EConsoleError (lit "Error loading blog post:") SyntaxError
           :: (showError load_failed w).1).
      split; [reflexivity|]. split; [right; left; reflexivity|].
      split; [left; reflexivity|]. split; [apply Hreport|apply Hthrown]. }
  destruct (find (fun p => bool_decide (p !! lit "slug" = Some (VStr (c :: slug))))
              posts) as [postMeta|] eqn:Hfind.
  2:{ rewrite post_caught_spec, load_post_run, Hslug, Hnet, Hjson, Hfind.
      exists [EFetch catalog_url], [], (fst (showError not_found w)).
      split; [reflexivity|]. split; [right; left; reflexivity|].
      split; [left; reflexivity|]. split; [apply showError_events|].
      right. left. split; [reflexivity|]. right. right.
      exists (c :: slug), r, posts. repeat (split; [assumption|]).
      intros p Hp. apply list_elem_of_In in Hp.
      pose proof (find_none _ _ Hfind p Hp) as Hno. cbn beta in Hno.
      apply bool_decide_eq_false_1 in Hno. exact Hno. }
  assert (post_fetches w [EFetch catalog_url; EFetch (document_url (c :: slug))])
    as Hfetches.
  { pose proof Hfind as Hf. apply find_some in Hf as [Hin Hmatch].
    apply bool_decide_eq_true_1 in Hmatch. apply list_elem_of_In in Hin.
    right. right. exists (c :: slug), r, posts, postMeta. auto 10. }
  assert (∀ e, load_document (c :: slug) postMeta w
               = ([EFetch (document_url (c :: slug))], Throw e) ->
          ∃ fetches rendering report,
            (loadBlogPost w).1 = fetches ++ rendering ++ report
            ∧ post_fetches w fetches
            ∧ (rendering = []
               ∨ ∃ slug postMeta md,
                   post_loaded w slug postMeta md
                   ∧ rendering = (render_post (final_meta postMeta md)
                                    (content (parseFrontmatter md)) w).1)
            ∧ Forall (fun e => error_event e = true) report
            ∧ post_report w report) as Hfailed.
  { intros e He. rewrite post_caught_spec, load_post_run, Hslug, Hnet, Hjson, Hfind, He.
    exists [EFetch catalog_url; EFetch (document_url (c :: slug))], [],
      (EConsoleError (lit "Error loading blog post:") e :: (showError load_failed w).1).
    split; [reflexivity|]. split; [exact Hfetches|].
    split; [left; reflexivity|]. split; [apply Hreport|apply Hthrown]. }
  pose proof (load_document_run w (c :: slug) postMeta) as Hrun.
  destruct (network w (document_url (c :: slug))) as [d|] eqn:Hdoc;
    [|exact (Hfailed _ Hrun)].
  destruct (ok d) eqn:Hok; [|exact (Hfailed _ Hrun)].
  destruct (body_text d) as [md|] eqn:Htext; [|exact (Hfailed _ Hrun)].
  clear Hfailed Hrun.
  assert (post_loaded w (c :: slug) postMeta md) as Hloaded.
  { split; [exact Hslug|]. split; [discriminate|]. exists r, posts, d. auto 10. }
  rewrite (loadBlogPost_loaded w _ _ _ Hloaded).
  destruct (render_post (final_meta postMeta md) (content (parseFrontmatter md)) w)
    as [t [[]|e]] eqn:Hrender; cbn [fst snd post_caught].
  - exists [EFetch catalog_url; EFetch (document_url (c :: slug))], t, [].
    rewrite app_nil_r. split; [reflexivity|]. split; [exact Hfetches|].
    split; [|split; [constructor|left; reflexivity]].
    right. exists (c :: slug), postMeta, md. rewrite Hrender. auto.
  - exists [EFetch catalog_url; EFetch (document_url (c :: slug))], t,
      (EConsoleError (lit "Error loading blog post:") e :: (showError load_failed w).1).
    split; [reflexivity|]. split; [exact Hfetches|].
    split; [|split; [apply Hreport|apply Hthrown]].
    right. exists (c :: slug), postMeta, md. rewrite Hrender. auto.
Qed.

Lemma filter_none {A : Type} (f : A -> bool) (l : list A) :
  Forall (fun x => f x = false) l -> List.filter f l = [].
Proof.
  induction 1 as [|x l Hx _ IH]; [reflexivity|].
  cbn [List.filter]. rewrite Hx. exact IH.
Qed.

Lemma render_post_no_fetch (w : world) (meta : gmap jsstr value) (body : jsstr) :
  Forall (fun e => is_fetch e = false) (render_post meta body w).1.
Proof.
  eapply Forall_impl; [apply render_post_events|].
  intros e [[He|He] _]; destruct e; try reflexivity; discriminate.
Qed.

Lemma error_event_no_fetch (report : list event) :
  Forall (fun e => error_event e = true) report ->
  Forall (fun e => is_fetch e = false) report.
Proof.
  intros H. eapply Forall_impl; [exact H|].
  intros e He; destruct e; try reflexivity; discriminate.
Qed.

(** X6. The post renderer requests nothing but the catalog and the
    document of the slug: no request at all, the catalog alone, or the
    catalog and then the document of the slug of the query string, which
    then is the slug of an entry of the catalog. *)
Theorem loadBlogPost_fetches (w : world) :
  post_fetches w (List.filter is_fetch (trace loadBlogPost w)).
Proof.
  destruct (loadBlogPost_phases w)
    as (fetches & rendering & report & -> & Hfetches & Hrendering & Hreport & _).
  rewrite !List.filter_app.
  rewrite (filter_none is_fetch report) by (apply error_event_no_fetch, Hreport).
  rewrite (filter_none is_fetch rendering).
  2:{ destruct Hrendering as [->|(slug & postMeta & md & _ & ->)];
        [constructor|apply render_post_no_fetch]. }
  rewrite !app_nil_r.
  replace (List.filter is_fetch fetches) with fetches; [exact Hfetches|].
  destruct Hfetches as [->|[->|(slug & r & posts & postMeta & -> & _)]]; reflexivity.
Qed.

(** ** The canonical reference *)

Lemma updatePageMetadata_not_canonical (w : world) (meta : gmap jsstr value) :
  Forall (fun e => is_canonical e = false) (updatePageMetadata meta w).1.
Proof.
  unfold updatePageMetadata, set_textContent.
  apply events_bind; [apply events_on_element; reflexivity|]. intros _.
  apply events_on_element. reflexivity.
Qed.

Lemma renderPostHeader_not_canonical (w : world) (meta : gmap jsstr value) :
  Forall (fun e => is_canonical e = false) (renderPostHeader meta w).1.
Proof.
  unfold renderPostHeader, set_textContent, set_innerHTML. rewrite ask_bind.
  do 3 (apply events_bind; [apply events_on_element; reflexivity|]; intros _).
  destruct (meta !! lit "tags") as [[[|c s]|[|tag tags]]|];
    try constructor.
  apply events_on_element. reflexivity.
Qed.

Lemma renderMarkdownContent_not_canonical (w : world) (markdown : jsstr) :
  Forall (fun e => is_canonical e = false) (renderMarkdownContent markdown w).1.
Proof.
  eapply Forall_impl; [apply renderMarkdownContent_events|].
  intros e He; destruct e; try reflexivity; discriminate.
Qed.

Lemma canonical_run (w : world) (meta : gmap jsstr value) :
  canonical_step w meta
    (match meta !! lit "canonical" with
     | Some (VStr canonical) =>
         if negb (bool_decide (canonical = []))
            && negb (bool_decide (trim canonical = [])) then
           addCanonicalTag canonical;;
           showCanonicalNotice canonical
         else mret tt
     | Some (VArr _) => throw TypeError
     | None => mret tt
     end w).1.
Proof.
  destruct (meta !! lit "canonical") as [[canonical|a]|] eqn:Hmeta;
    try (left; reflexivity).
  destruct (decide (canonical = [])) as [->|Hne]; [left; reflexivity|].
  rewrite (bool_decide_eq_false_2 _ Hne). cbn [negb andb].
  destruct (decide (trim canonical = [])) as [Ht|Ht].
  - rewrite (bool_decide_eq_true_2 _ Ht). left. reflexivity.
  - rewrite (bool_decide_eq_false_2 _ Ht). cbn [negb].
    right. exists canonical. split; [exact Hmeta|]. split; [exact Ht|].
    unfold addCanonicalTag. rewrite emit_bind. cbn [fst].
    unfold showCanonicalNotice. rewrite ask_bind.
    destruct (decide (lit "canonical-notice" ∈ elements w)) as [Hn|Hn];
      [|left; reflexivity].
    destruct (decide (lit "canonical-link" ∈ elements w)) as [Hl|Hl];
      [|left; reflexivity].
    right. auto.
Qed.

(** The rendering of a post around its canonical step. *)
Lemma render_post_canonical (w : world) (meta : gmap jsstr value) (body : jsstr) :
  ∃ before step after,
    (render_post meta body w).1 = before ++ step ++ after
    ∧ Forall (fun e => is_canonical e = false) before
    ∧ canonical_step w meta step
    ∧ Forall (fun e => is_canonical e = false) after.
Proof.
  unfold render_post. rewrite bind_run.
  pose proof (updatePageMetadata_not_canonical w meta) as Hbefore.
  destruct (updatePageMetadata meta w) as [t1 [[]|e]]; cbn [fst snd] in *.
  2:{ exists t1, [], []. rewrite !app_nil_r.
      split; [reflexivity|]. split; [exact Hbefore|].
      split; [left; reflexivity|constructor]. }
  rewrite bind_run.
  pose proof (canonical_run w meta) as Hstep.
  match goal with
  | |- context [match ?m w with _ => _ end] => destruct (m w) as [t2 [[]|e]]
  end; cbn [fst snd] in *.
  2:{ exists t1, t2, []. rewrite !app_nil_r.
      split; [reflexivity|]. split; [exact Hbefore|].
      split; [exact Hstep|constructor]. }
  exists t1, t2, ((renderPostHeader meta;; renderMarkdownContent body) w).1.
  split; [reflexivity|]. split; [exact Hbefore|]. split; [exact Hstep|].
  apply events_bind; [apply renderPostHeader_not_canonical|].
  intros _. apply renderMarkdownContent_not_canonical.
Qed.

(** Every run of the post renderer around its canonical step. *)
Lemma loadBlogPost_canonical (w : world) :
  ∃ before step after,
    trace loadBlogPost w = before ++ step ++ after
    ∧ Forall (fun e => is_canonical e = false) before
    ∧ Forall (fun e => is_canonical e = false) after
    ∧ (step = []
       ∨ ∃ slug postMeta md,
           post_loaded w slug postMeta md
           ∧ canonical_step w (final_meta postMeta md) step).
Proof.
  destruct (loadBlogPost_phases w)
    as (fetches & rendering & report & -> & Hfetches & Hrendering & Hreport & _).
  assert (Forall (fun e => is_canonical e = false) fetches) as Hf.
  { destruct Hfetches as [->|[->|(slug & r & posts & postMeta & -> & _)]];
      repeat constructor. }
  assert (Forall (fun e => is_canonical e = false) report) as Hr.
  { eapply Forall_impl; [exact Hreport|].
    intros e He; destruct e; try reflexivity; discriminate. }
  destruct Hrendering as [->|(slug & postMeta & md & Hloaded & ->)].
  - exists fetches, [], report.
    split; [reflexivity|]. split; [exact Hf|]. split; [exact Hr|]. left. reflexivity.
  - destruct (render_post_canonical w (final_meta postMeta md)
                (content (parseFrontmatter md)))
      as (before & step & after & -> & Hb & Hstep & Ha).
    exists (fetches ++ before), step, (after ++ report).
    split; [rewrite <- !app_assoc; reflexivity|].
    split; [apply Forall_app; auto|]. split; [apply Forall_app; auto|].
    right. exists slug, postMeta, md. auto.
Qed.

Lemma not_canonical_elem (l : list event) (e : event) :
  Forall (fun e => is_canonical e = false) l -> is_canonical e = true -> e ∉ l.
Proof.
  intros Hl He Hin. rewrite Forall_forall in Hl. specialize (Hl e Hin). congruence.
Qed.

(** X7. The post renderer sets a canonical link only once the catalog
    entry and the document have arrived, and only to the canonical reference
    of the merged metadata, which then is a string that is not blank. *)
Theorem loadBlogPost_canonical_link (w : world) (href : jsstr) :
  ECanonicalLink href ∈ trace loadBlogPost w ->
  trim href ≠ []
  ∧ ∃ slug postMeta md,
      post_loaded w slug postMeta md
      ∧ final_meta postMeta md !! lit "canonical" = Some (VStr href).
Proof.
  destruct (loadBlogPost_canonical w)
    as (before & step & after & -> & Hb & Ha & Hstep).
  rewrite !elem_of_app. intros [Hin|[Hin|Hin]].
  - exfalso. eapply not_canonical_elem; [exact Hb| |exact Hin]. reflexivity.
  - destruct Hstep as [->|(slug & postMeta & md & Hloaded & Hstep)].
    { apply elem_of_nil in Hin. destruct Hin. }
    destruct Hstep as [->|(c & Hc & Ht & Hstep)].
    { apply elem_of_nil in Hin. destruct Hin. }
    assert (href = c) as ->.
    { destruct Hstep as [->|[-> _]].
      - apply list_elem_of_singleton in Hin. congruence.
      - apply elem_of_cons in Hin as [Hin|Hin]; [congruence|].
        apply list_elem_of_singleton in Hin. discriminate. }
    split; [exact Ht|]. exists slug, postMeta, md. auto.
  - exfalso. eapply not_canonical_elem; [exact Ha| |exact Hin]. reflexivity.
Qed.

(** The page of a post that names its original. *)
Lemma loadBlogPost_canonical_link_witness :
  trim (lit "https://www.example.com/a") ≠ []
  ∧ ∃ slug postMeta md,
      post_loaded (post_page post_entry syndicated_post) slug postMeta md
      ∧ final_meta postMeta md !! lit "canonical"
        = Some (VStr (lit "https://www.example.com/a")).
Proof.
  apply (loadBlogPost_canonical_link (post_page post_entry syndicated_post)).
  apply list_elem_of_In. vm_compute. auto 10.
Defined.

(** X8. The notice of the original is shown only on a page that has both
    of its elements, and only for the reference that was set as the
    canonical link just before. *)
Theorem loadBlogPost_canonical_notice (w : world) (href : jsstr) :
  ECanonicalNotice href ∈ trace loadBlogPost w ->
  lit "canonical-notice" ∈ elements w
  ∧ lit "canonical-link" ∈ elements w
  ∧ ∃ before after,
      trace loadBlogPost w
      = before ++ ECanonicalLink href :: ECanonicalNotice href :: after.
Proof.
  destruct (loadBlogPost_canonical w)
    as (before & step & after & Htrace & Hb & Ha & Hstep).
  rewrite Htrace, !elem_of_app. intros [Hin|[Hin|Hin]].
  - exfalso. eapply not_canonical_elem; [exact Hb| |exact Hin]. reflexivity.
  - destruct Hstep as [->|(slug & postMeta & md & Hloaded & Hstep)].
    { apply elem_of_nil in Hin. destruct Hin. }
    destruct Hstep as [->|(c & Hc & Ht & Hstep)].
    { apply elem_of_nil in Hin. destruct Hin. }
    destruct Hstep as [->|(-> & Hn & Hl)].
    { apply list_elem_of_singleton in Hin. discriminate. }
    apply elem_of_cons in Hin as [Hin|Hin]; [discriminate|].
    apply list_elem_of_singleton in Hin. injection Hin as ->.
    split; [exact Hn|]. split; [exact Hl|]. exists before, after. reflexivity.
  - exfalso. eapply not_canonical_elem; [exact Ha| |exact Hin]. reflexivity.
Qed.

Lemma loadBlogPost_canonical_notice_witness :
  let w := post_page post_entry syndicated_post in
  lit "canonical-notice" ∈ elements w
  ∧ lit "canonical-link" ∈ elements w
  ∧ ∃ before after,
      trace loadBlogPost w
      = before ++ ECanonicalLink (lit "https://www.example.com/a")
          :: ECanonicalNotice (lit "https://www.example.com/a") :: after.
Proof.
  apply (loadBlogPost_canonical_notice (post_page post_entry syndicated_post)).
  apply list_elem_of_In. vm_compute. auto 10.
Defined.

(** ** Tags that are not a list *)

Lemma updatePageMetadata_outcome (w : world) (meta : gmap jsstr value) :
  (updatePageMetadata meta w).2 = Return tt
  ∨ (updatePageMetadata meta w).2 = Throw TypeError.
Proof.
  unfold updatePageMetadata, set_textContent.
  rewrite bind_run, !on_element_run.
  repeat (destruct (decide _); cbn [fst snd]); auto.
Qed.

Lemma canonical_outcome (w : world) (meta : gmap jsstr value) :
  let step :=
    match meta !! lit "canonical" with
    | Some (VStr canonical) =>
        if negb (bool_decide (canonical = []))
           && negb (bool_decide (trim canonical = [])) then
          addCanonicalTag canonical;;
          showCanonicalNotice canonical
        else mret tt
    | Some (VArr _) => throw TypeError
    | None => mret tt
    end in
  (step w).2 = Return tt ∨ (step w).2 = Throw TypeError.
Proof.
  cbn zeta. destruct (meta !! lit "canonical") as [[canonical|a]|]; auto.
  destruct (negb (bool_decide (canonical = []))
            && negb (bool_decide (trim canonical = []))); auto.
  unfold addCanonicalTag. rewrite emit_bind. cbn [snd].
  unfold showCanonicalNotice. rewrite ask_bind.
  repeat (destruct (decide _)); auto.
Qed.

(** The header of a post whose tags are a string that is not empty:
    [meta.tags.map] is not a function. *)
Lemma renderPostHeader_scalar_tags (w : world) (meta : gmap jsstr value)
    (c : N) (s : jsstr) :
  meta !! lit "tags" = Some (VStr (c :: s)) ->
  (renderPostHeader meta w).2 = Throw TypeError.
Proof.
  intros Htags.
  unfold renderPostHeader, set_textContent. rewrite ask_bind, Htags.
  rewrite !bind_run, !on_element_run.
  repeat (destruct (decide _); cbn [fst snd]); reflexivity.
Qed.

Lemma render_post_scalar_tags (w : world) (meta : gmap jsstr value)
    (body : jsstr) (c : N) (s : jsstr) :
  meta !! lit "tags" = Some (VStr (c :: s)) ->
  ∃ header,
    render_post meta body w = (header, Throw TypeError)
    ∧ Forall (fun e => header_event e = true) header.
Proof.
  intros Htags. unfold render_post. rewrite bind_run.
  pose proof (updatePageMetadata_events w meta) as H1.
  apply (Forall_impl _ (fun e => header_event e = true)) in H1; [|tauto].
  destruct (updatePageMetadata_outcome w meta) as [Ho|Ho];
    destruct (updatePageMetadata meta w) as [t1 o1]; cbn [fst snd] in *; subst o1.
  2:{ exists t1. auto. }
  rewrite bind_run.
  pose proof (canonical_events w meta) as H2.
  apply (Forall_impl _ (fun e => header_event e = true)) in H2; [|tauto].
  pose proof (canonical_outcome w meta) as Ho. cbn zeta in Ho.
  match goal with
  | |- context [match ?m w with _ => _ end] => destruct (m w) as [t2 o2]
  end; cbn [fst snd] in *.
  destruct Ho as [->| ->].
  2:{ exists (t1 ++ t2). split; [reflexivity|]. apply Forall_app. auto. }
  rewrite bind_run.
  pose proof (renderPostHeader_events w meta) as H3.
  apply (Forall_impl _ (fun e => header_event e = true)) in H3; [|tauto].
  pose proof (renderPostHeader_scalar_tags w meta c s Htags) as Ho.
  destruct (renderPostHeader meta w) as [t3 o3]; cbn [fst snd] in *; subst o3.
  exists (t1 ++ t2 ++ t3). split; [reflexivity|].
  rewrite !Forall_app. auto.
Qed.

(** X9. A post whose merged metadata gives tags that are a string, not a
    list (a frontmatter line such as tags: java), cannot be shown: the
    header throws a [TypeError] at [meta.tags.map], the handler logs it and
    enters the error state "load failed", and the body is never rendered. *)
Theorem loadBlogPost_scalar_tags (w : world) (slug : jsstr)
    (postMeta : gmap jsstr value) (md : jsstr) (c : N) (s : jsstr) :
  post_loaded w slug postMeta md ->
  final_meta postMeta md !! lit "tags" = Some (VStr (c :: s)) ->
  ∃ header,
    trace loadBlogPost w
    = [EFetch catalog_url; EFetch (document_url slug)] ++ header
      ++ EConsoleError (lit "Error loading blog post:") TypeError
      :: (showError load_failed w).1
    ∧ Forall (fun e => header_event e = true) header.
Proof.
  intros Hloaded Htags. unfold trace.
  rewrite (loadBlogPost_loaded w slug postMeta md Hloaded).
  destruct (render_post_scalar_tags w (final_meta postMeta md)
              (content (parseFrontmatter md)) c s Htags) as (header & -> & Hheader).
  exists header. split; [reflexivity|exact Hheader].
Qed.

(** The page of a post whose frontmatter has the line tags: java. *)
Lemma loadBlogPost_scalar_tags_witness :
  let w := post_page post_entry scalar_tags_post in
  ∃ header,
    trace loadBlogPost w
    = [EFetch catalog_url; EFetch (document_url (lit "post"))] ++ header
      ++ EConsoleError (lit "Error loading blog post:") TypeError
      :: (showError load_failed w).1
    ∧ Forall (fun e => header_event e = true) header.
Proof.
  apply (loadBlogPost_scalar_tags (post_page post_entry scalar_tags_post)
           (lit "post") post_entry scalar_tags_post 106 (lit "ava")).
  - split; [reflexivity|]. split; [discriminate|].
    exists (Response true (Some [post_entry]) None), [post_entry],
      (Response true None (Some scalar_tags_post)).
    repeat split; vm_compute; reflexivity.
  - vm_compute. reflexivity.
Defined.

(** ** What the list renderer requests *)

Lemma loadBlogList_without_region_run (w : world) :
  lit "blog-list" ∉ elements w ->
  ∃ e, loadBlogList w =
       ([EFetch catalog_url; EConsoleError (lit "Error loading blog posts:") e],
        Throw TypeError).
Proof.
  intros Hel. unfold loadBlogList.
  assert (∀ h, set_innerHTML (lit "blog-list") h w = ([], Throw TypeError)) as Hset.
  { intros h. rewrite set_innerHTML_run.
    destruct (decide (lit "blog-list" ∈ elements w)); [contradiction|reflexivity]. }
  assert (∀ e, (emit (EConsoleError (lit "Error loading blog posts:") e);;
                set_innerHTML (lit "blog-list") HListFailed) w
               = ([EConsoleError (lit "Error loading blog posts:") e], Throw TypeError))
    as Hhandler.
  { intros e. rewrite emit_bind, Hset. reflexivity. }
  rewrite try_catch_run.
  destruct (network w catalog_url) as [r|] eqn:Hnet.
  - rewrite (bind_Return _ _ w [EFetch catalog_url] r)
      by (rewrite fetch_run, Hnet; reflexivity).
    cbn beta. destruct (body_json r) as [posts|] eqn:Hjson.
    + rewrite (bind_Return _ _ w [] posts)
        by (unfold json; rewrite Hjson; reflexivity).
      cbn beta. destruct posts as [|p posts].
      * rewrite Hset. cbn [fst snd app]. rewrite Hhandler. eexists. reflexivity.
      * rewrite ask_bind, bind_run, mapM_render_card.
        destruct (forallb has_tags_array _).
        -- rewrite bind_run, Hset. cbn [fst snd app]. rewrite Hhandler.
           eexists. reflexivity.
        -- cbn [fst snd app]. rewrite Hhandler. eexists. reflexivity.
    + rewrite (bind_Throw _ _ w [] SyntaxError)
        by (unfold json; rewrite Hjson; reflexivity).
      cbn [fst snd app]. rewrite Hhandler. eexists. reflexivity.
  - rewrite (bind_Throw _ _ w [EFetch catalog_url] FetchError)
      by (rewrite fetch_run, Hnet; reflexivity).
    rewrite Hhandler. eexists. reflexivity.
Qed.

(** X10. Whatever the page and the network do, the list renderer makes
    one request, for the catalog, and it makes it first. *)
Theorem loadBlogList_fetches_once (w : world) :
  List.filter is_fetch (trace loadBlogList w) = [EFetch catalog_url]
  ∧ ∃ rest, trace loadBlogList w = EFetch catalog_url :: rest.
Proof.
  unfold trace. destruct (decide (lit "blog-list" ∈ elements w)) as [Hel|Hel].
  - rewrite (loadBlogList_run w Hel).
    destruct (network w catalog_url) as [r|]; [|split; [reflexivity|eexists; reflexivity]].
    destruct (body_json r) as [[|p posts]|];
      try (split; [reflexivity|eexists; reflexivity]).
    destruct (forallb has_tags_array (p :: posts));
      (split; [reflexivity|eexists; reflexivity]).
  - destruct (loadBlogList_without_region_run w Hel) as [e ->].
    split; [reflexivity|eexists; reflexivity].
Qed.

(** ** When the error state "not found" is entered *)

Lemma render_post_no_error_state (w : world) (meta : gmap jsstr value)
    (body message : jsstr) :
  EShowError message ∉ (render_post meta body w).1.
Proof.
  intros Hin. pose proof (render_post_events w meta body) as H.
  rewrite Forall_forall in H. destruct (H _ Hin) as [[He|He] _]; discriminate.
Qed.

(** X11. The post renderer enters the error state "not found" exactly
    when there is no post to show: the query string has no slug, or the
    catalog has arrived and has no entry with the slug. *)
Theorem loadBlogPost_not_found_iff_absent (w : world) :
  EShowError not_found ∈ trace loadBlogPost w <-> post_absent w.
Proof.
  split.
  - destruct (loadBlogPost_phases w)
      as (fetches & rendering & report & -> & Hfetches & Hrendering & _ & Hreport).
    rewrite !elem_of_app. intros [Hin|[Hin|Hin]].
    + exfalso.
      destruct Hfetches as [->|[->|(slug & r & posts & postMeta & -> & _)]];
        rewrite ?elem_of_cons, ?elem_of_nil in Hin; intuition discriminate.
    + exfalso. destruct Hrendering as [->|(slug & postMeta & md & _ & ->)].
      * apply elem_of_nil in Hin. exact Hin.
      * exact (render_post_no_error_state _ _ _ _ Hin).
    + destruct Hreport as [->|[[_ Habsent]|[e ->]]].
      * apply elem_of_nil in Hin. destruct Hin.
      * exact Habsent.
      * exfalso. destruct (showError_run load_failed w) as (writes & Hrun & Hwrites).
        rewrite Hrun in Hin. cbn [fst] in Hin.
        rewrite !elem_of_cons in Hin.
        destruct Hin as [Hin|[Hin|Hin]]; try discriminate.
        destruct (Hwrites _ Hin) as [id Hid]. discriminate.
  - unfold trace. rewrite post_caught_spec, load_post_run.
    destruct (showError_run not_found w) as (writes & Hrun & _).
    intros [Hslug|[Hslug|(slug & r & posts & Hslug & Hnet & Hjson & Hposts)]].
    + rewrite Hslug, Hrun. apply list_elem_of_here.
    + rewrite Hslug, Hrun. apply list_elem_of_here.
    + rewrite Hslug. destruct slug as [|c slug].
      { rewrite Hrun. apply list_elem_of_here. }
      rewrite Hnet, Hjson, find_absent.
      * rewrite Hrun. cbn [fst post_caught]. apply list_elem_of_further, list_elem_of_here.
      * intros p Hp. apply bool_decide_eq_false_2, Hposts, Hp.
Qed.

(** ** What is shown as the content *)

Lemma highlight_no_write (w : world) (code : jsstr) (lang : option jsstr) :
  Forall (fun e => is_innerHTML e = false) (highlight code lang w).1.
Proof.
  destruct lang as [l|].
  - destruct (decide (l = [])) as [->|Hne].
    { rewrite highlight_unrecognized by (intros ? [= <-]; auto). repeat constructor. }
    destruct (hljs_getLanguage w l) eqn:Hl.
    + rewrite (highlight_recognized w code l Hne Hl).
      destruct (hljs_highlight w code l); repeat constructor.
    + rewrite highlight_unrecognized by (intros ? [= <-]; auto). repeat constructor.
  - rewrite highlight_unrecognized by discriminate. repeat constructor.
Qed.

Lemma render_post_markdown (w : world) (meta : gmap jsstr value) (body : jsstr) :
  Forall (fun e => ∀ id text blocks, e = EInnerHTML id (HMarkdown text blocks) ->
                                     id = lit "post-content" ∧ text = body)
    (render_post meta body w).1.
Proof.
  assert (∀ l, Forall (fun e => header_event e = true) l ->
               Forall (fun e => ∀ id text blocks,
                         e = EInnerHTML id (HMarkdown text blocks) ->
                         id = lit "post-content" ∧ text = body) l) as Hheader.
  { intros l Hl. eapply Forall_impl; [exact Hl|].
    intros e He id text blocks ->. discriminate. }
  unfold render_post.
  apply events_bind.
  { apply Hheader. eapply Forall_impl; [apply updatePageMetadata_events|]. intros e [He _]; exact He. }
  intros _. apply events_bind.
  { apply Hheader. eapply Forall_impl; [apply canonical_events|]. intros e [He _]; exact He. }
  intros _. apply events_bind.
  { apply Hheader. eapply Forall_impl; [apply renderPostHeader_events|]. intros e [He _]; exact He. }
  intros _. unfold renderMarkdownContent.
  apply events_bind; [apply events_emit; discriminate|]. intros _.
  rewrite ask_bind. apply events_bind.
  { apply events_mapM. intros b.
    eapply Forall_impl; [apply highlight_no_write|].
    intros e He id text blocks ->. discriminate. }
  intros blocks. apply events_bind.
  { apply events_on_element. intros id text blocks' [= <- <- _]. auto. }
  intros _. apply events_emit. discriminate.
Qed.

(** X12. Markdown is written to the page only into the region of the
    content, only once the catalog entry and the document of the slug have
    arrived, and the text that is rendered is the body the parser returns
    for that document. *)
Theorem loadBlogPost_renders_body (w : world) (id text : jsstr)
    (blocks : list jsstr) :
  EInnerHTML id (HMarkdown text blocks) ∈ trace loadBlogPost w ->
  id = lit "post-content"
  ∧ ∃ slug postMeta md,
      post_loaded w slug postMeta md ∧ text = content (parseFrontmatter md).
Proof.
  destruct (loadBlogPost_phases w)
    as (fetches & rendering & report & -> & Hfetches & Hrendering & Hreport & _).
  rewrite !elem_of_app. intros [Hin|[Hin|Hin]].
  - exfalso.
    destruct Hfetches as [->|[->|(slug & r & posts & postMeta & -> & _)]];
      rewrite ?elem_of_cons, ?elem_of_nil in Hin; intuition discriminate.
  - destruct Hrendering as [->|(slug & postMeta & md & Hloaded & ->)].
    { apply elem_of_nil in Hin. destruct Hin. }
    pose proof (render_post_markdown w (final_meta postMeta md)
                  (content (parseFrontmatter md))) as H.
    rewrite Forall_forall in H.
    destruct (H _ Hin id text blocks eq_refl) as [-> ->].
    split; [reflexivity|]. exists slug, postMeta, md. auto.
  - exfalso. rewrite Forall_forall in Hreport. specialize (Hreport _ Hin).
    discriminate.
Qed.

(** The page of the sample post shows the text behind its frontmatter. *)
Lemma loadBlogPost_renders_body_witness :
  lit "post-content" = lit "post-content"
  ∧ ∃ slug postMeta md,
      post_loaded reading_world slug postMeta md
      ∧ lit "# Understanding Thread Safety" ++ [LF] = content (parseFrontmatter md).
Proof.
  apply (loadBlogPost_renders_body reading_world (lit "post-content")
           (lit "# Understanding Thread Safety" ++ [LF]) []).
  apply list_elem_of_In. vm_compute. auto 20.
Defined.

(** ** Blocks with lines of any content *)

Lemma blank_to_eol_not_blank (l t : jsstr) :
  LF ∉ l -> blank_line l = false -> blank_to_eol (l ++ t) = false.
Proof.
  unfold blank_line. induction l as [|x l IH]; [discriminate|].
  rewrite not_elem_of_cons. intros [Hx Hl]. cbn [forallb app blank_to_eol].
  destruct (N.eqb_spec x LF); [congruence|].
  destruct (is_space x); [|reflexivity].
  cbn [andb]. apply IH, Hl.
Qed.

(** A line that does not read as a delimiter is not taken for the closing
    delimiter. *)
Lemma line_not_closing {R : Type} (k : jsstr -> option R) (l t : jsstr) :
  LF ∉ l -> delimiter_line l = false ->
  expect DASH (expect DASH (expect DASH (star_greedy is_space (expect LF k))))
    (l ++ LF :: t) = None.
Proof.
  intros Hlf Hl.
  assert (∀ (k' : jsstr -> option R) s, expect DASH k' (LF :: s) = None) as Hend
    by (intros; apply expect_ne; discriminate).
  destruct l as [|c1 l]; [apply Hend|]. cbn [app].
  destruct (N.eqb_spec DASH c1) as [<-|?]; [rewrite expect_cons|apply expect_ne; assumption].
  destruct l as [|c2 l]; [apply Hend|]. cbn [app].
  destruct (N.eqb_spec DASH c2) as [<-|?]; [rewrite expect_cons|apply expect_ne; assumption].
  destruct l as [|c3 l]; [apply Hend|]. cbn [app].
  destruct (N.eqb_spec DASH c3) as [<-|?]; [rewrite expect_cons|apply expect_ne; assumption].
  apply blank_run_None, blank_to_eol_not_blank.
  - rewrite !not_elem_of_cons in Hlf. tauto.
  - exact Hl.
Qed.

Section lazy_block.
Context {R : Type} (k : jsstr -> option R).
Hypothesis k_newline : ∀ c s, c ≠ LF -> k (c :: s) = None.
Hypothesis k_line :
  ∀ l s, LF ∉ l -> delimiter_line l = false -> k (LF :: l ++ LF :: s) = None.

(** The lazy loop of group 1 runs over all the lines of the block. *)
Lemma star_lazy_block (ls : list jsstr) (l t : jsstr) :
  Forall (fun l => LF ∉ l) (l :: ls) ->
  Forall (fun l => delimiter_line l = false) ls ->
  star_lazy any_char k (join [LF] (l :: ls) ++ LF :: t) =
  star_lazy any_char k (LF :: t).
Proof.
  revert l. induction ls as [|l' ls IH]; intros l Hlf Hnd.
  - apply (star_lazy_line k k_newline). inversion Hlf; assumption.
  - inversion Hlf as [|? ? Hl Hlf']; subst. inversion Hnd as [|? ? Hl' Hnd']; subst.
    rewrite join_cons_cons, <- !app_assoc. cbn [app].
    rewrite (star_lazy_line k k_newline) by exact Hl.
    destruct (join_lines_head l' ls t) as [s Hs].
    rewrite star_lazy_skip.
    + apply IH; assumption.
    + rewrite Hs. apply k_line; [|exact Hl']. inversion Hlf'; assumption.
Qed.

End lazy_block.

Lemma frontmatter_split_block (ws0 : jsstr) (lines : list jsstr)
    (ws1 rest : jsstr) :
  Forall (fun c => is_space c = true) ws0 ->
  Forall (fun c => is_space c = true) ws1 ->
  block_lines lines ->
  frontmatter_split (document ws0 lines ws1 rest) =
  Some (join [LF] lines, skip_blank_lines rest).
Proof.
  intros Hws0 Hws1 Hlines.
  destruct lines as [|l ls]; [destruct Hlines|].
  destruct Hlines as (Hblank & Hlf & Hnd).
  unfold frontmatter_split, document.
  rewrite unlines_join, lit_dashes, <- !app_assoc by discriminate. cbn [app].
  rewrite !expect_cons.
  set (body := join [LF] (l :: ls) ++ LF :: DASH :: DASH :: DASH :: ws1 ++ LF :: rest).
  apply star_greedy_app_Some; [exact Hws0|].
  cbn [star_greedy]. rewrite is_space_LF, expect_cons.
  assert (blank_to_eol body = false) as Hbody.
  { subst body.
    destruct (join_lines_head l ls (DASH :: DASH :: DASH :: ws1 ++ LF :: rest)) as [s ->].
    apply blank_to_eol_not_blank; [|exact Hblank]. inversion Hlf; assumption. }
  rewrite blank_run_None by exact Hbody.
  subst body. rewrite star_lazy_block; [| | |exact Hlf|exact Hnd].
  - cbn [star_lazy]. rewrite !expect_cons, blank_run_fmap, blank_run_app by exact Hws1.
    cbn [fmap option_fmap option_map].
    rewrite length_app, Nat.add_sub, take_app_length. reflexivity.
  - intros c s Hc. apply expect_ne. congruence.
  - intros l0 s Hl0 Hnd0. rewrite expect_cons. apply line_not_closing; assumption.
Qed.

Lemma parse_line_no_key (o : object) (l : jsstr) :
  (0 <? indexOf COLON l)%Z = false -> parse_line o l = o.
Proof. intros Hl. unfold parse_line. rewrite Hl. reflexivity. Qed.

Lemma foldl_parse_line_keyed (lines : list jsstr) (o : object) :
  foldl parse_line o (List.filter (fun l => (0 <? indexOf COLON l)%Z) lines)
  = foldl parse_line o lines.
Proof.
  revert o. induction lines as [|l ls IH]; intros o; [reflexivity|].
  cbn [List.filter foldl]. destruct (0 <? indexOf COLON l)%Z eqn:Hl.
  - cbn [foldl]. apply IH.
  - rewrite (parse_line_no_key o l Hl). apply IH.
Qed.

Lemma parseFrontmatter_block_lines (ws0 : jsstr) (lines : list jsstr)
    (ws1 rest : jsstr) :
  Forall (fun c => is_space c = true) ws0 ->
  Forall (fun c => is_space c = true) ws1 ->
  block_lines lines ->
  parseFrontmatter (document ws0 lines ws1 rest) =
  Parsed (foldl parse_line empty_object lines) (skip_blank_lines rest).
Proof.
  intros Hws0 Hws1 Hlines.
  rewrite parseFrontmatter_split, frontmatter_split_block by assumption.
  destruct lines as [|l ls]; [destruct Hlines|].
  destruct Hlines as (_ & Hlf & _).
  rewrite split_join; [reflexivity|exact Hlf|discriminate].
Qed.

(** X13. A block is recognised whatever its lines are, as long as the
    first one is not blank and no other one reads as a delimiter. The lines
    without a colon behind their first character (comments, blank lines,
    items of a list) are skipped, the others are parsed as usual, and the
    body is the text behind the closing delimiter without the blank lines it
    starts with. *)
Theorem parseFrontmatter_any_lines (ws0 : jsstr) (lines : list jsstr)
    (ws1 rest : jsstr) :
  Forall (fun c => is_space c = true) ws0 ->
  Forall (fun c => is_space c = true) ws1 ->
  block_lines lines ->
  let p := parseFrontmatter (document ws0 lines ws1 rest) in
  frontmatter p
  = foldl parse_line empty_object
      (List.filter (fun l => (0 <? indexOf COLON l)%Z) lines)
  ∧ (∀ k, k ≠ PROTO -> own (frontmatter p) !! k = binding lines k)
  ∧ content p = skip_blank_lines rest.
Proof.
  intros Hws0 Hws1 Hlines p. subst p.
  rewrite parseFrontmatter_block_lines by assumption. cbn [frontmatter content].
  split; [symmetry; apply foldl_parse_line_keyed|]. split; [|reflexivity].
  intros k Hk. rewrite own_lines_binding by exact Hk.
  destruct (binding lines k); reflexivity.
Qed.

(** A block with a comment, a blank line and an item of a list. *)
Lemma parseFrontmatter_any_lines_witness :
  let lines := [lit "# about"; lit "title: T"; []; lit "- x"] in
  let p := parseFrontmatter (document [] lines [] (lit "Text.")) in
  frontmatter p
  = foldl parse_line empty_object
      (List.filter (fun l => (0 <? indexOf COLON l)%Z) lines)
  ∧ (∀ k, k ≠ PROTO -> own (frontmatter p) !! k = binding lines k)
  ∧ content p = skip_blank_lines (lit "Text.").
Proof.
  apply (parseFrontmatter_any_lines []
           [lit "# about"; lit "title: T"; []; lit "- x"] [] (lit "Text.")).
  - constructor.
  - constructor.
  - split; [reflexivity|].
    split; refine (bool_decide_unpack _ _); vm_compute; exact I.
Defined.

(** X14. The merged metadata of a post whose document has a block: a key
    has the value its last line in the block gives it, and the value of the
    entry of the catalog when no line of the block has the key. *)
Theorem final_meta_block (postMeta : gmap jsstr value) (ws0 : jsstr)
    (lines : list jsstr) (ws1 rest k : jsstr) :
  Forall (fun c => is_space c = true) ws0 ->
  Forall (fun c => is_space c = true) ws1 ->
  block_lines lines -> k ≠ PROTO ->
  final_meta postMeta (document ws0 lines ws1 rest) !! k =
  match binding lines k with
  | Some v => Some v
  | None => postMeta !! k
  end.
Proof.
  intros Hws0 Hws1 Hlines Hk. unfold final_meta.
  rewrite parseFrontmatter_block_lines by assumption. cbn [frontmatter].
  rewrite merge_lookup, own_lines_binding by exact Hk.
  destruct (binding lines k); reflexivity.
Qed.

(** The title of the document goes over that of the catalog. *)
Lemma final_meta_block_witness :
  final_meta post_entry (document [] [lit "title: T"] [] (lit "Text."))
    !! lit "title" =
  match binding [lit "title: T"] (lit "title") with
  | Some v => Some v
  | None => post_entry !! lit "title"
  end.
Proof.
  apply (final_meta_block post_entry [] [lit "title: T"] [] (lit "Text.")
           (lit "title")).
  - constructor.
  - constructor.
  - split; [reflexivity|].
    split; refine (bool_decide_unpack _ _); vm_compute; exact I.
  - discriminate.
Defined.

(** ** Windows line endings *)

Lemma trimStart_app_space (s : jsstr) (c : N) :
  is_space c = true ->
  trimStart (s ++ [c]) = if forallb is_space s then [] else trimStart s ++ [c].
Proof.
  intros Hc. induction s as [|x s IH]; cbn [app trimStart forallb].
  - rewrite Hc. reflexivity.
  - destruct (is_space x); [exact IH|reflexivity].
Qed.

Lemma trimStart_blank (s : jsstr) :
  forallb is_space s = true -> trimStart s = [].
Proof.
  induction s as [|x s IH]; cbn [trimStart forallb]; [reflexivity|].
  destruct (is_space x); [exact IH|discriminate].
Qed.

Lemma trim_app_space (s : jsstr) (c : N) :
  is_space c = true -> trim (s ++ [c]) = trim s.
Proof.
  intros Hc. unfold trim. rewrite (trimStart_app_space s c Hc).
  destruct (forallb is_space s) eqn:Hs.
  - rewrite (trimStart_blank s Hs). reflexivity.
  - unfold trimEnd. rewrite rev_app_distr. cbn [rev app trimStart].
    rewrite Hc. reflexivity.
Qed.

Lemma indexOf_app_other (c x : N) (s : jsstr) :
  x ≠ c -> indexOf c (s ++ [x]) = indexOf c s.
Proof.
  intros Hx. induction s as [|y s IH]; cbn [app indexOf].
  - destruct (N.eqb_spec x c); [contradiction|reflexivity].
  - rewrite IH. reflexivity.
Qed.

Lemma parse_value_app_space (text : jsstr) (c : N) :
  is_space c = true -> parse_value (text ++ [c]) = parse_value text.
Proof. intros Hc. unfold parse_value. rewrite (trim_app_space text c Hc). reflexivity. Qed.

(** A carriage return at the end of a line changes nothing. *)
Lemma parse_line_cr (o : object) (l : jsstr) :
  parse_line o (l ++ [CR]) = parse_line o l.
Proof.
  unfold parse_line. rewrite indexOf_app_other by discriminate.
  destruct (0 <? indexOf COLON l)%Z eqn:Hpos; [|reflexivity].
  apply Z.ltb_lt in Hpos.
  pose proof (indexOf_range COLON l) as Hr.
  assert (substring (l ++ [CR]) 0 (indexOf COLON l) = substring l 0 (indexOf COLON l))
    as ->.
  { unfold substring, clamp. rewrite length_app. cbn [length].
    rewrite !Nat.min_0_l, !Nat.max_0_l, !Nat.sub_0_r. cbn [drop].
    assert (Z.to_nat (indexOf COLON l) <= length l)%nat as Hle by lia.
    rewrite (Nat.min_l _ (length l + 1)), (Nat.min_l _ (length l)) by lia.
    apply take_app_le. exact Hle. }
  assert (substring_from (l ++ [CR]) (indexOf COLON l + 1)
          = substring_from l (indexOf COLON l + 1) ++ [CR]) as ->.
  { unfold substring_from, clamp. rewrite length_app. cbn [length].
    assert (Z.to_nat (indexOf COLON l + 1) <= length l)%nat as Hle by lia.
    rewrite (Nat.min_l _ (length l + 1)), (Nat.min_l _ (length l)) by lia.
    apply drop_app_le. exact Hle. }
  rewrite parse_value_app_space by reflexivity. reflexivity.
Qed.

Lemma foldl_parse_line_crlf (lines : list jsstr) (o : object) :
  foldl parse_line o (crlf lines) = foldl parse_line o lines.
Proof.
  revert o. induction lines as [|l ls IH]; intros o; [reflexivity|].
  cbn [crlf map foldl]. rewrite parse_line_cr. apply IH.
Qed.

Lemma delimiter_line_cr (l : jsstr) :
  delimiter_line l = false -> delimiter_line (l ++ [CR]) = false.
Proof.
  destruct l as [|c1 [|c2 [|c3 ws]]]; cbn [app delimiter_line]; try reflexivity.
  - intros _. replace (CR =? DASH) with false by reflexivity.
    rewrite andb_false_r. reflexivity.
  - rewrite forallb_app. cbn [forallb].
    replace (is_space CR) with true by reflexivity. rewrite !andb_true_r. auto.
Qed.

Lemma block_lines_crlf (lines : list jsstr) :
  block_lines lines -> block_lines (crlf lines).
Proof.
  destruct lines as [|l ls]; [auto|]. intros (Hblank & Hlf & Hnd).
  cbn [crlf map block_lines]. split; [|split].
  - unfold blank_line in *. rewrite forallb_app, Hblank. reflexivity.
  - change (Forall (fun l => LF ∉ l) (map (fun l => l ++ [CR]) (l :: ls))).
    apply Forall_map. eapply Forall_impl; [exact Hlf|].
    intros l0 Hl0. cbn beta. rewrite elem_of_app, list_elem_of_singleton.
    intros [?|?]; [contradiction|discriminate].
  - apply Forall_map. eapply Forall_impl; [exact Hnd|].
    intros l0 Hl0. apply delimiter_line_cr, Hl0.
Qed.

(** X15. Windows line endings are accepted: a document whose lines end
    with a carriage return and a newline gives the frontmatter and the body
    of the same document with plain newlines around its block. *)
Theorem parseFrontmatter_crlf (lines : list jsstr) (rest : jsstr) :
  block_lines lines ->
  parseFrontmatter (document [CR] (crlf lines) [CR] rest)
  = parseFrontmatter (document [] lines [] rest).
Proof.
  intros Hlines.
  rewrite !parseFrontmatter_block_lines;
    try apply block_lines_crlf; try assumption; repeat constructor.
  rewrite foldl_parse_line_crlf. reflexivity.
Qed.

Lemma parseFrontmatter_crlf_witness :
  parseFrontmatter (document [CR] (crlf [lit "title: T"; lit "tags: [a, b]"]) [CR]
                      (lit "Text."))
  = parseFrontmatter (document [] [lit "title: T"; lit "tags: [a, b]"] []
                        (lit "Text.")).
Proof.
  apply (parseFrontmatter_crlf [lit "title: T"; lit "tags: [a, b]"] (lit "Text.")).
  split; [reflexivity|].
  split; refine (bool_decide_unpack _ _); vm_compute; exact I.
Defined.

(** ** A block without lines *)

Lemma star_lazy_None {R : Type} (k : jsstr -> option R) (s : jsstr) :
  (∀ a b, s = a ++ b -> k b = None) -> star_lazy any_char k s = None.
Proof.
  induction s as [|c s IH]; intros Hk; cbn [star_lazy].
  - rewrite (Hk [] [] eq_refl). reflexivity.
  - rewrite (Hk [] (c :: s) eq_refl), any_char_true.
    apply IH. intros a b ->. apply (Hk (c :: a) b). reflexivity.
Qed.

Lemma blank_run_no_newline {R : Type} (k : jsstr -> option R) (w s : jsstr) :
  Forall (fun c => is_space c = true ∧ c ≠ LF) w ->
  star_greedy is_space (expect LF k) (w ++ s)
  = star_greedy is_space (expect LF k) s.
Proof.
  induction 1 as [|c w [Hc Hne] _ IH]; [reflexivity|].
  cbn [app star_greedy]. rewrite Hc, IH.
  destruct (star_greedy is_space (expect LF k) s); [reflexivity|].
  apply expect_ne. congruence.
Qed.

Lemma frontmatter_split_no_lines (ws0 t : jsstr) :
  Forall (fun c => is_space c = true ∧ c ≠ LF) ws0 ->
  (∀ a b, t ≠ a ++ LF :: DASH :: DASH :: DASH :: b) ->
  frontmatter_split (lit "---" ++ ws0 ++ [LF] ++ lit "---" ++ t) = None.
Proof.
  intros Hws0 Ht. unfold frontmatter_split.
  rewrite lit_dashes. cbn [app]. rewrite !expect_cons.
  rewrite blank_run_no_newline by exact Hws0.
  cbn [app star_greedy]. rewrite is_space_LF.
  replace (is_space DASH) with false by reflexivity.
  rewrite (expect_ne LF _ DASH) by discriminate.
  rewrite expect_cons.
  apply star_lazy_None. intros a b Hab.
  destruct (expect LF _ b) as [x|] eqn:Hb; [exfalso|reflexivity].
  apply expect_Some in Hb as (b1 & -> & Hb).
  apply expect_Some in Hb as (b2 & -> & Hb).
  apply expect_Some in Hb as (b3 & -> & Hb).
  apply expect_Some in Hb as (b4 & -> & _).
  destruct a as [|x1 [|x2 [|x3 a]]]; try discriminate.
  injection Hab as _ _ _ Hab. exact (Ht a b4 Hab).
Qed.

Lemma later_dash_line_false (t : jsstr) :
  later_dash_line t = false ->
  ∀ a b, t ≠ a ++ LF :: DASH :: DASH :: DASH :: b.
Proof.
  intros Ht a. revert t Ht. induction a as [|x a IH]; intros t Ht b ->.
  - discriminate Ht.
  - cbn [app later_dash_line] in Ht. apply orb_false_elim in Ht as [_ Ht].
    exact (IH _ Ht b eq_refl).
Qed.

(** X16. A block without lines is not recognised: when the closing
    delimiter stands on the line right behind the opening one, and no later
    line starts with three dashes, the document has no frontmatter and the
    whole text, delimiters included, is its body. *)
Theorem parseFrontmatter_no_lines (ws0 ws1 rest : jsstr) :
  Forall (fun c => is_space c = true ∧ c ≠ LF) ws0 ->
  later_dash_line (ws1 ++ LF :: rest) = false ->
  parseFrontmatter (document ws0 [] ws1 rest)
  = Parsed empty_object (document ws0 [] ws1 rest).
Proof.
  intros Hws0 Hrest. rewrite parseFrontmatter_split.
  unfold document, unlines. cbn [map concat app].
  change (lit "---" ++ ws0 ++ LF :: lit "---" ++ ws1 ++ LF :: rest)
    with (lit "---" ++ ws0 ++ [LF] ++ lit "---" ++ (ws1 ++ LF :: rest)).
  rewrite frontmatter_split_no_lines;
    [reflexivity|exact Hws0|apply later_dash_line_false, Hrest].
Qed.

Lemma parseFrontmatter_no_lines_witness :
  parseFrontmatter (document [32] [] [] (lit "Text."))
  = Parsed empty_object (document [32] [] [] (lit "Text.")).
Proof.
  apply (parseFrontmatter_no_lines [32] [] (lit "Text.")).
  - constructor; [split; [reflexivity|discriminate]|constructor].
  - reflexivity.
Defined.

(** ** The objects the parser builds *)

Lemma proto_free_lines (lines : list jsstr) (o : object) :
  proto_free o -> proto_free (foldl parse_line o lines).
Proof.
  revert o. induction lines as [|l ls IH]; intros o Ho; [exact Ho|].
  cbn [foldl]. apply IH, proto_free_line, Ho.
Qed.

Lemma parseFrontmatter_proto_free (md : jsstr) :
  proto_free (frontmatter (parseFrontmatter md)).
Proof.
  rewrite parseFrontmatter_split.
  destruct (frontmatter_split md) as [[g1 g2]|]; cbn [frontmatter].
  - apply proto_free_lines, proto_free_empty.
  - apply proto_free_empty.
Qed.

(** X17. Whatever the document says, the parser gives its object no own
    property [__proto__] (an assignment to this key goes to the accessor of
    [Object.prototype]), so that in the merged metadata this key is left as
    the entry of the catalog has it. *)
Theorem frontmatter_no_own_proto (postMeta : gmap jsstr value) (md : jsstr) :
  own (frontmatter (parseFrontmatter md)) !! PROTO = None
  ∧ final_meta postMeta md !! PROTO = postMeta !! PROTO.
Proof.
  pose proof (parseFrontmatter_proto_free md) as Hfree. unfold proto_free in Hfree.
  split; [exact Hfree|].
  unfold final_meta. rewrite merge_lookup, Hfree. reflexivity.
Qed.

(** [split] never returns an empty array. *)
Lemma lists_not_empty_set (o : object) (k : jsstr) (v : value) :
  lists_not_empty o -> (∀ a, v = VArr a -> a ≠ []) ->
  lists_not_empty (obj_set o k v).
Proof.
  intros [Hown Hproto] Hv. unfold obj_set.
  destruct (decide (k = PROTO)) as [->|Hk].
  - destruct v as [s|a]; [split; assumption|].
    split; [exact Hown|]. cbn [proto]. intros a' [= <-]. apply (Hv a eq_refl).
  - split; [|exact Hproto]. cbn [own]. intros k' a.
    destruct (decide (k' = k)) as [->|Hne].
    + rewrite lookup_insert_eq. intros [= ->]. apply (Hv a eq_refl).
    + rewrite lookup_insert_ne by congruence. apply Hown.
Qed.

Lemma lists_not_empty_lines (lines : list jsstr) (o : object) :
  lists_not_empty o -> lists_not_empty (foldl parse_line o lines).
Proof.
  revert o. induction lines as [|l ls IH]; intros o Ho; [exact Ho|].
  cbn [foldl]. apply IH. unfold parse_line.
  destruct (0 <? indexOf COLON l)%Z; [|exact Ho].
  apply lists_not_empty_set; [exact Ho|].
  intros a. apply parse_value_array_not_nil.
Qed.

(** X18. A list in the frontmatter is never empty, whatever the document:
    [split] returns at least one element, also for the brackets with
    nothing between them. *)
Theorem frontmatter_lists_not_empty (md k : jsstr) (a : list jsstr) :
  obj_get (frontmatter (parseFrontmatter md)) k = Some (VArr a) -> a ≠ [].
Proof.
  assert (lists_not_empty (frontmatter (parseFrontmatter md))) as [Hown Hproto].
  { rewrite parseFrontmatter_split.
    assert (lists_not_empty empty_object) as Hempty.
    { split; [intros k' a'; cbn [own empty_object]; rewrite lookup_empty; discriminate|discriminate]. }
    destruct (frontmatter_split md) as [[g1 g2]|]; cbn [frontmatter];
      [apply lists_not_empty_lines|]; exact Hempty. }
  unfold obj_get.
  destruct (own (frontmatter (parseFrontmatter md)) !! k) as [v|] eqn:Hk.
  - intros [= ->]. exact (Hown k a Hk).
  - destruct (decide (k = PROTO)); [|discriminate].
    destruct (proto (frontmatter (parseFrontmatter md))) as [a'|] eqn:Hp;
      [|discriminate].
    intros [= <-]. exact (Hproto a' eq_refl).
Qed.

(** The tags of the sample post. *)
Lemma frontmatter_lists_not_empty_witness :
  [lit "Java"; lit "Thread Safety"; lit "Concurrency"; lit "Backend"] ≠ [].
Proof.
  apply (frontmatter_lists_not_empty sample_post (lit "tags")).
  vm_compute. reflexivity.
Defined.

(** ** The name of a domain *)

Lemma remove_first_here (pattern s : jsstr) :
  remove_first pattern (pattern ++ s) = s.
Proof.
  assert (is_prefix pattern (pattern ++ s) = true) as Hp.
  { induction pattern as [|c p IH]; [reflexivity|].
    cbn [app is_prefix]. rewrite N.eqb_refl. exact IH. }
  destruct pattern as [|c p]; [destruct s; reflexivity|].
  cbn [remove_first app]. cbn [app] in Hp. rewrite Hp.
  cbn [length drop]. apply drop_app_length.
Qed.

(** Before a dot that ends the first label there is no [www.]. *)
Lemma www_not_prefix (c : N) (p t : jsstr) :
  DOT ∉ c :: p -> is_prefix (lit "www.") (c :: p ++ lit "www." ++ t) = false.
Proof.
  intros Hdot.
  assert (∀ x, x ∈ c :: p -> (DOT =? x) = false) as Hx.
  { intros x Hin. apply N.eqb_neq. intros <-. contradiction. }
  change (lit "www.") with [119; 119; 119; DOT].
  destruct p as [|c1 [|c2 [|c3 p]]]; cbn [app is_prefix].
  - replace (DOT =? 119) with false by reflexivity. rewrite !andb_false_r. reflexivity.
  - replace (DOT =? 119) with false by reflexivity. rewrite !andb_false_r. reflexivity.
  - replace (DOT =? 119) with false by reflexivity. rewrite !andb_false_r. reflexivity.
  - rewrite (Hx c3) by (rewrite !elem_of_cons; auto).
    rewrite !andb_false_r. reflexivity.
Qed.

Lemma remove_first_www (p t : jsstr) :
  DOT ∉ p -> remove_first (lit "www.") (p ++ lit "www." ++ t) = p ++ t.
Proof.
  induction p as [|c p IH]; intros Hdot.
  - exact (remove_first_here (lit "www.") t).
  - cbn [app remove_first]. rewrite www_not_prefix by exact Hdot.
    rewrite IH; [reflexivity|]. rewrite not_elem_of_cons in Hdot. tauto.
Qed.

(** X19. The name shown for the original is the hostname without its
    first [www.], wherever it stands: at the start of the hostname, the
    usual case, but also inside its first label. Only this one occurrence
    is removed. *)
Theorem getDomainName_removes_first_www (URL_hostname : jsstr -> option jsstr)
    (url p t : jsstr) :
  URL_hostname url = Some (p ++ lit "www." ++ t) -> DOT ∉ p ->
  getDomainName URL_hostname url = p ++ t.
Proof.
  intros Hhost Hdot. unfold getDomainName. rewrite Hhost.
  apply remove_first_www, Hdot.
Qed.

(** A hostname that repeats the prefix loses it once. *)
Lemma getDomainName_removes_first_www_witness :
  getDomainName (fun _ => Some (lit "www.www.example.com"))
    (lit "https://www.www.example.com/a")
  = lit "www.example.com".
Proof.
  apply (getDomainName_removes_first_www
           (fun _ => Some (lit "www.www.example.com"))
           (lit "https://www.www.example.com/a") [] (lit "www.example.com")).
  - reflexivity.
  - apply not_elem_of_nil.
Defined.

(** ** A list in quotes *)

Lemma is_quote_not_space (q : N) : is_quote q = true -> is_space q = false.
Proof.
  unfold is_quote. rewrite orb_true_iff, !N.eqb_eq. intros [->| ->]; reflexivity.
Qed.

Lemma trim_quoted (q1 q2 : N) (s : jsstr) :
  is_quote q1 = true -> is_quote q2 = true ->
  trim (q1 :: s ++ [q2]) = q1 :: s ++ [q2].
Proof.
  intros H1 H2. unfold trim, trimEnd. cbn [trimStart].
  rewrite (is_quote_not_space q1 H1).
  change (q1 :: s ++ [q2]) with ((q1 :: s) ++ [q2]).
  rewrite rev_app_distr. cbn [rev app trimStart].
  rewrite (is_quote_not_space q2 H2).
  change (q2 :: rev s ++ [q1]) with (rev [q2] ++ rev (q1 :: s)).
  rewrite <- rev_app_distr, rev_involutive. reflexivity.
Qed.

Lemma unquote_quoted (q1 q2 : N) (s : jsstr) :
  is_quote q1 = true -> is_quote q2 = true -> unquote (q1 :: s ++ [q2]) = s.
Proof.
  intros H1 H2. unfold unquote, drop_trailing_quote. cbn [drop_leading_quote].
  rewrite H1, rev_app_distr. cbn [rev app drop_leading_quote].
  rewrite H2. apply rev_involutive.
Qed.

(** X20. The quotes around a value are removed before the brackets are
    looked for, so that a list written in quotes is read as a list all the
    same, not as the string between the quotes. *)
Theorem parse_value_quoted_list (q1 q2 : N) (inner : jsstr) :
  is_quote q1 = true -> is_quote q2 = true ->
  parse_value (q1 :: (LBRACKET :: inner ++ [RBRACKET]) ++ [q2])
  = VArr (map (fun e => unquote (trim e)) (split COMMA inner)).
Proof.
  intros H1 H2. unfold parse_value.
  rewrite (trim_quoted q1 q2 _ H1 H2), strip_quotes_unquote,
    (unquote_quoted q1 q2 _ H1 H2), slice_brackets.
  assert (endsWith RBRACKET (LBRACKET :: inner ++ [RBRACKET]) = true) as ->.
  { unfold endsWith.
    change (LBRACKET :: inner ++ [RBRACKET]) with ((LBRACKET :: inner) ++ [RBRACKET]).
    rewrite rev_app_distr. reflexivity. }
  cbn [startsWith]. rewrite N.eqb_refl. cbn [andb].
  f_equal. apply map_ext. intros e. apply strip_quotes_unquote.
Qed.

(** The value of a line that gives its tags as a list in double quotes. *)
Lemma parse_value_quoted_list_witness :
  parse_value (34 :: (LBRACKET :: lit "a, b" ++ [RBRACKET]) ++ [34])
  = VArr (map (fun e => unquote (trim e)) (split COMMA (lit "a, b"))).
Proof.
  apply (parse_value_quoted_list 34 34 (lit "a, b")); reflexivity.
Defined.

(** ** The title of the page *)

Lemma bind_trace_prefix {A B : Type} (m : M A) (f : A -> M B) (w : world) :
  ∃ rest, ((m ≫= f) w).1 = (m w).1 ++ rest.
Proof.
  rewrite bind_run. destruct (m w) as [t [a|e]]; cbn [fst].
  - eexists. reflexivity.
  - exists []. rewrite app_nil_r. reflexivity.
Qed.

Lemma render_post_title (w : world) (meta : gmap jsstr value) (body : jsstr) :
  lit "page-title" ∈ elements w ->
  ∃ rest, (render_post meta body w).1 = page_title meta :: rest.
Proof.
  intros Hel. unfold render_post.
  match goal with
  | |- ∃ rest, ((?m ≫= ?f) w).1 = _ => destruct (bind_trace_prefix m f w) as [rest1 ->]
  end.
  unfold updatePageMetadata, set_textContent.
  match goal with
  | |- ∃ rest, ((?m ≫= ?f) w).1 ++ _ = _ =>
      destruct (bind_trace_prefix m f w) as [rest2 ->]
  end.
  rewrite on_element_run, decide_True by exact Hel. cbn [fst app].
  eexists. reflexivity.
Qed.

(** X21. Once the catalog entry and the document have arrived, the first
    change to a page that has the element of the title is the title: the
    title of the merged metadata and the name of the site. For a post
    without a title, in the catalog or in its frontmatter, the text starts
    with the word undefined. *)
Theorem loadBlogPost_page_title (w : world) (slug : jsstr)
    (postMeta : gmap jsstr value) (md : jsstr) :
  post_loaded w slug postMeta md ->
  lit "page-title" ∈ elements w ->
  (∃ rest, trace loadBlogPost w
           = EFetch catalog_url :: EFetch (document_url slug)
               :: page_title (final_meta postMeta md) :: rest)
  ∧ (final_meta postMeta md !! lit "title" = None ->
     page_title (final_meta postMeta md)
     = ETextContent (lit "page-title")
         (Some (VStr (lit "undefined - Aftab Muddassir")))).
Proof.
  intros Hloaded Hel. split.
  - unfold trace. rewrite (loadBlogPost_loaded w slug postMeta md Hloaded).
    destruct (render_post_title w (final_meta postMeta md)
                (content (parseFrontmatter md)) Hel) as [rest Hrest].
    destruct (render_post (final_meta postMeta md) (content (parseFrontmatter md)) w)
      as [t [[]|e]]; cbn [fst snd post_caught] in *; subst t;
      eexists; reflexivity.
  - intros Htitle. unfold page_title. rewrite Htitle. reflexivity.
Qed.

(** The page of a post that has no title, in the catalog or in its
    document. *)
Lemma loadBlogPost_page_title_witness :
  let untitled : gmap jsstr value := {[ lit "slug" := VStr (lit "post") ]} in
  let w := post_page untitled syndicated_post in
  (∃ rest, trace loadBlogPost w
           = EFetch catalog_url :: EFetch (document_url (lit "post"))
               :: page_title (final_meta untitled syndicated_post) :: rest)
  ∧ (final_meta untitled syndicated_post !! lit "title" = None ->
     page_title (final_meta untitled syndicated_post)
     = ETextContent (lit "page-title")
         (Some (VStr (lit "undefined - Aftab Muddassir")))).
Proof.
  intros untitled w.
  apply (loadBlogPost_page_title w (lit "post") untitled syndicated_post).
  - split; [reflexivity|]. split; [discriminate|].
    exists (Response true (Some [untitled]) None), [untitled],
      (Response true None (Some syndicated_post)).
    repeat split; vm_compute; reflexivity.
  - refine (bool_decide_unpack _ _). vm_compute. exact I.
Defined.

(** ** A post that is shown *)

Lemma mapM_returns {A B : Type} (f : A -> M B) (l : list A) (w : world) :
  (∀ x, ∃ y, (f x w).2 = Return y) -> ∃ ys, (mapM f l w).2 = Return ys.
Proof.
  intros Hf. induction l as [|x l [ys IH]]; [exists []; reflexivity|].
  destruct (Hf x) as [y Hy]. exists (y :: ys). cbn [mapM].
  rewrite bind_run. destruct (f x w) as [t1 o1]; cbn [snd] in Hy; subst o1.
  rewrite bind_run. destruct (mapM f l w) as [t2 o2]; cbn [snd] in IH; subst o2.
  reflexivity.
Qed.

Lemma highlight_returns (w : world) (code : jsstr) (lang : option jsstr) :
  (∀ code, ∃ v, hljs_highlightAuto w code = inl v) ->
  ∃ v, (highlight code lang w).2 = Return v.
Proof.
  intros Hauto. destruct (Hauto code) as [v Hv].
  assert (library_outcome (hljs_highlightAuto w code) = Return v) as Hlib
    by (rewrite Hv; reflexivity).
  destruct lang as [l|].
  - destruct (decide (l = [])) as [->|Hne].
    { rewrite highlight_unrecognized by (intros ? [= <-]; auto). eauto. }
    destruct (hljs_getLanguage w l) eqn:Hl.
    + rewrite (highlight_recognized w code l Hne Hl).
      destruct (hljs_highlight w code l); eauto.
    + rewrite highlight_unrecognized by (intros ? [= <-]; auto). eauto.
  - rewrite highlight_unrecognized by discriminate. eauto.
Qed.

Lemma renderMarkdownContent_shown (w : world) (markdown : jsstr) :
  lit "post-content" ∈ elements w ->
  (∀ code, ∃ v, hljs_highlightAuto w code = inl v) ->
  ∃ before blocks,
    renderMarkdownContent markdown w =
    (before ++ [EInnerHTML (lit "post-content") (HMarkdown markdown blocks);
                EHighlightElements], Return tt).
Proof.
  intros Hel Hauto. unfold renderMarkdownContent.
  rewrite emit_bind, ask_bind, bind_run.
  destruct (mapM_returns (fun b => highlight b.1 b.2) (marked_blocks w markdown) w)
    as [blocks Hblocks].
  { intros b. apply highlight_returns, Hauto. }
  destruct (mapM _ (marked_blocks w markdown) w) as [t o];
    cbn [snd] in Hblocks; subst o.
  rewrite bind_run, set_innerHTML_run, decide_True by exact Hel.
  cbn [fst snd]. exists (EMarkedSetOptions :: t), blocks.
  unfold emit. cbn [fst snd app]. reflexivity.
Qed.

Lemma updatePageMetadata_shown (w : world) (meta : gmap jsstr value) :
  lit "page-title" ∈ elements w -> lit "meta-description" ∈ elements w ->
  (updatePageMetadata meta w).2 = Return tt.
Proof.
  intros H1 H2. unfold updatePageMetadata, set_textContent.
  rewrite bind_run, !on_element_run, !decide_True by assumption. reflexivity.
Qed.

Lemma canonical_shown (w : world) (meta : gmap jsstr value) :
  (∀ a, meta !! lit "canonical" ≠ Some (VArr a)) ->
  (match meta !! lit "canonical" with
   | Some (VStr canonical) =>
       if negb (bool_decide (canonical = []))
          && negb (bool_decide (trim canonical = [])) then
         addCanonicalTag canonical;;
         showCanonicalNotice canonical
       else mret tt
   | Some (VArr _) => throw TypeError
   | None => mret tt
   end w).2 = Return tt.
Proof.
  intros Hmeta.
  destruct (meta !! lit "canonical") as [[canonical|a]|];
    [|destruct (Hmeta a eq_refl)|reflexivity].
  destruct (negb (bool_decide (canonical = []))
            && negb (bool_decide (trim canonical = []))); [|reflexivity].
  unfold addCanonicalTag. rewrite emit_bind. cbn [snd].
  unfold showCanonicalNotice. rewrite ask_bind.
  repeat (destruct (decide _)); reflexivity.
Qed.

Lemma renderPostHeader_shown (w : world) (meta : gmap jsstr value) :
  lit "post-title" ∈ elements w -> lit "post-date" ∈ elements w ->
  lit "post-read-time" ∈ elements w -> lit "post-tags" ∈ elements w ->
  (∀ c s, meta !! lit "tags" ≠ Some (VStr (c :: s))) ->
  (renderPostHeader meta w).2 = Return tt.
Proof.
  intros H1 H2 H3 H4 Htags.
  unfold renderPostHeader, set_textContent, set_innerHTML. rewrite ask_bind.
  rewrite !bind_run, !on_element_run, !decide_True by assumption.
  cbn [fst snd].
  destruct (meta !! lit "tags") as [[[|c s]|[|tag tags]]|]; try reflexivity.
  - destruct (Htags c s eq_refl).
  - rewrite on_element_run, decide_True by assumption. reflexivity.
Qed.

Lemma render_post_shown (w : world) (meta : gmap jsstr value) (body : jsstr) :
  post_template w -> presentable meta ->
  (∀ code, ∃ v, hljs_highlightAuto w code = inl v) ->
  ∃ before blocks,
    render_post meta body w =
    (before ++ [EInnerHTML (lit "post-content") (HMarkdown body blocks);
                EHighlightElements], Return tt).
Proof.
  intros Htemplate [Hcanonical Htags] Hauto.
  unfold post_template in Htemplate. rewrite !Forall_cons in Htemplate.
  destruct Htemplate as (H1 & H2 & H3 & H4 & H5 & H6 & H7 & _).
  unfold render_post. rewrite bind_run.
  pose proof (updatePageMetadata_shown w meta H1 H2) as Ho1.
  destruct (updatePageMetadata meta w) as [t1 o1]; cbn [snd] in Ho1; subst o1.
  rewrite bind_run.
  pose proof (canonical_shown w meta Hcanonical) as Ho2.
  match goal with
  | |- context [match ?m w with _ => _ end] => destruct (m w) as [t2 o2]
  end; cbn [snd] in Ho2; subst o2.
  rewrite bind_run.
  pose proof (renderPostHeader_shown w meta H3 H4 H5 H6 Htags) as Ho3.
  destruct (renderPostHeader meta w) as [t3 o3]; cbn [snd] in Ho3; subst o3.
  destruct (renderMarkdownContent_shown w body H7 Hauto) as (before & blocks & ->).
  cbn [fst snd]. exists (t1 ++ t2 ++ t3 ++ before), blocks.
  rewrite <- !app_assoc. reflexivity.
Qed.

(** X22. A post is shown when everything is in place: once the catalog
    entry and the document have arrived, on a page with the elements of the
    template, with a canonical reference that is not a list and tags that
    are not a string, and with an automatic highlighter that does not fail
    (no other call into marked or hljs throws in this model), the run ends
    with the body of the document written to the content region, and no
    error state is entered. *)
Theorem loadBlogPost_shows_post (w : world) (slug : jsstr)
    (postMeta : gmap jsstr value) (md : jsstr) :
  post_loaded w slug postMeta md ->
  post_template w ->
  presentable (final_meta postMeta md) ->
  (∀ code, ∃ v, hljs_highlightAuto w code = inl v) ->
  (∃ before blocks,
     trace loadBlogPost w
     = before ++ [EInnerHTML (lit "post-content")
                    (HMarkdown (content (parseFrontmatter md)) blocks);
                  EHighlightElements])
  ∧ (∀ message, EShowError message ∉ trace loadBlogPost w).
Proof.
  intros Hloaded Htemplate Hmeta Hauto. unfold trace.
  rewrite (loadBlogPost_loaded w slug postMeta md Hloaded).
  pose proof (render_post_no_error_state w (final_meta postMeta md)
                (content (parseFrontmatter md))) as Hno.
  destruct (render_post_shown w (final_meta postMeta md)
              (content (parseFrontmatter md)) Htemplate Hmeta Hauto)
    as (before & blocks & Hrun).
  rewrite Hrun in *. cbn [fst snd post_caught] in *. split.
  - exists (EFetch catalog_url :: EFetch (document_url slug) :: before), blocks.
    reflexivity.
  - intros message. rewrite !not_elem_of_cons.
    split; [discriminate|]. split; [discriminate|]. apply Hno.
Qed.

(** The page of the sample post. *)
Lemma loadBlogPost_shows_post_witness :
  (∃ before blocks,
     trace loadBlogPost reading_world
     = before ++ [EInnerHTML (lit "post-content")
                    (HMarkdown (content (parseFrontmatter sample_post)) blocks);
                  EHighlightElements])
  ∧ (∀ message, EShowError message ∉ trace loadBlogPost reading_world).
Proof.
  apply (loadBlogPost_shows_post reading_world (lit "thread-safety")
           {[ lit "slug" := VStr (lit "thread-safety");
              lit "title" := VStr (lit "Thread Safety");
              lit "description" := VStr (lit "About threads") ]}
           sample_post).
  - split; [reflexivity|]. split; [discriminate|].
    exists (Response true
              (Some [ {[ lit "slug" := VStr (lit "thread-safety");
                         lit "title" := VStr (lit "Thread Safety");
                         lit "description" := VStr (lit "About threads") ]} ])
              None),
      [ {[ lit "slug" := VStr (lit "thread-safety");
           lit "title" := VStr (lit "Thread Safety");
           lit "description" := VStr (lit "About threads") ]} ],
      (Response true None (Some sample_post)).
    repeat split; vm_compute; reflexivity.
  - refine (bool_decide_unpack _ _). vm_compute. exact I.
  - split; intros; vm_compute; discriminate.
  - intros code. exists code. reflexivity.
Defined.
